(** * A WhatsApp assistant bot: per-user queues, rate limits, bans and heartbeats

    Shallow embedding of the message-handling core of the bot, in its five
    source variants:

    - [src/app.ts]            (module [App]),
    - [unnamed/part_000]      (module [Part000]),
    - [unnamed/part_001]      (module [Part001], the LRU-cache variant),
    - [unnamed/part_002]      (module [Part002]),
    - [unnamed/part_003]      (module [Part003]).

    Modelling conventions.

    - A JavaScript [number] that holds a counter or a [Date.now()] timestamp
      is a [Z]: both stay integers far below 2^53, where arithmetic on
      doubles is exact.
    - A JavaScript string is the list of its UTF-16 code units ([list N]).
    - A [Map] that is never iterated is a [gmap]; the [Map] inside
      [SimpleLRUCache], whose iteration order is its eviction order, is an
      insertion-ordered association list ([JsMap]).
    - Arrays and objects that are shared between an admission call and a
      suspended [handleQueue] activation live in an explicit heap and are
      named by their index.
    - The event loop runs one synchronous turn per event: the arrival of a
      message, the settlement of an awaited promise, or a timer tick.  Each
      turn runs up to the next [await]. Every [Date.now()] read of one turn
      returns the time stamp carried by the event.

    Part I holds the definitions: the code, module by module, then the
    invariants and the scenarios that the theorems of Part II speak
    about ([Invariants], [Scripts], [AskOrder]). *)

From stdpp Require Import gmap strings list pretty sorting.
From Stdlib Require Import ZArith NArith Lia.
From Stdlib Require Ascii String.

Open Scope Z_scope.

(* ===================================================================== *)
(** * Part I: definitions                                                  *)
(* ===================================================================== *)

(** ** JavaScript strings and the regular expressions the bot uses *)

Module JsText.

Abbreviation jsstring := (list N).

(** An ASCII literal as a JavaScript string. *)
Definition js (s : string) : jsstring :=
  (fun a => Ascii.N_of_ascii a) <$> String.list_ascii_of_string s.

Definition LF : N := 10%N.
Definition STAR : N := 42%N.
Definition DASH : N := 45%N.
Definition SPACE : N := 32%N.
Definition LBRACKET : N := 91%N.
Definition RBRACKET : N := 93%N.
(** U+3010 and U+3011, the lenticular brackets of assistant citations. *)
Definition LLENT : N := 12304%N.
Definition RLENT : N := 12305%N.

(** ECMAScript LineTerminator: what [.] does not match. *)
Definition is_line_terminator (c : N) : bool :=
  ((c =? 10) || (c =? 13) || (c =? 8232) || (c =? 8233))%N.

(** ECMAScript WhiteSpace and LineTerminator: what [\s] matches and
    [trim] removes. *)
Definition is_white_space (c : N) : bool :=
  ((c =? 9) || (c =? 10) || (c =? 11) || (c =? 12) || (c =? 13) || (c =? 32)
   || (c =? 160) || (c =? 5760) || ((8192 <=? c) && (c <=? 8202))
   || (c =? 8232) || (c =? 8233) || (c =? 8239) || (c =? 8287)
   || (c =? 12288) || (c =? 65279))%N.

Fixpoint trim_start (s : jsstring) : jsstring :=
  match s with
  | [] => []
  | c :: r => if is_white_space c then trim_start r else s
  end.

(** [String.prototype.trim]. *)
Definition trim (s : jsstring) : jsstring :=
  reverse (trim_start (reverse (trim_start s))).

Fixpoint starts_with (p s : jsstring) : bool :=
  match p, s with
  | [], _ => true
  | _ :: _, [] => false
  | a :: p', b :: s' => (a =? b)%N && starts_with p' s'
  end.

(** The regular expression [.*?suf] anchored at the start of [s], for a
    literal [suf]: the shortest run [g] of characters other than line
    terminators that is followed by [suf].  Returns [g] and what follows
    [suf]. *)
Fixpoint lazy_until (suf s : jsstring) {struct s} : option (jsstring * jsstring) :=
  if starts_with suf s then Some ([], drop (length suf) s)
  else match s with
       | [] => None
       | c :: r =>
           if is_line_terminator c then None
           else match lazy_until suf r with
                | Some (g, rest) => Some (c :: g, rest)
                | None => None
                end
       end.

(** [opn(.*?)suf] anchored at the start of [s]. *)
Definition match_delim (opn suf s : jsstring) : option (jsstring * jsstring) :=
  if starts_with opn s then lazy_until suf (drop (length opn) s) else None.

(** [s.replace(/opn(.*?)suf/g, repl)]: matches are taken left to right and
    do not overlap; the scan resumes after each match.  [fuel] bounds the
    number of scan steps; [length s] is always enough. *)
Fixpoint replace_delim_fuel (fuel : nat) (opn suf : jsstring)
    (repl : jsstring -> jsstring) (s : jsstring) : jsstring :=
  match fuel with
  | O => s
  | S f =>
      match s with
      | [] => []
      | c :: r =>
          match match_delim opn suf s with
          | Some (g, rest) => repl g ++ replace_delim_fuel f opn suf repl rest
          | None => c :: replace_delim_fuel f opn suf repl r
          end
      end
  end.

Definition replace_delim (opn suf : jsstring) (repl : jsstring -> jsstring)
    (s : jsstring) : jsstring :=
  replace_delim_fuel (length s) opn suf repl s.

(** [s.replace(/\[.*?\]/g, "")] *)
Definition strip_square (s : jsstring) : jsstring :=
  replace_delim [LBRACKET] [RBRACKET] (fun _ => []) s.

(** [s.replace(/\*\*(.*?)\*\*/g, "*$1*")] *)
Definition single_emphasis (s : jsstring) : jsstring :=
  replace_delim [STAR; STAR] [STAR; STAR] (fun g => STAR :: g ++ [STAR]) s.

(** [s.replace(/【.*?】/g, "")] *)
Definition strip_lenticular (s : jsstring) : jsstring :=
  replace_delim [LLENT] [RLENT] (fun _ => []) s.

(** [s.replace(/【.*?】[ ]/g, "")] *)
Definition strip_lenticular_sp (s : jsstring) : jsstring :=
  replace_delim [LLENT] [RLENT; SPACE] (fun _ => []) s.

(** [s.replace(/【.*?】[ ] /g, "")] *)
Definition strip_lenticular_sp2 (s : jsstring) : jsstring :=
  replace_delim [LLENT] [RLENT; SPACE; SPACE] (fun _ => []) s.

(** [s.replace(/\*\*/g, "*")] *)
Fixpoint collapse_stars (s : jsstring) : jsstring :=
  match s with
  | [] => []
  | a :: t =>
      match t with
      | b :: r =>
          if ((a =? STAR) && (b =? STAR))%N then STAR :: collapse_stars r
          else a :: collapse_stars t
      | [] => [a]
      end
  end.

(** [s.replace(/\n-\s/g, "\n")] *)
Fixpoint strip_bullets (s : jsstring) : jsstring :=
  match s with
  | [] => []
  | a :: t =>
      match t with
      | b :: c :: r =>
          if ((a =? LF) && (b =? DASH))%N && is_white_space c
          then LF :: strip_bullets r
          else a :: strip_bullets t
      | _ => a :: strip_bullets t
      end
  end.

Definition cons_head (c : N) (ps : list jsstring) : list jsstring :=
  match ps with
  | [] => [[c]]
  | p :: ps' => (c :: p) :: ps'
  end.

(** [s.split(/\n\n+/)].  [insep] holds while the scan is inside a separator
    whose first two line feeds have been read. *)
Fixpoint split_blank_aux (insep : bool) (s : jsstring) : list jsstring :=
  match s with
  | [] => [[]]
  | c :: r =>
      if insep && (c =? LF)%N then split_blank_aux true r
      else match r with
           | d :: r' =>
               if ((c =? LF) && (d =? LF))%N then [] :: split_blank_aux true r'
               else cons_head c (split_blank_aux false r)
           | [] => cons_head c (split_blank_aux false r)
           end
  end.

Definition split_blank (s : jsstring) : list jsstring := split_blank_aux false s.

(** *** What "split on blank lines" means

    A blank line is what lies between two consecutive line feeds. *)
Fixpoint has_blank_line (s : jsstring) : bool :=
  match s with
  | [] => false
  | a :: t =>
      match t with
      | b :: _ => ((a =? LF) && (b =? LF))%N || has_blank_line t
      | [] => false
      end
  end.

(** [Paragraphs s ps]: the text [s] is the pieces [ps] separated by runs of
    one or more blank lines, that is, of two or more line feeds; no piece
    holds a blank line, and each run is as long as it can be. *)
Inductive Paragraphs : jsstring -> list jsstring -> Prop :=
| Paragraphs_last (p : jsstring) :
    has_blank_line p = false -> Paragraphs p [p]
| Paragraphs_more (p : jsstring) (n : nat) (rest : jsstring)
    (ps : list jsstring) :
    has_blank_line p = false ->
    last p <> Some LF ->
    (2 <= n)%nat ->
    head rest <> Some LF ->
    Paragraphs rest ps ->
    Paragraphs (p ++ replicate n LF ++ rest) (p :: ps).

(** [s.replace(/\[.*?\]|\*\*/g, "")] (unnamed/part_002, line 53): at each
    position the bracket group is tried first, then the two stars. *)
Fixpoint strip_square_or_stars_fuel (fuel : nat) (s : jsstring) : jsstring :=
  match fuel with
  | O => s
  | S f =>
      match s with
      | [] => []
      | c :: r =>
          match match_delim [LBRACKET] [RBRACKET] s with
          | Some (_, rest) => strip_square_or_stars_fuel f rest
          | None =>
              if starts_with [STAR; STAR] s
              then strip_square_or_stars_fuel f (drop 2 s)
              else c :: strip_square_or_stars_fuel f r
          end
      end
  end.

Definition strip_square_or_stars (s : jsstring) : jsstring :=
  strip_square_or_stars_fuel (length s) s.

End JsText.

(** ** The insertion-ordered [Map] of JavaScript

    Keys are unique and kept in insertion order; [set] on a present key
    keeps its position, [keys().next().value] is the oldest key. *)

Module JsMap.
Section JsMap.
Context {K V : Type} `{EqDecision K}.

Fixpoint get (k : K) (m : list (K * V)) : option V :=
  match m with
  | [] => None
  | (k', v) :: r => if decide (k = k') then Some v else get k r
  end.

Definition has (k : K) (m : list (K * V)) : bool :=
  match get k m with Some _ => true | None => false end.

Fixpoint delete (k : K) (m : list (K * V)) : list (K * V) :=
  match m with
  | [] => []
  | (k', v) :: r => if decide (k = k') then r else (k', v) :: delete k r
  end.

Fixpoint set (k : K) (v : V) (m : list (K * V)) : list (K * V) :=
  match m with
  | [] => [(k, v)]
  | (k', v') :: r => if decide (k = k') then (k, v) :: r else (k', v') :: set k v r
  end.

Definition size (m : list (K * V)) : nat := length m.

Definition keys (m : list (K * V)) : list K := fst <$> m.

(** [m.keys().next().value] *)
Definition first_key (m : list (K * V)) : option K := head (keys m).

End JsMap.
End JsMap.

(** ** [class SimpleLRUCache<K, V>] (unnamed/part_001, lines 29-85) *)

Module SimpleLRUCache.
Section Cache.
Context {K V : Type} `{EqDecision K}.

Record t := mk { cache : list (K * V); capacity : nat }.

(** [constructor(capacity)] *)
Definition new (capacity : nat) : t := mk [] capacity.

(** [get(key)]: the value, and the cache with [key] moved to the most
    recently used end. *)
Definition get (key : K) (c : t) : option V * t :=
  if JsMap.has key (cache c) then
    match JsMap.get key (cache c) with
    | Some value =>
        (Some value,
         mk (JsMap.set key value (JsMap.delete key (cache c))) (capacity c))
    | None => (None, c)
    end
  else (None, c).

(** [set(key, value)].  On an empty map [keys().next().value] is
    [undefined] and deleting it does nothing. *)
Definition set (key : K) (value : V) (c : t) : t :=
  let m := cache c in
  let m' :=
    if JsMap.has key m then JsMap.delete key m
    else if (capacity c <=? JsMap.size m)%nat then
      match JsMap.first_key m with
      | Some firstKey => JsMap.delete firstKey m
      | None => m
      end
    else m in
  mk (JsMap.set key value m') (capacity c).

Definition has (key : K) (c : t) : bool := JsMap.has key (cache c).

Definition clear (c : t) : t := mk [] (capacity c).

Definition size (c : t) : nat := JsMap.size (cache c).
Definition keys (c : t) : list K := JsMap.keys (cache c).

(** Histories of calls, to state what "least recently used" means. *)
Inductive op := OpGet (k : K) | OpSet (k : K) (v : V) | OpHas (k : K).

Definition apply_op (o : op) (c : t) : t :=
  match o with
  | OpGet k => (get k c).2
  | OpSet k v => set k v c
  | OpHas k => c
  end.

Definition run_ops (ops : list op) (c : t) : t :=
  foldl (fun c o => apply_op o c) c ops.

(** [get] and [set] refresh the recency of their key; [has] does not. *)
Definition touches (k : K) (o : op) : bool :=
  match o with
  | OpGet k' => bool_decide (k' = k)
  | OpSet k' _ => bool_decide (k' = k)
  | OpHas _ => false
  end.

(** The position, in the history, of the last call that touched [k]. *)
Fixpoint last_touch_from (i : nat) (ops : list op) (k : K) : option nat :=
  match ops with
  | [] => None
  | o :: r =>
      match last_touch_from (S i) r k with
      | Some j => Some j
      | None => if touches k o then Some i else None
      end
  end.

Definition last_touch (ops : list op) (k : K) : option nat :=
  last_touch_from 0 ops k.

(** [k1] was touched strictly before [k2]. *)
Definition older (ops : list op) (k1 k2 : K) : Prop :=
  match last_touch ops k1, last_touch ops k2 with
  | Some i, Some j => (i < j)%nat
  | _, _ => False
  end.

End Cache.
Arguments t : clear implicits.
Arguments op : clear implicits.
End SimpleLRUCache.

(** ** The event loop shared by app.ts, part_000, part_002 and part_003

    [welcomeFlow], [handleQueue] and [processUserMessage] are the same text
    in these four files up to three points, which a [Variant] records: the
    admission checks that [welcomeFlow] runs first, the clean-up that
    [processUserMessage] applies to the assistant's answer, and whether
    [handleQueue] keeps a typing interval while it drains. *)

Module Bot.
Import JsText.

(** How [welcomeFlow] disposes of a message before the queue: return
    silently, answer with a notice and return, or go on to the queue. *)
Inductive Verdict := Ignore | Deny (notice : jsstring) | Accept.

Record Variant := {
  adm_state : Type;
  adm_init : adm_state;
  admission : adm_state -> string -> Z -> adm_state * Verdict;
  fragments : jsstring -> list jsstring;
  heartbeat : bool }.

(** A queue entry [{ ctx, flowDynamic, state, provider }].  [t_id] is the
    arrival number of the message, which names its [flowDynamic]. *)
Record Task := { t_id : nat; t_from : string; t_body : jsstring }.

(** Where a [handleQueue] activation is suspended inside
    [processUserMessage]. *)
Inductive Await :=
| AwaitTyping
| AwaitAsk
| AwaitSend (rest : list jsstring).

#[global] Instance Await_eq_dec : EqDecision Await.
Proof. solve_decision. Defined.

(** A suspended activation of [handleQueue]: its [userId], the array its
    local [queue] refers to, its [typingInterval] and the task in hand.
    An activation is named by the arrival number of the message whose
    [welcomeFlow] called it. *)
Record Worker := {
  w_user : string;
  w_queue : nat;
  w_timer : option nat;
  w_task : Task;
  w_at : Await }.

Inductive TypingSource := ByTask (id : nat) | ByTimer (timer : nat).

(** Calls that leave the core, in the order they are made. *)
Inductive Action :=
| Send (id : nat) (user : string) (body : jsstring)
| Notice (id : nat) (user : string) (body : jsstring)
| Typing (user : string) (src : TypingSource)
| Ask (id : nat) (user : string) (body : jsstring)
| SetInterval (timer : nat) (user : string)
| ClearInterval (timer : nat) (user : string)
| ConsoleError (user : string).

Inductive Outcome := Fulfilled (value : jsstring) | Rejected.

Inductive Event :=
| Message (from : string) (body : jsstring) (now : Z)
| Settle (w : nat) (r : Outcome)
| Tick (timer : nat).

Section Machine.
Variable V : Variant.

Record St := mkSt {
  adm : adm_state V;
  userQueues : gmap string nat;
  userLocks : gmap string bool;
  heap : list (list Task);
  workers : gmap nat Worker;
  intervals : gmap nat string;
  next_timer : nat;
  next_id : nat;
  log : list Action }.

Definition init : St :=
  mkSt (adm_init V) ∅ ∅ [] ∅ ∅ 0 0 [].

Definition set_adm (a : adm_state V) (s : St) : St :=
  mkSt a (userQueues s) (userLocks s) (heap s) (workers s) (intervals s)
       (next_timer s) (next_id s) (log s).
Definition set_userQueues (m : gmap string nat) (s : St) : St :=
  mkSt (adm s) m (userLocks s) (heap s) (workers s) (intervals s)
       (next_timer s) (next_id s) (log s).
Definition set_userLocks (m : gmap string bool) (s : St) : St :=
  mkSt (adm s) (userQueues s) m (heap s) (workers s) (intervals s)
       (next_timer s) (next_id s) (log s).
Definition set_heap (h : list (list Task)) (s : St) : St :=
  mkSt (adm s) (userQueues s) (userLocks s) h (workers s) (intervals s)
       (next_timer s) (next_id s) (log s).
Definition set_workers (ws : gmap nat Worker) (s : St) : St :=
  mkSt (adm s) (userQueues s) (userLocks s) (heap s) ws (intervals s)
       (next_timer s) (next_id s) (log s).
Definition set_intervals (m : gmap nat string) (s : St) : St :=
  mkSt (adm s) (userQueues s) (userLocks s) (heap s) (workers s) m
       (next_timer s) (next_id s) (log s).
Definition set_next_timer (n : nat) (s : St) : St :=
  mkSt (adm s) (userQueues s) (userLocks s) (heap s) (workers s) (intervals s)
       n (next_id s) (log s).
Definition set_next_id (n : nat) (s : St) : St :=
  mkSt (adm s) (userQueues s) (userLocks s) (heap s) (workers s) (intervals s)
       (next_timer s) n (log s).
Definition emit (a : Action) (s : St) : St :=
  mkSt (adm s) (userQueues s) (userLocks s) (heap s) (workers s) (intervals s)
       (next_timer s) (next_id s) (log s ++ [a]).

(** [userLocks.get(userId)] read as a condition. *)
Definition locked (u : string) (s : St) : bool :=
  default false (userLocks s !! u).

Definition at_ (a : Await) (wk : Worker) : Worker :=
  {| w_user := w_user wk; w_queue := w_queue wk; w_timer := w_timer wk;
     w_task := w_task wk; w_at := a |}.

(** The activation [wk] with a new task in hand, at the head of
    [processUserMessage]. *)
Definition with_task (task : Task) (wk : Worker) : Worker :=
  {| w_user := w_user wk; w_queue := w_queue wk; w_timer := w_timer wk;
     w_task := task; w_at := AwaitTyping |}.

(** The [while (queue.length > 0)] loop of [handleQueue], entered at its
    test.  With a task in the queue: lock, shift, call
    [processUserMessage], which suspends at [await typing(ctx, provider)].
    With none: clear the interval, delete the lock and the queue. *)
Definition loop (u : string) (q : nat) (timer : option nat) (s : St)
    : St * option Worker :=
  match heap s !! q with
  | Some (task :: rest) =>
      let s1 := set_userLocks (<[u := true]> (userLocks s)) s in
      let s2 := set_heap (<[q := rest]> (heap s1)) s1 in
      let s3 := emit (Typing (t_from task) (ByTask (t_id task))) s2 in
      (s3, Some {| w_user := u; w_queue := q; w_timer := timer;
                   w_task := task; w_at := AwaitTyping |})
  | _ =>
      let s1 :=
        match timer with
        | Some t => emit (ClearInterval t u)
                      (set_intervals (delete t (intervals s)) s)
        | None => s
        end in
      let s2 := set_userLocks (delete u (userLocks s1)) s1 in
      let s3 := set_userQueues (delete u (userQueues s2)) s2 in
      (s3, None)
  end.

(** [handleQueue(userId)] up to its first [await], called by the
    [welcomeFlow] of message [spawn].  [welcomeFlow] calls it right after
    storing the queue, so [userQueues.get(userId)] is defined. *)
Definition handleQueue (u : string) (spawn : nat) (s : St) : St :=
  match userQueues s !! u with
  | None => s
  | Some q =>
      if locked u s then s
      else
        let '(s1, timer) :=
          if heartbeat V then
            let t := next_timer s in
            (emit (SetInterval t u)
               (set_next_timer (S t) (set_intervals (<[t := u]> (intervals s)) s)),
             Some t)
          else (s, None) in
        match loop u q timer s1 with
        | (s2, Some wk) => set_workers (<[spawn := wk]> (workers s2)) s2
        | (s2, None) => s2
        end
  end.

(** [processUserMessage] has returned or thrown: the [finally] releases
    the lock and the loop goes back to its test. *)
Definition finish (w : nat) (wk : Worker) (s : St) : St :=
  let s1 := set_userLocks (<[w_user wk := false]> (userLocks s)) s in
  match loop (w_user wk) (w_queue wk) (w_timer wk) s1 with
  | (s2, Some wk') => set_workers (<[w := wk']> (workers s2)) s2
  | (s2, None) => set_workers (delete w (workers s2)) s2
  end.

(** The [for (const chunk of chunks)] loop, at its head. *)
Definition send_next (w : nat) (wk : Worker) (chunks : list jsstring) (s : St)
    : St :=
  match chunks with
  | [] => finish w wk s
  | c :: rest =>
      set_workers (<[w := at_ (AwaitSend rest) wk]> (workers s))
        (emit (Send (t_id (w_task wk)) (t_from (w_task wk)) c) s)
  end.

(** The promise that activation [w] awaits settles.  A rejection is caught
    by the [catch] of [handleQueue], which only logs it. *)
Definition settle (w : nat) (r : Outcome) (s : St) : St :=
  match workers s !! w with
  | None => s
  | Some wk =>
      match r with
      | Rejected => finish w wk (emit (ConsoleError (w_user wk)) s)
      | Fulfilled v =>
          match w_at wk with
          | AwaitTyping =>
              set_workers (<[w := at_ AwaitAsk wk]> (workers s))
                (emit (Ask (t_id (w_task wk)) (t_from (w_task wk))
                         (t_body (w_task wk))) s)
          | AwaitAsk => send_next w wk (fragments V v) s
          | AwaitSend rest => send_next w wk rest s
          end
      end
  end.

(** The action of [welcomeFlow] up to its first [await]. *)
Definition welcomeFlow (from : string) (body : jsstring) (now : Z) (s : St)
    : St :=
  let id := next_id s in
  let s := set_next_id (S id) s in
  match admission V (adm s) from now with
  | (a, Ignore) => set_adm a s
  | (a, Deny notice) => emit (Notice id from notice) (set_adm a s)
  | (a, Accept) =>
      let s := set_adm a s in
      let s :=
        match userQueues s !! from with
        | Some _ => s
        | None =>
            set_heap (heap s ++ [[]])
              (set_userQueues (<[from := length (heap s)]> (userQueues s)) s)
        end in
      match userQueues s !! from with
      | None => s
      | Some q =>
          let queue := default [] (heap s !! q) ++
                       [{| t_id := id; t_from := from; t_body := body |}] in
          let s := set_heap (<[q := queue]> (heap s)) s in
          if negb (locked from s) && (length queue =? 1)%nat
          then handleQueue from id s else s
      end
  end.

(** The callback of [setInterval]. *)
Definition tick (t : nat) (s : St) : St :=
  match intervals s !! t with
  | Some u => emit (Typing u (ByTimer t)) s
  | None => s
  end.

Definition step (s : St) (e : Event) : St :=
  match e with
  | Message from body now => welcomeFlow from body now s
  | Settle w r => settle w r s
  | Tick t => tick t s
  end.

Definition run (evs : list Event) : St := foldl step init evs.

(** Observations on a state. *)

(** Arrival numbers of the answer fragments sent to [u], oldest first. *)
Definition sent_ids (u : string) (l : list Action) : list nat :=
  omap (fun a => match a with
                 | Send id u' _ => if decide (u' = u) then Some id else None
                 | _ => None
                 end) l.

(** Activations of [handleQueue] for [u] that are suspended. *)
Definition workers_of (u : string) (s : St) : gmap nat Worker :=
  filter (fun kw => w_user kw.2 = u) (workers s).

(** Completion calls in flight for [u]. *)
Definition asks_in_flight (u : string) (s : St) : nat :=
  size (filter (fun kw => w_user kw.2 = u ∧ w_at kw.2 = AwaitAsk)
               (workers s)).

End Machine.
End Bot.

(** ** src/app.ts *)

Module App.
Import JsText Bot.

Definition MAX_MESSAGES_PER_DAY : Z := 20.
Definition BAN_DURATION : Z := 24 * 60 * 60 * 1000.

(** The objects stored in [userMessageCount]. *)
Record Stats := { count : Z; firstMessageTime : Z }.

Record Stores := {
  userMessageCount : gmap string Stats;
  userBanList : gmap string Z }.

(** [rateLimitUser(userId)], lines 18-33. *)
Definition rateLimitUser (counts : gmap string Stats) (userId : string)
    (currentTime : Z) : gmap string Stats * bool :=
  let userStats :=
    default {| count := 0; firstMessageTime := currentTime |}
            (counts !! userId) in
  let userStats' :=
    if currentTime - firstMessageTime userStats >? 24 * 60 * 60 * 1000
    then {| count := 1; firstMessageTime := currentTime |}
    else {| count := count userStats + 1;
            firstMessageTime := firstMessageTime userStats |} in
  (<[userId := userStats']> counts,
   count userStats' <=? MAX_MESSAGES_PER_DAY).

(** [banUser(userId, duration)], lines 36-39. *)
Definition banUser (bans : gmap string Z) (userId : string) (duration : Z)
    (now : Z) : gmap string Z :=
  <[userId := now + duration]> bans.

(** [isUserBanned(userId)], lines 42-50.  [!banExpiry] holds for a missing
    entry and for the number 0. *)
Definition isUserBanned (bans : gmap string Z) (userId : string) (now : Z)
    : gmap string Z * bool :=
  match bans !! userId with
  | None => (bans, false)
  | Some banExpiry =>
      if banExpiry =? 0 then (bans, false)
      else if now >? banExpiry then (delete userId bans, false)
      else (bans, true)
  end.

Definition ban_notice : jsstring :=
  js "Haz abusado del servicio, estas baneado por 24 horas.".

(** The checks at the head of [welcomeFlow], lines 97-105. *)
Definition admission (s : Stores) (userId : string) (now : Z)
    : Stores * Verdict :=
  let '(bans, banned) := isUserBanned (userBanList s) userId now in
  if banned then
    ({| userMessageCount := userMessageCount s; userBanList := bans |}, Ignore)
  else
    let '(counts, ok) := rateLimitUser (userMessageCount s) userId now in
    if ok then
      ({| userMessageCount := counts; userBanList := bans |}, Accept)
    else
      ({| userMessageCount := counts;
          userBanList := banUser bans userId BAN_DURATION now |},
       Deny ban_notice).

(** Messages [(sender, arrival time)] passing the checks one after the
    other: the stores they leave, and what [userId] was told. *)
Definition after (s : Stores) (ms : list (string * Z)) : Stores :=
  foldl (fun s m => (admission s m.1 m.2).1) s ms.

Fixpoint verdicts_of (userId : string) (s : Stores) (ms : list (string * Z))
    : list Verdict :=
  match ms with
  | [] => []
  | (v, t) :: r =>
      let '(s', d) := admission s v t in
      if decide (v = userId) then d :: verdicts_of userId s' r
      else verdicts_of userId s' r
  end.

Definition times_of (userId : string) (ms : list (string * Z)) : list Z :=
  snd <$> filter (fun m => m.1 = userId) ms.

(** [cleanedResponse], lines 58-60 of [processUserMessage]. *)
Definition cleanedResponse (response : jsstring) : jsstring :=
  single_emphasis (strip_square response).

(** The bodies sent for a [response], lines 62-65. *)
Definition fragments (response : jsstring) : list jsstring :=
  trim <$> split_blank (cleanedResponse response).

Definition variant : Variant :=
  {| adm_state := Stores;
     adm_init := {| userMessageCount := ∅; userBanList := ∅ |};
     Bot.admission := admission;
     Bot.fragments := fragments;
     heartbeat := false |}.

End App.

(** ** unnamed/part_000 *)

Module Part000.
Import JsText Bot.

Definition MAX_MESSAGES : Z := 20.
Definition BAN_DURATION : Z := 24 * 60 * 60 * 1000.

Record Stores := {
  userBans : gmap string Z;
  messageLimits : gmap string Z }.

(** [isUserBanned(userId)], lines 22-28. *)
Definition isUserBanned (bans : gmap string Z) (userId : string) (now : Z)
    : bool :=
  match bans !! userId with
  | None => false
  | Some banEnd => negb (banEnd =? 0) && (banEnd >? now)
  end.

(** [banUser(userId)], lines 33-36. *)
Definition banUser (s : Stores) (userId : string) (now : Z) : Stores :=
  {| userBans := <[userId := now + BAN_DURATION]> (userBans s);
     messageLimits := delete userId (messageLimits s) |}.

(** [rateLimitUser(userId)], lines 41-48. *)
Definition rateLimitUser (limits : gmap string Z) (userId : string)
    : gmap string Z * bool :=
  let messageCount := default 0 (limits !! userId) in
  if messageCount >=? MAX_MESSAGES then (limits, false)
  else (<[userId := messageCount + 1]> limits, true).

(** "Has sido bloqueado temporalmente por exceder el límite de mensajes." *)
Definition ban_notice : jsstring :=
  js "Has sido bloqueado temporalmente por exceder el l" ++ [237%N] ++
  js "mite de mensajes.".

Definition admission (s : Stores) (userId : string) (now : Z)
    : Stores * Verdict :=
  if isUserBanned (userBans s) userId now then (s, Ignore)
  else
    let '(limits, ok) := rateLimitUser (messageLimits s) userId in
    let s' := {| userBans := userBans s; messageLimits := limits |} in
    if ok then (s', Accept) else (banUser s' userId now, Deny ban_notice).

(** Lines 57-61. *)
Definition fragments (response : jsstring) : list jsstring :=
  (fun chunk => collapse_stars (strip_lenticular_sp (trim chunk)))
    <$> split_blank response.

Definition variant : Variant :=
  {| adm_state := Stores;
     adm_init := {| userBans := ∅; messageLimits := ∅ |};
     Bot.admission := admission;
     Bot.fragments := fragments;
     heartbeat := true |}.

End Part000.

(** ** unnamed/part_002: the admission functions *)

Module Part002.

Definition LIMIT : Z := 30.

(** [isUserBanned(userId)], lines 20-28. *)
Definition isUserBanned (bans : gmap string Z) (userId : string) (now : Z)
    : gmap string Z * bool :=
  match bans !! userId with
  | None => (bans, false)
  | Some banExpiry =>
      if banExpiry =? 0 then (bans, false)
      else if now >? banExpiry then (delete userId bans, false)
      else (bans, true)
  end.

(** [banUser(userId, duration)], lines 31-34. *)
Definition banUser (bans : gmap string Z) (userId : string) (duration : Z)
    (now : Z) : gmap string Z :=
  <[userId := now + duration]> bans.

(** [rateLimitUser(userId)], lines 37-46. *)
Definition rateLimitUser (counts : gmap string Z) (userId : string)
    : gmap string Z * bool :=
  let currentCount := default 0 (counts !! userId) in
  let newCount := currentCount + 1 in
  (<[userId := newCount]> counts, negb (newCount >? LIMIT)).

Record Stores := {
  userMessageCounts : gmap string Z;
  userBanList : gmap string Z }.

(** Everything the file does to the two maps. [Welcome] is the head of
    [welcomeFlow], lines 92-100, which bans for one hour. *)
Inductive call :=
| RateLimit (userId : string)
| Ban (userId : string) (duration : Z) (now : Z)
| IsBanned (userId : string) (now : Z)
| Welcome (userId : string) (now : Z).

Definition welcome (s : Stores) (userId : string) (now : Z) : Stores :=
  let '(bans, banned) := isUserBanned (userBanList s) userId now in
  if banned then
    {| userMessageCounts := userMessageCounts s; userBanList := bans |}
  else
    let '(counts, ok) := rateLimitUser (userMessageCounts s) userId in
    if ok then {| userMessageCounts := counts; userBanList := bans |}
    else {| userMessageCounts := counts;
            userBanList := banUser bans userId (60 * 60 * 1000) now |}.

Definition apply_call (s : Stores) (c : call) : Stores :=
  match c with
  | RateLimit u =>
      {| userMessageCounts := (rateLimitUser (userMessageCounts s) u).1;
         userBanList := userBanList s |}
  | Ban u d now =>
      {| userMessageCounts := userMessageCounts s;
         userBanList := banUser (userBanList s) u d now |}
  | IsBanned u now =>
      {| userMessageCounts := userMessageCounts s;
         userBanList := (isUserBanned (userBanList s) u now).1 |}
  | Welcome u now => welcome s u now
  end.

Definition counter (s : Stores) (u : string) : Z :=
  default 0 (userMessageCounts s !! u).

Definition ban_notice : JsText.jsstring :=
  JsText.js "You have been temporarily banned for exceeding the message limit.".

(** The checks at the head of [welcomeFlow], lines 92-100, with what the
    sender is told. *)
Definition admission (s : Stores) (userId : string) (now : Z)
    : Stores * Bot.Verdict :=
  let '(bans, banned) := isUserBanned (userBanList s) userId now in
  if banned then
    ({| userMessageCounts := userMessageCounts s; userBanList := bans |},
     Bot.Ignore)
  else
    let '(counts, ok) := rateLimitUser (userMessageCounts s) userId in
    if ok then
      ({| userMessageCounts := counts; userBanList := bans |}, Bot.Accept)
    else
      ({| userMessageCounts := counts;
          userBanList := banUser bans userId (60 * 60 * 1000) now |},
       Bot.Deny ban_notice).

(** [cleanedResponse], line 53 of [processUserMessage]. *)
Definition cleanedResponse (response : JsText.jsstring) : JsText.jsstring :=
  JsText.collapse_stars (JsText.strip_square_or_stars response).

(** The bodies sent for a [response], lines 54-59. *)
Definition fragments (response : JsText.jsstring) : list JsText.jsstring :=
  JsText.trim <$> JsText.split_blank (cleanedResponse response).

(** [handleQueue] and the rest of [welcomeFlow], lines 62-112, are those of
    app.ts. *)
Definition variant : Bot.Variant :=
  {| Bot.adm_state := Stores;
     Bot.adm_init := {| userMessageCounts := ∅; userBanList := ∅ |};
     Bot.admission := admission;
     Bot.fragments := fragments;
     Bot.heartbeat := false |}.

End Part002.

(** ** unnamed/part_003 *)

Module Part003.
Import JsText Bot.

(** Lines 26-32. *)
Definition fragments (response : jsstring) : list jsstring :=
  (fun chunk => strip_lenticular_sp2 (trim chunk))
    <$> split_blank (trim (strip_square response)).

(** [welcomeFlow] has no admission checks. *)
Definition variant : Variant :=
  {| adm_state := unit;
     adm_init := tt;
     admission := fun a _ _ => (a, Accept);
     Bot.fragments := fragments;
     heartbeat := true |}.

End Part003.

(** ** unnamed/part_001: the LRU-cache variant *)

Module Part001.
Import JsText.
Export Bot(Task, t_id, t_from, t_body, Outcome, Fulfilled, Rejected,
           TypingSource, ByTask, ByTimer).

Definition CAPACITY : nat := 1000.
Definition MAX_MESSAGES : Z := 20.
Definition RESET_PERIOD : Z := 24 * 60 * 60 * 1000.
Definition NOTIFICATION_THRESHOLD : Z := 15.

(** [interface UserMessageInfo].  [queue] names an array of the heap:
    [userInfo.queue = []] stores a new array in the field, while a
    suspended [handleQueue] keeps the one it read. *)
Record UserMessageInfo := {
  count : Z;
  firstMessageTime : Z;
  queue : nat;
  processing : bool;
  bannedNotified : bool }.

Record RateLimitResult := {
  allowed : bool;
  result_count : Z;
  timeUntilReset : Z }.

Inductive Await :=
| AwaitTyping
| AwaitAsk
| AwaitSend (rest : list jsstring)
| AwaitNotice     (* the [catch] of [processUserMessage] *)
| AwaitNotice2.   (* the [catch] of [handleQueue] *)

#[global] Instance Await_eq_dec : EqDecision Await.
Proof. solve_decision. Defined.

(** A suspended activation of [handleQueue]: the object and the array its
    locals [userInfo] and [queue] refer to, its timer, the task in hand,
    and the message whose [welcomeFlow] awaits it, which names it. *)
Record Worker := {
  w_user : string;
  w_info : nat;
  w_queue : nat;
  w_timer : nat;
  w_spawn : nat;
  w_task : Task;
  w_at : Await }.

(** An activation of [welcomeFlow] suspended at the near-limit notice
    (line 282) with the result of its rate-limit call. *)
Record Pending := { p_task : Task; p_count : Z }.

Inductive Action :=
| Send (id : nat) (user : string) (body : jsstring)
| Notice (id : nat) (user : string) (body : jsstring)
| Typing (user : string) (src : TypingSource)
| Ask (id : nat) (user : string) (body : jsstring)
| SetInterval (timer : nat) (user : string)
| ClearInterval (timer : nat) (user : string)
| ConsoleError (user : string).

Inductive Event :=
| Message (from : string) (body : jsstring) (now : Z)
| Settle (w : nat) (r : Outcome)
| SettleWelcome (p : nat) (r : Outcome) (now : Z)
| Tick (timer : nat).

Record St := mkSt {
  userMessageInfo : SimpleLRUCache.t string nat;
  objects : list UserMessageInfo;
  arrays : list (list Task);
  workers : gmap nat Worker;
  pending : gmap nat Pending;
  intervals : gmap nat string;
  next_timer : nat;
  next_id : nat;
  log : list Action }.

Definition init : St :=
  mkSt (SimpleLRUCache.new CAPACITY) [] [] ∅ ∅ ∅ 0 0 [].

Definition set_cache (c : SimpleLRUCache.t string nat) (s : St) : St :=
  mkSt c (objects s) (arrays s) (workers s) (pending s) (intervals s)
       (next_timer s) (next_id s) (log s).
Definition set_objects (o : list UserMessageInfo) (s : St) : St :=
  mkSt (userMessageInfo s) o (arrays s) (workers s) (pending s) (intervals s)
       (next_timer s) (next_id s) (log s).
Definition set_arrays (a : list (list Task)) (s : St) : St :=
  mkSt (userMessageInfo s) (objects s) a (workers s) (pending s) (intervals s)
       (next_timer s) (next_id s) (log s).
Definition set_workers (ws : gmap nat Worker) (s : St) : St :=
  mkSt (userMessageInfo s) (objects s) (arrays s) ws (pending s) (intervals s)
       (next_timer s) (next_id s) (log s).
Definition set_pending (ps : gmap nat Pending) (s : St) : St :=
  mkSt (userMessageInfo s) (objects s) (arrays s) (workers s) ps (intervals s)
       (next_timer s) (next_id s) (log s).
Definition set_intervals (m : gmap nat string) (s : St) : St :=
  mkSt (userMessageInfo s) (objects s) (arrays s) (workers s) (pending s) m
       (next_timer s) (next_id s) (log s).
Definition set_next_timer (n : nat) (s : St) : St :=
  mkSt (userMessageInfo s) (objects s) (arrays s) (workers s) (pending s)
       (intervals s) n (next_id s) (log s).
Definition set_next_id (n : nat) (s : St) : St :=
  mkSt (userMessageInfo s) (objects s) (arrays s) (workers s) (pending s)
       (intervals s) (next_timer s) n (log s).
Definition emit (a : Action) (s : St) : St :=
  mkSt (userMessageInfo s) (objects s) (arrays s) (workers s) (pending s)
       (intervals s) (next_timer s) (next_id s) (log s ++ [a]).

(** [userMessageInfo.get(userId)] and [userMessageInfo.set(userId, ref)]
    on the state. *)
Definition cache_get (userId : string) (s : St) : option nat * St :=
  let '(r, c) := SimpleLRUCache.get userId (userMessageInfo s) in
  (r, set_cache c s).
Definition cache_set (userId : string) (ref : nat) (s : St) : St :=
  set_cache (SimpleLRUCache.set userId ref (userMessageInfo s)) s.

(** A new object with a new empty array in its [queue] field:
    [{ count, firstMessageTime, queue: [], processing: false,
       bannedNotified: false }]. *)
Definition new_info (count : Z) (now : Z) (s : St) : nat * St :=
  let a := length (arrays s) in
  let o := length (objects s) in
  (o, set_objects (objects s ++
                   [{| count := count; firstMessageTime := now; queue := a;
                       processing := false; bannedNotified := false |}])
        (set_arrays (arrays s ++ [[]]) s)).

Definition set_count (n : Z) (i : UserMessageInfo) : UserMessageInfo :=
  {| count := n; firstMessageTime := firstMessageTime i; queue := queue i;
     processing := processing i; bannedNotified := bannedNotified i |}.
Definition set_queue (q : nat) (i : UserMessageInfo) : UserMessageInfo :=
  {| count := count i; firstMessageTime := firstMessageTime i; queue := q;
     processing := processing i; bannedNotified := bannedNotified i |}.
Definition set_processing (b : bool) (i : UserMessageInfo) : UserMessageInfo :=
  {| count := count i; firstMessageTime := firstMessageTime i;
     queue := queue i; processing := b; bannedNotified := bannedNotified i |}.
Definition set_bannedNotified (b : bool) (i : UserMessageInfo)
    : UserMessageInfo :=
  {| count := count i; firstMessageTime := firstMessageTime i;
     queue := queue i; processing := processing i; bannedNotified := b |}.

(** Assignment to a field of the object [ref]. *)
Definition update (ref : nat) (f : UserMessageInfo -> UserMessageInfo)
    (s : St) : St :=
  set_objects (alter f ref (objects s)) s.

(** Lines 110-124 of [rateLimitUser]: the object of [userId], replaced by
    a new one when there is none or when its reset period has passed. *)
Definition current_info (userId : string) (now : Z) (s : St) : nat * St :=
  let '(found, s) := cache_get userId s in
  let keep :=
    match found with
    | Some ref =>
        match objects s !! ref with
        | Some userInfo =>
            if now - firstMessageTime userInfo >=? RESET_PERIOD then None
            else Some ref
        | None => None
        end
    | None => None
    end in
  match keep with
  | Some ref => (ref, s)
  | None => let '(ref, s) := new_info 0 now s in (ref, cache_set userId ref s)
  end.

(** Lines 126-144 of [rateLimitUser], on the object [ref]. *)
Definition charge (userId : string) (now : Z) (ref : nat) (s : St)
    : St * RateLimitResult :=
  match objects s !! ref with
  | None => (s, {| allowed := false; result_count := 0; timeUntilReset := 0 |})
  | Some userInfo =>
      let timeUntilReset := RESET_PERIOD - (now - firstMessageTime userInfo) in
      if count userInfo >=? MAX_MESSAGES then
        let s :=
          if bannedNotified userInfo then s
          else cache_set userId ref (update ref (set_bannedNotified true) s) in
        (s, {| allowed := false; result_count := count userInfo;
               timeUntilReset := timeUntilReset |})
      else
        let s := update ref (fun i => set_bannedNotified false
                                        (set_count (count i + 1) i)) s in
        let s := cache_set userId ref s in
        (s, {| allowed := true; result_count := count userInfo + 1;
               timeUntilReset := timeUntilReset |})
  end.

(** [rateLimitUser(userId)], lines 109-145. *)
Definition rateLimitUser (userId : string) (now : Z) (s : St)
    : St * RateLimitResult :=
  let '(ref, s) := current_info userId now s in
  charge userId now ref s.

(** The count of [userId] in the window that contains [now]: 0 when there
    is no entry or the entry's window is over. *)
Definition window_count (userId : string) (now : Z) (s : St) : Z :=
  match JsMap.get userId (SimpleLRUCache.cache (userMessageInfo s)) with
  | Some ref =>
      match objects s !! ref with
      | Some userInfo =>
          if now - firstMessageTime userInfo >=? RESET_PERIOD then 0
          else count userInfo
      | None => 0
      end
  | None => 0
  end.

(** The count stored for [userId], without touching the cache. *)
Definition stored_count (userId : string) (s : St) : option Z :=
  ref ← JsMap.get userId (SimpleLRUCache.cache (userMessageInfo s));
  count <$> objects s !! ref.

(** [formatTimeRemaining], [getLimitReachedMessage],
    [getNotificationMessage], lines 155-182. *)
Definition formatTimeRemaining (milliseconds : Z) : jsstring :=
  let hours := milliseconds `div` (1000 * 60 * 60) in
  js (pretty hours) ++ js " hora" ++ (if hours =? 1 then [] else js "s").

Definition getLimitReachedMessage (timeUntilReset : Z) : jsstring :=
  js "Haz alcanzado el limite de mensajes. Por favor regresa en " ++
  formatTimeRemaining timeUntilReset ++
  js " para continuar ayudandote. Esperamos verte pronto!".

Definition getNotificationMessage : jsstring :=
  js "Debido a que es un servicio gratuito actualmente tenemos un limite de 20 mensajes por cada 24-horas. Haz usado 15 mensajes, te quedan 5 interacciones en este periodo.".

Definition error_notice : jsstring :=
  js "Una disculpa, ocurrio un error mientras procesaba tu mensaje. Por favor intentalo nuevamente.".

(** The clean-up of one chunk, lines 209-213. *)
Definition clean_chunk (chunk : jsstring) : jsstring :=
  strip_bullets (collapse_stars (strip_lenticular (trim chunk))).

(** Lines 207-216: the bodies that a non-empty [response] is sent as. *)
Definition fragments (response : jsstring) : list jsstring :=
  clean_chunk <$> split_blank response.

Definition at_ (a : Await) (wk : Worker) : Worker :=
  {| w_user := w_user wk; w_info := w_info wk; w_queue := w_queue wk;
     w_timer := w_timer wk; w_spawn := w_spawn wk; w_task := w_task wk;
     w_at := a |}.

(** The [while (queue.length > 0)] loop of [handleQueue], lines 247-262,
    entered at its test. *)
Definition loop (u : string) (info q timer spawn : nat) (s : St)
    : St * option Worker :=
  match arrays s !! q with
  | Some (task :: rest) =>
      let s := update info (set_processing true) s in
      let s := set_arrays (<[q := rest]> (arrays s)) s in
      let s := emit (Typing (t_from task) (ByTask (t_id task))) s in
      (s, Some {| w_user := u; w_info := info; w_queue := q;
                  w_timer := timer; w_spawn := spawn; w_task := task;
                  w_at := AwaitTyping |})
  | _ =>
      let s := emit (ClearInterval timer u)
                 (set_intervals (delete timer (intervals s)) s) in
      let a := length (arrays s) in
      let s := set_arrays (arrays s ++ [[]]) s in
      let s := update info (set_queue a) s in
      (cache_set u info s, None)
  end.

(** [handleQueue(userId, ctx, provider)], lines 236-246, called by the
    [welcomeFlow] of message [spawn].  [welcomeFlow] calls it right after
    reading the object of [userId] from the cache, so the [get] finds
    it. *)
Definition handleQueue (u : string) (spawn : nat) (s : St) : St :=
  let '(found, s) := cache_get u s in
  match found with
  | None => s
  | Some info =>
      match objects s !! info with
      | None => s
      | Some userInfo =>
          if processing userInfo then s
          else
            let t := next_timer s in
            let s := emit (SetInterval t u)
                       (set_next_timer (S t)
                          (set_intervals (<[t := u]> (intervals s)) s)) in
            match loop u info (queue userInfo) t spawn s with
            | (s, Some wk) => set_workers (<[spawn := wk]> (workers s)) s
            | (s, None) => s
            end
      end
  end.

(** The [finally] of [handleQueue] and the next test of its loop. *)
Definition finish (w : nat) (wk : Worker) (s : St) : St :=
  let s := update (w_info wk) (set_processing false) s in
  match loop (w_user wk) (w_info wk) (w_queue wk) (w_timer wk) (w_spawn wk) s
  with
  | (s, Some wk') => set_workers (<[w := wk']> (workers s)) s
  | (s, None) => set_workers (delete w (workers s)) s
  end.

Definition send_next (w : nat) (wk : Worker) (chunks : list jsstring) (s : St)
    : St :=
  match chunks with
  | [] => finish w wk s
  | c :: rest =>
      set_workers (<[w := at_ (AwaitSend rest) wk]> (workers s))
        (emit (Send (t_id (w_task wk)) (t_from (w_task wk)) c) s)
  end.

(** The [catch] of [processUserMessage], lines 219-222. *)
Definition recover (w : nat) (wk : Worker) (s : St) : St :=
  set_workers (<[w := at_ AwaitNotice wk]> (workers s))
    (emit (Send (t_id (w_task wk)) (t_from (w_task wk)) error_notice)
       (emit (ConsoleError (t_from (w_task wk))) s)).

(** The promise that activation [w] awaits settles. *)
Definition settle (w : nat) (r : Outcome) (s : St) : St :=
  match workers s !! w with
  | None => s
  | Some wk =>
      match w_at wk, r with
      | AwaitTyping, Fulfilled _ =>
          set_workers (<[w := at_ AwaitAsk wk]> (workers s))
            (emit (Ask (t_id (w_task wk)) (t_from (w_task wk))
                     (t_body (w_task wk))) s)
      | AwaitAsk, Fulfilled response =>
          match response with
          | [] => recover w wk s
          | _ :: _ => send_next w wk (fragments response) s
          end
      | AwaitSend rest, Fulfilled _ => send_next w wk rest s
      | (AwaitTyping | AwaitAsk | AwaitSend _), Rejected => recover w wk s
      | AwaitNotice, Fulfilled _ => finish w wk s
      | AwaitNotice, Rejected =>
          (* the [catch] of [handleQueue], lines 252-254 *)
          set_workers (<[w := at_ AwaitNotice2 wk]> (workers s))
            (emit (Send (t_id (w_task wk)) (t_from (w_task wk)) error_notice)
               (emit (ConsoleError (w_user wk)) s))
      | AwaitNotice2, Fulfilled _ => finish w wk s
      | AwaitNotice2, Rejected =>
          (* the [finally] runs, the error leaves [handleQueue] and reaches
             the [catch] of [welcomeFlow], lines 304-307 *)
          let s := update (w_info wk) (set_processing false) s in
          let s := set_workers (delete w (workers s)) s in
          emit (Notice (w_spawn wk) (w_user wk) error_notice)
            (emit (ConsoleError (w_user wk)) s)
      end
  end.

(** Lines 285-303 of [welcomeFlow]: store the task and start the drain. *)
Definition enqueue (task : Task) (rate_count : Z) (now : Z) (s : St) : St :=
  let userId := t_from task in
  let s :=
    if SimpleLRUCache.has userId (userMessageInfo s) then s
    else let '(ref, s) := new_info rate_count now s in cache_set userId ref s in
  let '(found, s) := cache_get userId s in
  match found with
  | None => s
  | Some ref =>
      match objects s !! ref with
      | None => s
      | Some userInfo =>
          let q := queue userInfo in
          let items := default [] (arrays s !! q) ++ [task] in
          let s := set_arrays (<[q := items]> (arrays s)) s in
          if negb (processing userInfo) && (length items =? 1)%nat
          then handleQueue userId (t_id task) s else s
      end
  end.

(** The action of [welcomeFlow], lines 267-283, up to its first [await]. *)
Definition welcomeFlow (from : string) (body : jsstring) (now : Z) (s : St)
    : St :=
  let id := next_id s in
  let s := set_next_id (S id) s in
  let task := {| t_id := id; t_from := from; t_body := body |} in
  let '(s, r) := rateLimitUser from now s in
  if negb (allowed r) then
    emit (Notice id from (getLimitReachedMessage (timeUntilReset r))) s
  else if result_count r =? NOTIFICATION_THRESHOLD then
    set_pending (<[id := {| p_task := task; p_count := result_count r |}]>
                   (pending s))
      (emit (Notice id from getNotificationMessage) s)
  else enqueue task (result_count r) now s.

(** The near-limit notice of a suspended [welcomeFlow] settles. *)
Definition settle_welcome (p : nat) (r : Outcome) (now : Z) (s : St) : St :=
  match pending s !! p with
  | None => s
  | Some pd =>
      let s := set_pending (delete p (pending s)) s in
      match r with
      | Fulfilled _ => enqueue (p_task pd) (p_count pd) now s
      | Rejected =>
          emit (Notice (t_id (p_task pd)) (t_from (p_task pd)) error_notice)
            (emit (ConsoleError (t_from (p_task pd))) s)
      end
  end.

Definition tick (t : nat) (s : St) : St :=
  match intervals s !! t with
  | Some u => emit (Typing u (ByTimer t)) s
  | None => s
  end.

Definition step (s : St) (e : Event) : St :=
  match e with
  | Message from body now => welcomeFlow from body now s
  | Settle w r => settle w r s
  | SettleWelcome p r now => settle_welcome p r now s
  | Tick t => tick t s
  end.

Definition run (evs : list Event) : St := foldl step init evs.

(** Completion calls in flight for [u]. *)
Definition asks_in_flight (u : string) (s : St) : nat :=
  size (filter (fun kw => w_user kw.2 = u ∧ w_at kw.2 = AwaitAsk)
               (workers s)).

End Part001.

(** ** Invariants used by the proofs *)

Module Invariants.

Section LruInv.
Context {K V : Type} `{EqDecision K}.

(** What every cache built from [new cap] by a history [ops] satisfies:
    unique keys, at most [cap] of them, listed from the least to the most
    recently touched. *)
Definition lru_inv (cap : nat) (ops : list (SimpleLRUCache.op K V))
    (c : SimpleLRUCache.t K V) : Prop :=
  SimpleLRUCache.capacity c = cap ∧
  NoDup (SimpleLRUCache.keys c) ∧
  (SimpleLRUCache.size c ≤ cap)%nat ∧
  StronglySorted (SimpleLRUCache.older ops) (SimpleLRUCache.keys c) ∧
  Forall (fun k => is_Some (SimpleLRUCache.last_touch ops k))
         (SimpleLRUCache.keys c).

End LruInv.

Section BotInv.
Variable V : Bot.Variant.
Implicit Types (s : Bot.St V) (u : string).

(** Starts ([true]) and stops ([false]) of the typing interval of [u],
    with the timer they name, oldest first. *)
Definition beats (u : string) (l : list Bot.Action) : list (bool * nat) :=
  omap (fun a => match a with
                 | Bot.SetInterval t u' =>
                     if decide (u' = u) then Some (true, t) else None
                 | Bot.ClearInterval t u' =>
                     if decide (u' = u) then Some (false, t) else None
                 | _ => None
                 end) l.


(** [Sessions h o]: the history [h] of starts and stops is made of
    sessions, each one start followed by one stop of the same timer; the
    last session is still open, on timer [t], when [o = Some t]. *)
Inductive Sessions : list (bool * nat) -> option nat -> Prop :=
| Sessions_nil : Sessions [] None
| Sessions_start (h : list (bool * nat)) (t : nat) :
    Sessions h None -> Sessions (h ++ [(true, t)]) (Some t)
| Sessions_stop (h : list (bool * nat)) (t : nat) :
    Sessions h (Some t) -> Sessions (h ++ [(false, t)]) None.

(** Actions that are neither an answer fragment nor a start or stop of a
    typing interval. *)
Definition quiet (a : Bot.Action) : Prop :=
  match a with
  | Bot.Send _ _ _ | Bot.SetInterval _ _ | Bot.ClearInterval _ _ => False
  | _ => True
  end.

(** [u] has a suspended activation of [handleQueue]. *)
Definition draining (u : string) (s : Bot.St V) : Prop :=
  ∃ w wk, Bot.workers V s !! w = Some wk ∧ Bot.w_user wk = u.

(** The state that activation [w] leaves when its loop ends. *)
Definition ended (w : nat) (wk : Bot.Worker) (s : Bot.St V) : Bot.St V :=
  let s1 :=
    match Bot.w_timer wk with
    | Some t => Bot.emit V (Bot.ClearInterval t (Bot.w_user wk))
                  (Bot.set_intervals V (delete t (Bot.intervals V s)) s)
    | None => s
    end in
  Bot.set_workers V (delete w (Bot.workers V s))
    (Bot.set_userQueues V (delete (Bot.w_user wk) (Bot.userQueues V s))
       (Bot.set_userLocks V (delete (Bot.w_user wk) (Bot.userLocks V s)) s1)).


(** The state after [welcomeFlow] has pushed the message numbered
    [next_id s] on the queue [q] that its sender already has. *)
Definition pushed (a : Bot.adm_state V) (from : string) (body : list N)
    (q : nat) (s : Bot.St V) : Bot.St V :=
  Bot.set_heap V
    (<[q := default [] (Bot.heap V s !! q) ++
            [{| Bot.t_id := Bot.next_id V s; Bot.t_from := from;
                Bot.t_body := body |}]]> (Bot.heap V s))
    (Bot.set_adm V a (Bot.set_next_id V (S (Bot.next_id V s)) s)).

(** The activation that the message numbered [next_id s] starts. *)
Definition spawn_worker (from : string) (body : list N) (s : Bot.St V)
    : Bot.Worker :=
  {| Bot.w_user := from;
     Bot.w_queue := length (Bot.heap V s);
     Bot.w_timer := if Bot.heartbeat V then Some (Bot.next_timer V s) else None;
     Bot.w_task := {| Bot.t_id := Bot.next_id V s; Bot.t_from := from;
                      Bot.t_body := body |};
     Bot.w_at := Bot.AwaitTyping |}.

(** The state after [welcomeFlow] has made a queue for its sender, pushed
    the message numbered [next_id s] and called [handleQueue], which runs
    up to the first [await] of [processUserMessage]. *)
Definition spawned (a : Bot.adm_state V) (from : string) (body : list N)
    (s : Bot.St V) : Bot.St V :=
  Bot.mkSt V a
    (<[from := length (Bot.heap V s)]> (Bot.userQueues V s))
    (<[from := true]> (Bot.userLocks V s))
    (Bot.heap V s ++ [[]])
    (<[Bot.next_id V s := spawn_worker from body s]> (Bot.workers V s))
    (if Bot.heartbeat V
     then <[Bot.next_timer V s := from]> (Bot.intervals V s)
     else Bot.intervals V s)
    (if Bot.heartbeat V then S (Bot.next_timer V s) else Bot.next_timer V s)
    (S (Bot.next_id V s))
    (Bot.log V s ++
     (if Bot.heartbeat V
      then [Bot.SetInterval (Bot.next_timer V s) from] else []) ++
     [Bot.Typing from (Bot.ByTask (Bot.next_id V s))]).

Record bot_inv (s : Bot.St V) : Prop := {
  inv_one : ∀ w1 w2 wk1 wk2,
    Bot.workers V s !! w1 = Some wk1 → Bot.workers V s !! w2 = Some wk2 →
    Bot.w_user wk1 = Bot.w_user wk2 → w1 = w2;
  inv_key : ∀ w wk,
    Bot.workers V s !! w = Some wk → (w < Bot.next_id V s)%nat;
  inv_worker_queue : ∀ w wk,
    Bot.workers V s !! w = Some wk →
    Bot.userQueues V s !! Bot.w_user wk = Some (Bot.w_queue wk);
  inv_worker_lock : ∀ w wk,
    Bot.workers V s !! w = Some wk →
    Bot.userLocks V s !! Bot.w_user wk = Some true;
  inv_queue_valid : ∀ u q,
    Bot.userQueues V s !! u = Some q → (q < length (Bot.heap V s))%nat;
  inv_queue_inj : ∀ u1 u2 q,
    Bot.userQueues V s !! u1 = Some q → Bot.userQueues V s !! u2 = Some q →
    u1 = u2;
  inv_queue_owner : ∀ u q,
    Bot.userQueues V s !! u = Some q → draining u s;
  inv_lock_owner : ∀ u b,
    Bot.userLocks V s !! u = Some b → draining u s;
  inv_timer_worker : ∀ w wk,
    Bot.workers V s !! w = Some wk →
    match Bot.w_timer wk with
    | Some t => Bot.heartbeat V = true ∧
                Bot.intervals V s !! t = Some (Bot.w_user wk)
    | None => Bot.heartbeat V = false
    end;
  inv_timer_owner : ∀ t u,
    Bot.intervals V s !! t = Some u →
    (t < Bot.next_timer V s)%nat ∧
    ∃ w wk, Bot.workers V s !! w = Some wk ∧ Bot.w_user wk = u ∧
            Bot.w_timer wk = Some t;
  inv_order : ∀ w wk tasks,
    Bot.workers V s !! w = Some wk →
    Bot.heap V s !! Bot.w_queue wk = Some tasks →
    StronglySorted lt (Bot.t_id <$> (Bot.w_task wk :: tasks)) ∧
    Forall (fun t => (Bot.t_id t < Bot.next_id V s)%nat ∧
                     Bot.t_from t = Bot.w_user wk)
           (Bot.w_task wk :: tasks);
  inv_sent_fresh : ∀ u,
    Forall (fun i => (i < Bot.next_id V s)%nat)
           (Bot.sent_ids u (Bot.log V s));
  inv_sent_sorted : ∀ u,
    StronglySorted le (Bot.sent_ids u (Bot.log V s));
  inv_sent_worker : ∀ w wk,
    Bot.workers V s !! w = Some wk →
    Forall (fun i => (i ≤ Bot.t_id (Bot.w_task wk))%nat)
           (Bot.sent_ids (Bot.w_user wk) (Bot.log V s));
  inv_sessions_idle : ∀ u,
    ¬ draining u s → Sessions (beats u (Bot.log V s)) None;
  inv_sessions_open : ∀ w wk,
    Bot.workers V s !! w = Some wk →
    Sessions (beats (Bot.w_user wk) (Bot.log V s)) (Bot.w_timer wk) }.

End BotInv.

End Invariants.

(** ** Scenarios: messages passing the checks, and a queue being drained *)

Module Scripts.
Import JsText Bot.

Section Scripts.
Variable V : Variant.

(** Messages [(sender, arrival time)] passing the checks of [welcomeFlow]
    one after the other: the stores they leave, and what [userId] was
    told. *)
Definition after (s : adm_state V) (ms : list (string * Z)) : adm_state V :=
  foldl (fun s m => (admission V s m.1 m.2).1) s ms.

Fixpoint verdicts_of (userId : string) (s : adm_state V)
    (ms : list (string * Z)) : list Verdict :=
  match ms with
  | [] => []
  | (v, t) :: r =>
      if decide (v = userId)
      then (admission V s v t).2 :: verdicts_of userId (admission V s v t).1 r
      else verdicts_of userId (admission V s v t).1 r
  end.

Definition times_of (userId : string) (ms : list (string * Z)) : list Z :=
  snd <$> filter (fun m => m.1 = userId) ms.

(** What the completion call of a task comes to. *)
Inductive Reply := Answer (response : jsstring) | Failure.

(** The promises that activation [w] awaits for one task, settling in
    turn: the typing call, the completion call and, after an answer, the
    send of each fragment. *)
Definition task_events (w : nat) (r : Reply) : list Event :=
  Settle w (Fulfilled []) ::
  match r with
  | Answer v =>
      Settle w (Fulfilled v) ::
      replicate (length (fragments V v)) (Settle w (Fulfilled []))
  | Failure => [Settle w Rejected]
  end.

Definition drain_events (w : nat) (rs : list Reply) : list Event :=
  rs ≫= task_events w.

(** What is expected of the log for one task of the activation of [u]. *)
Definition task_log (u : string) (t : Task) (r : Reply) : list Action :=
  Ask (t_id t) (t_from t) (t_body t) ::
  match r with
  | Answer v => Send (t_id t) (t_from t) <$> fragments V v
  | Failure => [ConsoleError u]
  end.

(** And for the task in hand followed by the queued ones. *)
Fixpoint drain_log (u : string) (timer : option nat) (t : Task)
    (ts : list Task) (rs : list Reply) : list Action :=
  match rs with
  | [] => []
  | r :: rs' =>
      task_log u t r ++
      match ts with
      | t' :: ts' =>
          Typing (t_from t') (ByTask (t_id t')) :: drain_log u timer t' ts' rs'
      | [] =>
          match timer with
          | Some tm => [ClearInterval tm u]
          | None => []
          end
      end
  end.

End Scripts.
End Scripts.

(** ** Completion calls in the log *)

Module AskOrder.
Import Bot.

(** Arrival numbers of the messages of [u] passed to the completion
    service, oldest first. *)
Definition ask_ids (u : string) (l : list Action) : list nat :=
  omap (fun a => match a with
                 | Ask id u' _ => if decide (u' = u) then Some id else None
                 | _ => None
                 end) l.

(** Actions other than a completion call. *)
Definition not_ask (a : Action) : Prop :=
  match a with Ask _ _ _ => False | _ => True end.

Record ask_inv (V : Variant) (s : St V) : Prop := {
  ask_sorted : ∀ u, StronglySorted lt (ask_ids u (log V s));
  ask_fresh : ∀ u,
    Forall (fun i => (i < next_id V s)%nat) (ask_ids u (log V s));
  ask_worker : ∀ w wk,
    workers V s !! w = Some wk →
    Forall (fun i => if decide (w_at wk = AwaitTyping)
                     then (i < t_id (w_task wk))%nat
                     else (i ≤ t_id (w_task wk))%nat)
           (ask_ids (w_user wk) (log V s)) }.

End AskOrder.

(** * Part II: theorems *)

Import Invariants.

(* ===================================================================== *)
(** * Part II: theorems                                                    *)
(* ===================================================================== *)

(** ** Lists *)

Section ListFacts.
Context {A : Type}.

Lemma StronglySorted_sublist_of (R : relation A) (l1 l2 : list A) :
  l1 `sublist_of` l2 → StronglySorted R l2 → StronglySorted R l1.
Proof.
  induction 1 as [|x l1 l2 Hsub IH|x l1 l2 Hsub IH]; intros Hs.
  - constructor.
  - apply StronglySorted_cons in Hs as [Hall Hs].
    apply StronglySorted_cons. split; [|auto].
    rewrite Forall_forall in Hall |- *. intros y Hy.
    apply Hall. by eapply elem_of_sublist.
  - apply StronglySorted_cons in Hs as [_ Hs]. auto.
Qed.

Lemma StronglySorted_weaken (R R' : relation A) (l : list A) :
  (∀ x y, x ∈ l → y ∈ l → R x y → R' x y) →
  StronglySorted R l → StronglySorted R' l.
Proof.
  induction l as [|a l IH]; intros HR Hs; [constructor|].
  apply StronglySorted_cons in Hs as [Hall Hs].
  apply StronglySorted_cons. split.
  - rewrite Forall_forall in Hall |- *. intros y Hy.
    apply HR; [left|by right|by apply Hall].
  - apply IH; [|done]. intros x y Hx Hy. apply HR; by right.
Qed.

Lemma StronglySorted_snoc (R : relation A) (l : list A) (x : A) :
  StronglySorted R l → Forall (fun y => R y x) l → StronglySorted R (l ++ [x]).
Proof.
  intros Hs Hall. apply StronglySorted_app. split_and!.
  - intros x1 x2 H1 H2. apply list_elem_of_singleton in H2 as ->.
    rewrite Forall_forall in Hall. by apply Hall.
  - done.
  - repeat constructor.
Qed.

End ListFacts.

(** ** The insertion-ordered map and the LRU cache *)

Section LruFacts.
Context {K V : Type} `{EqDecision K}.
Implicit Types (m : list (K * V)) (k : K) (v : V).
Implicit Types (c : SimpleLRUCache.t K V) (o : SimpleLRUCache.op K V).
Implicit Types (ops : list (SimpleLRUCache.op K V)).

Lemma jsmap_get_None k m : JsMap.get k m = None ↔ k ∉ JsMap.keys m.
Proof.
  unfold JsMap.keys. induction m as [|[k' v'] m IH]; simpl.
  - split; [intros _; apply not_elem_of_nil|done].
  - rewrite not_elem_of_cons. destruct (decide (k = k')); naive_solver.
Qed.

Lemma jsmap_has_true k m : JsMap.has k m = true ↔ k ∈ JsMap.keys m.
Proof.
  unfold JsMap.has. destruct (JsMap.get k m) eqn:E.
  - split; [intros _|done]. destruct (decide (k ∈ JsMap.keys m)); [done|].
    apply jsmap_get_None in n. congruence.
  - apply jsmap_get_None in E. split; [done|]. intros; contradiction.
Qed.

Lemma jsmap_has_false k m : JsMap.has k m = false ↔ k ∉ JsMap.keys m.
Proof. rewrite <- jsmap_has_true. destruct (JsMap.has k m); naive_solver. Qed.

Lemma jsmap_set_fresh k v m :
  k ∉ JsMap.keys m → JsMap.set k v m = m ++ [(k, v)].
Proof.
  unfold JsMap.keys. induction m as [|[k' v'] m IH]; simpl; [done|].
  rewrite not_elem_of_cons. intros [Hne Hnot].
  destruct (decide (k = k')); [done|]. by rewrite IH.
Qed.

Lemma jsmap_keys_delete_sublist k m :
  JsMap.keys (JsMap.delete k m) `sublist_of` JsMap.keys m.
Proof.
  unfold JsMap.keys. induction m as [|[k' v'] m IH]; simpl; [done|].
  destruct (decide (k = k')); simpl.
  - by apply sublist_cons.
  - by apply sublist_skip.
Qed.

Lemma jsmap_delete_notin k m :
  NoDup (JsMap.keys m) → k ∉ JsMap.keys (JsMap.delete k m).
Proof.
  unfold JsMap.keys. induction m as [|[k' v'] m IH]; simpl.
  - intros _. apply not_elem_of_nil.
  - rewrite NoDup_cons. intros [Hnot Hnd].
    destruct (decide (k = k')) as [->|Hne]; [done|].
    simpl. rewrite not_elem_of_cons. auto.
Qed.

Lemma jsmap_delete_other k k' m :
  k' ≠ k → k' ∈ JsMap.keys m → k' ∈ JsMap.keys (JsMap.delete k m).
Proof.
  unfold JsMap.keys. intros Hne. induction m as [|[k2 v2] m IH]; simpl; [done|].
  rewrite elem_of_cons. intros [->|Hin].
  - destruct (decide (k = k2)); [congruence|]. simpl. left.
  - destruct (decide (k = k2)); [done|]. simpl. right. auto.
Qed.

Lemma jsmap_delete_length k m :
  k ∈ JsMap.keys m → S (length (JsMap.delete k m)) = length m.
Proof.
  unfold JsMap.keys. induction m as [|[k2 v2] m IH]; simpl.
  - intros Hin. by apply elem_of_nil in Hin.
  - rewrite elem_of_cons. destruct (decide (k = k2)); [done|].
    intros [?|Hin]; [done|]. simpl. by rewrite IH.
Qed.

Lemma jsmap_keys_snoc k v m : JsMap.keys (m ++ [(k, v)]) = JsMap.keys m ++ [k].
Proof. unfold JsMap.keys. by rewrite fmap_app. Qed.

(** Moving a present key to the most recent end. *)
Lemma jsmap_refresh k v m :
  NoDup (JsMap.keys m) →
  JsMap.set k v (JsMap.delete k m) = JsMap.delete k m ++ [(k, v)].
Proof. intros Hnd. apply jsmap_set_fresh. by apply jsmap_delete_notin. Qed.

Lemma last_touch_from_snoc i ops o k :
  SimpleLRUCache.last_touch_from i (ops ++ [o]) k =
  if SimpleLRUCache.touches k o then Some (i + length ops)%nat
  else SimpleLRUCache.last_touch_from i ops k.
Proof.
  revert i. induction ops as [|o' ops IH]; intros i; simpl.
  - rewrite Nat.add_0_r. by destruct (SimpleLRUCache.touches k o).
  - rewrite IH. destruct (SimpleLRUCache.touches k o); [|done].
    f_equal. lia.
Qed.

Lemma last_touch_from_bound i ops k j :
  SimpleLRUCache.last_touch_from i ops k = Some j →
  (i ≤ j < i + length ops)%nat.
Proof.
  revert i. induction ops as [|o' ops IH]; intros i; simpl; [done|].
  destruct (SimpleLRUCache.last_touch_from (S i) ops k) eqn:E.
  - intros [= <-]. apply IH in E. lia.
  - destruct (SimpleLRUCache.touches k o'); [|done]. intros [= <-]. lia.
Qed.

Lemma last_touch_snoc ops o k :
  SimpleLRUCache.last_touch (ops ++ [o]) k =
  if SimpleLRUCache.touches k o then Some (length ops)
  else SimpleLRUCache.last_touch ops k.
Proof. unfold SimpleLRUCache.last_touch. by rewrite last_touch_from_snoc. Qed.

Lemma older_snoc_untouched ops o k1 k2 :
  SimpleLRUCache.touches k1 o = false →
  SimpleLRUCache.touches k2 o = false →
  SimpleLRUCache.older ops k1 k2 →
  SimpleLRUCache.older (ops ++ [o]) k1 k2.
Proof.
  unfold SimpleLRUCache.older. rewrite !last_touch_snoc. by intros -> ->.
Qed.

Lemma older_snoc_touched ops o k1 k2 :
  SimpleLRUCache.touches k1 o = false →
  SimpleLRUCache.touches k2 o = true →
  is_Some (SimpleLRUCache.last_touch ops k1) →
  SimpleLRUCache.older (ops ++ [o]) k1 k2.
Proof.
  unfold SimpleLRUCache.older. rewrite !last_touch_snoc.
  intros -> -> [i Hi]. rewrite Hi.
  apply last_touch_from_bound in Hi. lia.
Qed.

Lemma lru_inv_new cap :
  lru_inv cap [] (SimpleLRUCache.new (K:=K) (V:=V) cap).
Proof.
  unfold lru_inv. simpl. split_and!; try done; try constructor.
  unfold SimpleLRUCache.size. simpl. lia.
Qed.

(** A call that leaves the map alone and touches none of its keys. *)
Lemma lru_inv_idle cap ops o c :
  (∀ k, k ∈ SimpleLRUCache.keys c → SimpleLRUCache.touches k o = false) →
  lru_inv cap ops c → lru_inv cap (ops ++ [o]) c.
Proof.
  intros Hun (Hcap & Hnd & Hsz & Hsort & Hsome).
  split_and!; try done.
  - eapply StronglySorted_weaken; [|done].
    intros x y Hx Hy. apply older_snoc_untouched; auto.
  - rewrite Forall_forall in Hsome |- *. intros k Hk.
    rewrite last_touch_snoc, (Hun k Hk). auto.
Qed.

(** A call that touches [k] and leaves the map as [m'] followed by [k],
    where [m'] keeps some of the old keys. *)
Lemma lru_inv_touch cap ops o c k v m' :
  SimpleLRUCache.touches k o = true →
  (∀ k', k' ∈ JsMap.keys m' → SimpleLRUCache.touches k' o = false) →
  JsMap.keys m' `sublist_of` SimpleLRUCache.keys c →
  k ∉ JsMap.keys m' →
  (S (length m') ≤ cap)%nat →
  lru_inv cap ops c →
  lru_inv cap (ops ++ [o]) (SimpleLRUCache.mk (m' ++ [(k, v)]) cap).
Proof.
  intros Hk Hun Hsub Hnot Hlen (Hcap & Hnd & Hsz & Hsort & Hsome).
  unfold lru_inv, SimpleLRUCache.keys, SimpleLRUCache.size, JsMap.size.
  simpl. rewrite jsmap_keys_snoc, length_app. simpl.
  assert (Hsome' : ∀ k', k' ∈ JsMap.keys m' →
            is_Some (SimpleLRUCache.last_touch ops k')).
  { intros k' Hk'. rewrite Forall_forall in Hsome. apply Hsome.
    by eapply elem_of_sublist. }
  split_and!.
  - done.
  - apply NoDup_app. split_and!.
    + by eapply sublist_NoDup.
    + intros x Hx Hx'. apply list_elem_of_singleton in Hx' as ->. done.
    + apply NoDup_singleton.
  - lia.
  - apply StronglySorted_snoc.
    + eapply StronglySorted_weaken;
        [|by eapply StronglySorted_sublist_of].
      intros x y Hx Hy. apply older_snoc_untouched; auto.
    + rewrite Forall_forall. intros y Hy.
      apply older_snoc_touched; auto.
  - rewrite Forall_app, Forall_singleton. split.
    + rewrite Forall_forall. intros k' Hk'.
      rewrite last_touch_snoc, (Hun k' Hk'). auto.
    + rewrite last_touch_snoc, Hk. eauto.
Qed.

Lemma touches_other_get k k' :
  k' ≠ k → SimpleLRUCache.touches (V:=V) k' (SimpleLRUCache.OpGet k) = false.
Proof. intros. simpl. by rewrite bool_decide_eq_false. Qed.

Lemma touches_other_set k k' v :
  k' ≠ k → SimpleLRUCache.touches k' (SimpleLRUCache.OpSet k v) = false.
Proof. intros. simpl. by rewrite bool_decide_eq_false. Qed.

Lemma touches_self_set k v :
  SimpleLRUCache.touches k (SimpleLRUCache.OpSet k v) = true.
Proof. simpl. by rewrite bool_decide_eq_true. Qed.

(** What [set] does to the map, case by case. *)
Lemma lru_set_present k v c :
  NoDup (SimpleLRUCache.keys c) → k ∈ SimpleLRUCache.keys c →
  SimpleLRUCache.set k v c =
  SimpleLRUCache.mk (JsMap.delete k (SimpleLRUCache.cache c) ++ [(k, v)])
                    (SimpleLRUCache.capacity c).
Proof.
  intros Hnd Hin. unfold SimpleLRUCache.set.
  apply jsmap_has_true in Hin. rewrite Hin. by rewrite jsmap_refresh.
Qed.

Lemma lru_set_room k v c :
  k ∉ SimpleLRUCache.keys c →
  (SimpleLRUCache.size c < SimpleLRUCache.capacity c)%nat →
  SimpleLRUCache.set k v c =
  SimpleLRUCache.mk (SimpleLRUCache.cache c ++ [(k, v)])
                    (SimpleLRUCache.capacity c).
Proof.
  intros Hnot Hlt. unfold SimpleLRUCache.set.
  pose proof Hnot as Hf. apply jsmap_has_false in Hf. rewrite Hf.
  unfold SimpleLRUCache.size in Hlt.
  destruct (Nat.leb_spec (SimpleLRUCache.capacity c)
              (JsMap.size (SimpleLRUCache.cache c))); [lia|].
  by rewrite jsmap_set_fresh.
Qed.

Lemma lru_set_full k v c :
  NoDup (SimpleLRUCache.keys c) →
  k ∉ SimpleLRUCache.keys c →
  (SimpleLRUCache.capacity c ≤ SimpleLRUCache.size c)%nat →
  (0 < SimpleLRUCache.size c)%nat →
  SimpleLRUCache.set k v c =
  SimpleLRUCache.mk (tail (SimpleLRUCache.cache c) ++ [(k, v)])
                    (SimpleLRUCache.capacity c).
Proof.
  intros Hnd Hnot Hle Hpos. unfold SimpleLRUCache.set.
  pose proof Hnot as Hf. apply jsmap_has_false in Hf. rewrite Hf.
  unfold SimpleLRUCache.size, SimpleLRUCache.keys in *.
  destruct (Nat.leb_spec (SimpleLRUCache.capacity c)
              (JsMap.size (SimpleLRUCache.cache c))); [|lia].
  destruct (SimpleLRUCache.cache c) as [|[fk fv] r] eqn:Ec.
  { simpl in Hpos. lia. }
  simpl. rewrite decide_True by done.
  rewrite jsmap_set_fresh; [done|].
  intros Hin. apply Hnot. unfold JsMap.keys in *. simpl. by right.
Qed.

Lemma lru_inv_step cap ops o c :
  (1 ≤ cap)%nat →
  lru_inv cap ops c → lru_inv cap (ops ++ [o]) (SimpleLRUCache.apply_op o c).
Proof.
  intros Hcap1 Hinv. pose proof Hinv as (Hcap & Hnd & Hsz & Hsort & Hsome).
  unfold SimpleLRUCache.size, JsMap.size in Hsz.
  destruct o as [k|k v|k]; simpl.
  - (* get *)
    unfold SimpleLRUCache.get.
    destruct (JsMap.has k (SimpleLRUCache.cache c)) eqn:Hhas.
    + destruct (JsMap.get k (SimpleLRUCache.cache c)) as [value|] eqn:Hget;
        simpl.
      * apply jsmap_has_true in Hhas.
        rewrite jsmap_refresh by done. rewrite Hcap.
        apply lru_inv_touch with (c := c); [| | | | |done].
        -- simpl. by rewrite bool_decide_eq_true.
        -- intros k' Hk'. apply touches_other_get. intros ->.
           by apply (jsmap_delete_notin k (SimpleLRUCache.cache c)).
        -- apply jsmap_keys_delete_sublist.
        -- by apply jsmap_delete_notin.
        -- rewrite jsmap_delete_length by done. lia.
      * unfold JsMap.has in Hhas. by rewrite Hget in Hhas.
    + simpl. apply lru_inv_idle; [|done].
      intros k' Hk'. apply touches_other_get. intros ->.
      apply jsmap_has_false in Hhas. done.
  - (* set *)
    destruct (decide (k ∈ SimpleLRUCache.keys c)) as [Hin|Hnot].
    + rewrite lru_set_present by done. rewrite Hcap.
      apply lru_inv_touch with (c := c); [| | | | |done].
      * apply touches_self_set.
      * intros k' Hk'. apply touches_other_set. intros ->.
        by apply (jsmap_delete_notin k (SimpleLRUCache.cache c)).
      * apply jsmap_keys_delete_sublist.
      * by apply jsmap_delete_notin.
      * rewrite jsmap_delete_length by done. lia.
    + destruct (decide (length (SimpleLRUCache.cache c) < cap)%nat)
        as [Hlt|Hge].
      * rewrite lru_set_room
          by (done || unfold SimpleLRUCache.size, JsMap.size; lia).
        rewrite Hcap.
        apply lru_inv_touch with (c := c); [| | | | |done].
        -- apply touches_self_set.
        -- intros k' Hk'. apply touches_other_set. by intros ->.
        -- done.
        -- done.
        -- lia.
      * rewrite lru_set_full
          by (done || unfold SimpleLRUCache.size, JsMap.size; lia).
        rewrite Hcap.
        assert (Hsub : JsMap.keys (tail (SimpleLRUCache.cache c))
                         `sublist_of` SimpleLRUCache.keys c).
        { unfold SimpleLRUCache.keys, JsMap.keys.
          destruct (SimpleLRUCache.cache c); simpl; [done|].
          by apply sublist_cons. }
        apply lru_inv_touch with (c := c); [| | | | |done].
        -- apply touches_self_set.
        -- intros k' Hk'. apply touches_other_set. intros ->.
           apply Hnot. by eapply elem_of_sublist.
        -- done.
        -- intros Hin. apply Hnot. by eapply elem_of_sublist.
        -- destruct (SimpleLRUCache.cache c); simpl in *; lia.
  - (* has *)
    apply lru_inv_idle; done.
Qed.

Lemma run_ops_snoc ops o c :
  SimpleLRUCache.run_ops (ops ++ [o]) c =
  SimpleLRUCache.apply_op o (SimpleLRUCache.run_ops ops c).
Proof. unfold SimpleLRUCache.run_ops. by rewrite foldl_app. Qed.

Lemma lru_inv_run cap ops :
  (1 ≤ cap)%nat →
  lru_inv cap ops (SimpleLRUCache.run_ops ops (SimpleLRUCache.new cap)).
Proof.
  intros Hcap. induction ops as [|o ops IH] using rev_ind.
  - apply lru_inv_new.
  - rewrite run_ops_snoc. by apply lru_inv_step.
Qed.

(** C8. For every history of get/set/has calls on a [SimpleLRUCache]
    built with capacity 1000, the cache never holds more than 1000 entries;
    and when it holds 1000 entries and [set] is called with a key that is
    not present, exactly the first entry of the map is dropped -- the key
    whose last [get] or [set] is older than that of every other key -- the
    new entry becomes the most recent one, and the size stays 1000. *)
Theorem lru_1000_bounded_evicts_least_recent ops :
  let c := SimpleLRUCache.run_ops ops (SimpleLRUCache.new 1000) in
  (SimpleLRUCache.size c ≤ 1000)%nat ∧
  ∀ k v,
    SimpleLRUCache.has k c = false →
    SimpleLRUCache.size c = 1000%nat →
    ∃ victim value rest,
      (SimpleLRUCache.cache c = (victim, value) :: rest) ∧
      (victim ∉ JsMap.keys rest) ∧
      (∀ k', k' ∈ JsMap.keys rest → SimpleLRUCache.older ops victim k') ∧
      SimpleLRUCache.cache (SimpleLRUCache.set k v c) = rest ++ [(k, v)] ∧
      SimpleLRUCache.size (SimpleLRUCache.set k v c) = 1000%nat.
Proof.
  intros c.
  destruct (lru_inv_run 1000 ops) as (Hcap & Hnd & Hsz & Hsort & Hsome);
    [lia|]. fold c in Hcap, Hnd, Hsz, Hsort, Hsome.
  split; [done|]. intros k v Hhas Hfull.
  apply jsmap_has_false in Hhas.
  assert (Hset := lru_set_full k v c Hnd Hhas ltac:(lia) ltac:(lia)).
  rewrite Hset. clear Hset.
  unfold SimpleLRUCache.size, JsMap.size, SimpleLRUCache.keys in *.
  destruct (SimpleLRUCache.cache c) as [|[victim value] rest] eqn:Ec;
    [simpl in Hfull; lia|].
  exists victim, value, rest. unfold JsMap.keys in *. simpl in *.
  apply NoDup_cons in Hnd as [Hnot Hnd].
  apply StronglySorted_cons in Hsort as [Hall Hsort].
  split_and!; [done|done| |done|].
  - intros k' Hk'. rewrite Forall_forall in Hall. by apply Hall.
  - rewrite length_app. simpl. lia.
Qed.

End LruFacts.

(** The 1001st distinct key, after 1000 distinct keys were set. *)
Lemma lru_1000_witness :
  let ops := (fun i => SimpleLRUCache.OpSet (N.of_nat i) tt) <$> seq 0 1000 in
  let c := SimpleLRUCache.run_ops ops (SimpleLRUCache.new 1000) in
  SimpleLRUCache.has 1000%N c = false ∧
  SimpleLRUCache.size c = 1000%nat ∧
  SimpleLRUCache.cache (SimpleLRUCache.set 1000%N tt c) =
    tail (SimpleLRUCache.cache c) ++ [(1000%N, tt)].
Proof.
  intros ops c.
  assert (H1 : SimpleLRUCache.has 1000%N c = false)
    by (vm_compute; reflexivity).
  assert (H2 : SimpleLRUCache.size c = 1000%nat)
    by (vm_compute; reflexivity).
  split; [exact H1|]. split; [exact H2|].
  destruct (proj2 (lru_1000_bounded_evicts_least_recent ops) 1000%N tt H1 H2)
    as (victim & value & rest & Hc & _ & _ & Hset & _).
  unfold c. rewrite Hset, Hc. reflexivity.
Defined.

(** ** Bans *)

Lemma app_isUserBanned_cases (bans : gmap string Z) (u : string) (now e : Z) :
  bans !! u = Some e → e ≠ 0 →
  (e < now → App.isUserBanned bans u now = (delete u bans, false)) ∧
  (now ≤ e → App.isUserBanned bans u now = (bans, true)).
Proof.
  intros Hu He. unfold App.isUserBanned. rewrite Hu.
  destruct (Z.eqb_spec e 0); [done|].
  destruct (Z.gtb_spec now e); split; intros; (done || lia).
Qed.

Lemma app_isUserBanned_true (bans : gmap string Z) (u : string) (now : Z) :
  (App.isUserBanned bans u now).2 = true →
  ∃ e, bans !! u = Some e ∧ now ≤ e.
Proof.
  unfold App.isUserBanned. destruct (bans !! u) as [e|]; [|done].
  destruct (Z.eqb_spec e 0); [done|].
  destruct (Z.gtb_spec now e); [done|]. intros _. exists e. split; [done|lia].
Qed.

Lemma app_isUserBanned_absent (bans : gmap string Z) (u : string) (now : Z) :
  bans !! u = None → App.isUserBanned bans u now = (bans, false).
Proof. intros Hu. unfold App.isUserBanned. by rewrite Hu. Qed.

(** part_002 has the text of app.ts. *)
Lemma part002_isUserBanned_app (bans : gmap string Z) (u : string) (now : Z) :
  Part002.isUserBanned bans u now = App.isUserBanned bans u now.
Proof. reflexivity. Qed.

Lemma part000_isUserBanned_true (bans : gmap string Z) (u : string) (now : Z) :
  Part000.isUserBanned bans u now = true ↔
  ∃ e, bans !! u = Some e ∧ e ≠ 0 ∧ now < e.
Proof.
  unfold Part000.isUserBanned. destruct (bans !! u) as [e|].
  - destruct (Z.eqb_spec e 0), (Z.gtb_spec e now); simpl;
      split; try done; try (intros (e' & [= <-] & ? & ?); lia).
    intros _. exists e. split_and!; (done || lia).
  - split; [done|]. by intros (e & ? & _).
Qed.

(** The stores of the admission checks change in the turn of a message
    and in no other turn: nothing sweeps them in the background. *)
Lemma bot_adm_loop V u q timer (s : Bot.St V) :
  Bot.adm V (Bot.loop V u q timer s).1 = Bot.adm V s.
Proof.
  unfold Bot.loop. destruct (Bot.heap V s !! q) as [[|task rest]|];
    simpl; try done; by destruct timer.
Qed.

Lemma bot_adm_finish V w wk (s : Bot.St V) :
  Bot.adm V (Bot.finish V w wk s) = Bot.adm V s.
Proof.
  unfold Bot.finish.
  pose proof (bot_adm_loop V (Bot.w_user wk) (Bot.w_queue wk) (Bot.w_timer wk)
    (Bot.set_userLocks V (<[Bot.w_user wk:=false]> (Bot.userLocks V s)) s))
    as Hl.
  destruct (Bot.loop _ _ _ _ _) as [s2 [wk'|]]; simpl in *; done.
Qed.

Lemma bot_adm_send_next V w wk chunks (s : Bot.St V) :
  Bot.adm V (Bot.send_next V w wk chunks s) = Bot.adm V s.
Proof.
  destruct chunks; simpl; [apply bot_adm_finish|done].
Qed.

Lemma bot_adm_only_messages V (s : Bot.St V) (e : Bot.Event) :
  (∀ from body now, e ≠ Bot.Message from body now) →
  Bot.adm V (Bot.step V s e) = Bot.adm V s.
Proof.
  intros Hne. destruct e as [from body now|w r|t]; simpl.
  - by destruct (Hne from body now).
  - unfold Bot.settle. destruct (Bot.workers V s !! w) as [wk|]; [|done].
    destruct r as [v|].
    + destruct (Bot.w_at wk); simpl; auto using bot_adm_send_next.
    + by rewrite bot_adm_finish.
  - unfold Bot.tick. by destruct (Bot.intervals V s !! t).
Qed.

(** C9, as the code has it.  In app.ts and part_002 [isUserBanned] removes
    the entry and returns false once [Date.now()] is strictly past the
    stored expiry, and returns true up to and including the instant of
    expiry; it returns true only for a stored expiry that has not passed.
    In part_000 it returns true exactly while the stored end is strictly in
    the future, and it is a read: the entry is never removed.  The checks
    run in the turn of an arriving message and nothing else touches the
    stores. *)
Theorem ban_expiry_observed_at_call :
  (∀ (bans : gmap string Z) (u : string) (now e : Z),
      bans !! u = Some e → e ≠ 0 →
      (e < now → App.isUserBanned bans u now = (delete u bans, false)) ∧
      (now ≤ e → App.isUserBanned bans u now = (bans, true))) ∧
  (∀ (bans : gmap string Z) (u : string) (now : Z),
      (App.isUserBanned bans u now).2 = true →
      ∃ e, bans !! u = Some e ∧ now ≤ e) ∧
  (∀ (bans : gmap string Z) (u : string) (now : Z),
      Part002.isUserBanned bans u now = App.isUserBanned bans u now) ∧
  (∀ (bans : gmap string Z) (u : string) (now : Z),
      Part000.isUserBanned bans u now = true ↔
      ∃ e, bans !! u = Some e ∧ e ≠ 0 ∧ now < e) ∧
  (∀ V (s : Bot.St V) (e : Bot.Event),
      (∀ from body now, e ≠ Bot.Message from body now) →
      Bot.adm V (Bot.step V s e) = Bot.adm V s).
Proof.
  split_and!.
  - apply app_isUserBanned_cases.
  - apply app_isUserBanned_true.
  - apply part002_isUserBanned_app.
  - apply part000_isUserBanned_true.
  - apply bot_adm_only_messages.
Qed.

(** A ban that expires at instant 100, read at instant 101. *)
Lemma ban_expiry_witness :
  App.isUserBanned {["u" := 100]} "u" 101 = (delete "u" {["u" := 100]}, false).
Proof.
  apply (proj1 ban_expiry_observed_at_call {["u" := 100]} "u" 101 100);
    [reflexivity | lia | lia].
Defined.

(** C9 as stated fails in app.ts: at the very instant of expiry
    ([banUntil ≤ now] with equality) the user still counts as banned and
    the entry stays. *)
Lemma ban_at_expiry_instant_still_banned :
  (App.isUserBanned {["u" := 100]} "u" 100).2 = true ∧
  (App.isUserBanned {["u" := 100]} "u" 100).1 !! "u" = Some 100.
Proof. split; reflexivity. Qed.

(** ** Counting messages *)

Lemma app_rateLimitUser_spec (counts : gmap string App.Stats) (u : string)
    (now : Z) :
  let old := default {| App.count := 0; App.firstMessageTime := now |}
                     (counts !! u) in
  let new := if now - App.firstMessageTime old >? 24 * 60 * 60 * 1000
             then 1 else App.count old + 1 in
  (App.count <$> (App.rateLimitUser counts u now).1 !! u) = Some new ∧
  (App.rateLimitUser counts u now).2 = (new <=? App.MAX_MESSAGES_PER_DAY).
Proof.
  intros old new. unfold App.rateLimitUser. fold old. simpl.
  rewrite lookup_insert_eq. unfold new.
  by destruct (_ >? _).
Qed.

Lemma part002_rateLimitUser_spec (counts : gmap string Z) (u : string) :
  let new := default 0 (counts !! u) + 1 in
  (Part002.rateLimitUser counts u).1 !! u = Some new ∧
  (Part002.rateLimitUser counts u).2 = (new <=? Part002.LIMIT).
Proof.
  intros new. unfold Part002.rateLimitUser. simpl.
  rewrite lookup_insert_eq. split; [done|].
  fold new. destruct (Z.gtb_spec new Part002.LIMIT), (Z.leb_spec new Part002.LIMIT);
    simpl; (done || lia).
Qed.

Lemma part002_rateLimitUser_other (counts : gmap string Z) (u v : string) :
  u ≠ v → (Part002.rateLimitUser counts u).1 !! v = counts !! v.
Proof. intros. unfold Part002.rateLimitUser. simpl. by rewrite lookup_insert_ne. Qed.

Lemma part002_counter_apply_call (s : Part002.Stores) (c : Part002.call)
    (u : string) :
  Part002.counter s u ≤ Part002.counter (Part002.apply_call s c) u.
Proof.
  unfold Part002.counter.
  assert (Hrl : ∀ counts v,
    default 0 (counts !! u) ≤
    default 0 ((Part002.rateLimitUser counts v).1 !! u)).
  { intros counts v. destruct (decide (v = u)) as [->|Hne].
    - rewrite (proj1 (part002_rateLimitUser_spec counts u)). simpl. lia.
    - by rewrite part002_rateLimitUser_other. }
  destruct c as [v|v d now|v now|v now]; unfold Part002.apply_call;
    cbn [Part002.userMessageCounts]; try done.
  unfold Part002.welcome.
  destruct (Part002.isUserBanned _ _ _) as [bans [|]];
    cbn [Part002.userMessageCounts]; [done|].
  specialize (Hrl (Part002.userMessageCounts s) v).
  destruct (Part002.rateLimitUser _ _) as [counts [|]]; exact Hrl.
Qed.

Lemma part002_counter_run (s : Part002.Stores) (cs : list Part002.call)
    (u : string) :
  Part002.counter s u ≤ Part002.counter (foldl Part002.apply_call s cs) u.
Proof.
  revert s. induction cs as [|c cs IH]; intros s; simpl; [done|].
  etrans; [apply (part002_counter_apply_call s c u)|apply IH].
Qed.

(** C10.  In part_002 no call lowers a user's counter, whatever its
    arguments and time stamps: [banUser] leaves it alone and
    [rateLimitUser] adds one to it on every call.  So once the counter of
    a user is above 30, [rateLimitUser] returns false for that user after
    any further calls, however much time has passed and whether or not a
    ban has expired in between. *)
Theorem part002_counter_only_grows :
  (∀ (s : Part002.Stores) (c : Part002.call) (u : string),
      Part002.counter s u ≤ Part002.counter (Part002.apply_call s c) u) ∧
  (∀ (s : Part002.Stores) (u : string),
      Part002.counter (Part002.apply_call s (Part002.RateLimit u)) u =
      Part002.counter s u + 1) ∧
  (∀ (s : Part002.Stores) (u v : string) (d now : Z),
      Part002.counter (Part002.apply_call s (Part002.Ban v d now)) u =
      Part002.counter s u) ∧
  (∀ (s : Part002.Stores) (u : string) (cs : list Part002.call),
      Part002.LIMIT < Part002.counter s u →
      (Part002.rateLimitUser
         (Part002.userMessageCounts (foldl Part002.apply_call s cs)) u).2
      = false).
Proof.
  split_and!.
  - apply part002_counter_apply_call.
  - intros s u. unfold Part002.counter.
    cbn [Part002.apply_call Part002.userMessageCounts].
    by rewrite (proj1 (part002_rateLimitUser_spec _ u)).
  - done.
  - intros s u cs Hover.
    pose proof (part002_counter_run s cs u) as Hle.
    rewrite (proj2 (part002_rateLimitUser_spec _ u)).
    unfold Part002.counter in *. apply Z.leb_gt. lia.
Qed.

(** A user at 31 messages whose ban is read as expired a year later. *)
Lemma part002_counter_witness :
  (Part002.rateLimitUser
     (Part002.userMessageCounts
        (foldl Part002.apply_call
           {| Part002.userMessageCounts := {["u" := 31]};
              Part002.userBanList := {["u" := 3600000]} |}
           [Part002.IsBanned "u" 31536000000]))
     "u").2 = false.
Proof.
  apply (proj2 (proj2 (proj2 part002_counter_only_grows))).
  vm_compute. reflexivity.
Defined.

Section LruLookup.
Context {K V : Type} `{EqDecision K}.

Lemma jsmap_get_set_same (k : K) (v : V) (m : list (K * V)) :
  JsMap.get k (JsMap.set k v m) = Some v.
Proof.
  induction m as [|[k' v'] m IH]; simpl.
  - by rewrite decide_True.
  - destruct (decide (k = k')) as [->|Hne]; simpl.
    + by rewrite decide_True.
    + by rewrite decide_False.
Qed.

Lemma lru_get_fst (k : K) (c : SimpleLRUCache.t K V) :
  (SimpleLRUCache.get k c).1 = JsMap.get k (SimpleLRUCache.cache c).
Proof.
  unfold SimpleLRUCache.get, JsMap.has.
  by destruct (JsMap.get k (SimpleLRUCache.cache c)).
Qed.

Lemma lru_get_keeps (k : K) (c : SimpleLRUCache.t K V) :
  JsMap.get k (SimpleLRUCache.cache (SimpleLRUCache.get k c).2) =
  JsMap.get k (SimpleLRUCache.cache c).
Proof.
  unfold SimpleLRUCache.get, JsMap.has.
  destruct (JsMap.get k (SimpleLRUCache.cache c)) eqn:E; simpl; [|done].
  apply jsmap_get_set_same.
Qed.

Lemma lru_set_get (k : K) (v : V) (c : SimpleLRUCache.t K V) :
  JsMap.get k (SimpleLRUCache.cache (SimpleLRUCache.set k v c)) = Some v.
Proof. unfold SimpleLRUCache.set. simpl. apply jsmap_get_set_same. Qed.

End LruLookup.

Lemma part001_current_info (u : string) (now : Z) (s : Part001.St) :
  ∃ info,
    Part001.objects (Part001.current_info u now s).2
      !! (Part001.current_info u now s).1 = Some info ∧
    Part001.count info = Part001.window_count u now s ∧
    JsMap.get u (SimpleLRUCache.cache
      (Part001.userMessageInfo (Part001.current_info u now s).2))
    = Some (Part001.current_info u now s).1.
Proof.
  unfold Part001.current_info, Part001.cache_get, Part001.window_count.
  pose proof (lru_get_fst u (Part001.userMessageInfo s)) as Hf.
  pose proof (lru_get_keeps u (Part001.userMessageInfo s)) as Hk.
  destruct (SimpleLRUCache.get u (Part001.userMessageInfo s)) as [found c'].
  simpl in Hf, Hk. subst found. simpl.
  destruct (JsMap.get u (SimpleLRUCache.cache (Part001.userMessageInfo s)))
    as [ref|] eqn:Eg.
  - cbn [Part001.objects Part001.set_cache].
    destruct (Part001.objects s !! ref) as [info|] eqn:Hinfo.
    + destruct (now - Part001.firstMessageTime info >=? Part001.RESET_PERIOD).
      * simpl. eexists. split_and!;
          [by apply list_lookup_middle | done | apply lru_set_get].
      * cbn [fst snd Part001.objects Part001.set_cache
             Part001.userMessageInfo].
        exists info. split_and!; [exact Hinfo|done|exact Hk].
    + simpl. eexists. split_and!;
        [by apply list_lookup_middle | done | apply lru_set_get].
  - simpl. eexists. split_and!;
      [by apply list_lookup_middle | done | apply lru_set_get].
Qed.

Lemma part001_charge (u : string) (now : Z) (ref : nat) (s : Part001.St)
    (info : Part001.UserMessageInfo) :
  Part001.objects s !! ref = Some info →
  JsMap.get u (SimpleLRUCache.cache (Part001.userMessageInfo s)) = Some ref →
  let c := Part001.count info in
  let r := Part001.charge u now ref s in
  Part001.allowed r.2 = (c <? Part001.MAX_MESSAGES) ∧
  Part001.result_count r.2 = (if c <? Part001.MAX_MESSAGES then c + 1 else c) ∧
  Part001.stored_count u r.1 =
    Some (if c <? Part001.MAX_MESSAGES then c + 1 else c).
Proof.
  intros Hinfo Hget c r. unfold r, Part001.charge. rewrite Hinfo. fold c.
  unfold Part001.stored_count, Part001.cache_set, Part001.update.
  destruct (Z.geb_spec c Part001.MAX_MESSAGES) as [Hge|Hlt].
  - destruct (Z.ltb_spec c Part001.MAX_MESSAGES); [lia|].
    destruct (Part001.bannedNotified info);
      cbn [fst snd Part001.allowed Part001.result_count
           Part001.userMessageInfo Part001.objects Part001.set_cache
           Part001.set_objects].
    + rewrite Hget. simpl. by rewrite Hinfo.
    + rewrite lru_set_get. simpl.
      rewrite list_lookup_alter, Hinfo, decide_True by done. done.
  - destruct (Z.ltb_spec c Part001.MAX_MESSAGES); [|lia].
    cbn [fst snd Part001.allowed Part001.result_count
         Part001.userMessageInfo Part001.objects Part001.set_cache
         Part001.set_objects].
    rewrite lru_set_get. simpl.
    rewrite list_lookup_alter, Hinfo, decide_True by done. done.
Qed.

Lemma part001_rateLimitUser_spec (u : string) (now : Z) (s : Part001.St) :
  let c := Part001.window_count u now s in
  let r := Part001.rateLimitUser u now s in
  Part001.allowed r.2 = (c <? Part001.MAX_MESSAGES) ∧
  Part001.result_count r.2 = (if c <? Part001.MAX_MESSAGES then c + 1 else c) ∧
  Part001.stored_count u r.1 =
    Some (if c <? Part001.MAX_MESSAGES then c + 1 else c).
Proof.
  intros c r. unfold r, Part001.rateLimitUser.
  destruct (part001_current_info u now s) as (info & Hinfo & Hc & Hget).
  destruct (Part001.current_info u now s) as [ref s1]. simpl in *.
  fold c in Hc. rewrite <- Hc. by apply part001_charge.
Qed.

Lemma part000_rateLimitUser_spec (limits : gmap string Z) (u : string) :
  let c := default 0 (limits !! u) in
  Part000.rateLimitUser limits u =
  if c <? Part000.MAX_MESSAGES then (<[u := c + 1]> limits, true)
  else (limits, false).
Proof.
  intros c. unfold Part000.rateLimitUser. fold c.
  by destruct (Z.geb_spec c Part000.MAX_MESSAGES),
              (Z.ltb_spec c Part000.MAX_MESSAGES); try lia.
Qed.

(** C3, as the code has it.  In part_001 a call for a user whose count in
    the current window has reached [MAX_MESSAGES] returns
    [allowed = false] and leaves the stored count as it is, and a call
    below the limit returns [allowed = true] and stores the count plus
    one: the count grows on allowed calls only.  part_000 does the same
    with its stored count, which has no window.  In app.ts every call
    stores a new count, the denied calls too: 1, with the window
    restarted at the call, when more than 24 hours have passed since the
    stored first message, and otherwise the old count plus one (0 counts
    for a user without entry, whose window starts at the call); the call
    is allowed exactly when the new count is at most 20.  In part_002
    every call stores the count plus one and is allowed exactly when the
    new count is at most 30. *)
Theorem rate_limit_counting :
  (∀ (u : string) (now : Z) (s : Part001.St),
      let c := Part001.window_count u now s in
      let r := Part001.rateLimitUser u now s in
      (Part001.MAX_MESSAGES ≤ c →
         Part001.allowed r.2 = false ∧ Part001.result_count r.2 = c ∧
         Part001.stored_count u r.1 = Some c) ∧
      (c < Part001.MAX_MESSAGES →
         Part001.allowed r.2 = true ∧ Part001.result_count r.2 = c + 1 ∧
         Part001.stored_count u r.1 = Some (c + 1))) ∧
  (∀ (limits : gmap string Z) (u : string),
      let c := default 0 (limits !! u) in
      (Part000.MAX_MESSAGES ≤ c →
         Part000.rateLimitUser limits u = (limits, false)) ∧
      (c < Part000.MAX_MESSAGES →
         Part000.rateLimitUser limits u = (<[u := c + 1]> limits, true))) ∧
  (∀ (counts : gmap string App.Stats) (u : string) (now : Z) (st : App.Stats),
      counts !! u = Some st →
      now - App.firstMessageTime st ≤ 24 * 60 * 60 * 1000 →
      (App.count <$> (App.rateLimitUser counts u now).1 !! u)
        = Some (App.count st + 1) ∧
      (App.rateLimitUser counts u now).2
        = (App.count st + 1 <=? App.MAX_MESSAGES_PER_DAY)) ∧
  (∀ (counts : gmap string Z) (u : string),
      (Part002.rateLimitUser counts u).1 !! u
        = Some (default 0 (counts !! u) + 1) ∧
      (Part002.rateLimitUser counts u).2
        = (default 0 (counts !! u) + 1 <=? Part002.LIMIT)) ∧
  (∀ (counts : gmap string App.Stats) (u : string) (now : Z),
      let old := default {| App.count := 0; App.firstMessageTime := now |}
                         (counts !! u) in
      let new :=
        if decide (24 * 60 * 60 * 1000 < now - App.firstMessageTime old)
        then {| App.count := 1; App.firstMessageTime := now |}
        else {| App.count := App.count old + 1;
                App.firstMessageTime := App.firstMessageTime old |} in
      App.rateLimitUser counts u now =
        (<[u := new]> counts, App.count new <=? App.MAX_MESSAGES_PER_DAY)).
Proof.
  split_and!.
  - intros u now s c r.
    destruct (part001_rateLimitUser_spec u now s) as (Ha & Hr & Hs).
    fold c r in Ha, Hr, Hs.
    split; intros Hc.
    + destruct (Z.ltb_spec c Part001.MAX_MESSAGES); [lia|]. done.
    + destruct (Z.ltb_spec c Part001.MAX_MESSAGES); [|lia]. done.
  - intros limits u c. rewrite part000_rateLimitUser_spec. fold c.
    split; intros Hc.
    + by destruct (Z.ltb_spec c Part000.MAX_MESSAGES); [lia|].
    + by destruct (Z.ltb_spec c Part000.MAX_MESSAGES); [|lia].
  - intros counts u now st Hst Hwin.
    destruct (app_rateLimitUser_spec counts u now) as [Hc Hok].
    rewrite Hst in Hc, Hok. simpl in Hc, Hok.
    destruct (Z.gtb_spec (now - App.firstMessageTime st)
                (24 * 60 * 60 * 1000)); [lia|]. done.
  - intros counts u. apply part002_rateLimitUser_spec.
  - intros counts u now old new. unfold App.rateLimitUser. fold old.
    unfold new.
    destruct (Z.gtb_spec (now - App.firstMessageTime old)
                (24 * 60 * 60 * 1000)).
    + by rewrite decide_True by lia.
    + by rewrite decide_False by lia.
Qed.

(** A user of part_001 at 20 messages in the running window. *)
Lemma rate_limit_counting_witness :
  let s := Part001.mkSt
             (SimpleLRUCache.mk [("u"%string, 0%nat)] Part001.CAPACITY)
             [{| Part001.count := 20; Part001.firstMessageTime := 0;
                 Part001.queue := 0; Part001.processing := false;
                 Part001.bannedNotified := false |}]
             [[]] ∅ ∅ ∅ 0 20 [] in
  Part001.allowed (Part001.rateLimitUser "u" 5 s).2 = false ∧
  Part001.result_count (Part001.rateLimitUser "u" 5 s).2 = 20 ∧
  Part001.stored_count "u" (Part001.rateLimitUser "u" 5 s).1 = Some 20.
Proof.
  intros s. apply (proj1 (proj1 rate_limit_counting "u"%string 5 s)).
  vm_compute. discriminate.
Defined.

(** C3 as stated fails in app.ts: the 21st call in a window is denied and
    still moves the stored count from 20 to 21. *)
Lemma app_denied_call_is_counted :
  let counts : gmap string App.Stats :=
    {["u"%string := {| App.count := 20; App.firstMessageTime := 0 |}]} in
  (App.rateLimitUser counts "u" 1).2 = false ∧
  (App.count <$> (App.rateLimitUser counts "u" 1).1 !! "u"%string) = Some 21.
Proof. split; reflexivity. Qed.

(** ** The admission checks of app.ts, message after message *)

Section AppAdmission.
Variable u : string.
Implicit Types (s : App.Stores) (ms : list (string * Z)).

Lemma app_admission_other s v t :
  v ≠ u →
  App.userMessageCount (App.admission s v t).1 !! u = App.userMessageCount s !! u ∧
  App.userBanList (App.admission s v t).1 !! u = App.userBanList s !! u.
Proof.
  intros Hne. unfold App.admission, App.isUserBanned, App.rateLimitUser,
    App.banUser.
  destruct (App.userBanList s !! v) as [e|]; simpl.
  - destruct (e =? 0); simpl.
    + destruct (_ <=? _); simpl; rewrite ?lookup_insert_ne by done; done.
    + destruct (t >? e); simpl; [|done].
      destruct (_ <=? _); simpl;
        rewrite ?lookup_insert_ne, ?lookup_delete_ne by done; done.
  - destruct (_ <=? _); simpl; rewrite ?lookup_insert_ne by done; done.
Qed.

(** A message of [u] while [u] is not banned. *)
Lemma app_admission_unbanned s t :
  App.userBanList s !! u = None →
  let old := default {| App.count := 0; App.firstMessageTime := t |}
                     (App.userMessageCount s !! u) in
  let new :=
    if t - App.firstMessageTime old >? 24 * 60 * 60 * 1000
    then {| App.count := 1; App.firstMessageTime := t |}
    else {| App.count := App.count old + 1;
            App.firstMessageTime := App.firstMessageTime old |} in
  App.userMessageCount (App.admission s u t).1 !! u = Some new ∧
  (App.count new ≤ App.MAX_MESSAGES_PER_DAY →
     (App.admission s u t).2 = Bot.Accept ∧
     App.userBanList (App.admission s u t).1 !! u = None) ∧
  (App.MAX_MESSAGES_PER_DAY < App.count new →
     (App.admission s u t).2 = Bot.Deny App.ban_notice ∧
     App.userBanList (App.admission s u t).1 !! u
       = Some (t + App.BAN_DURATION)).
Proof.
  intros Hban old new. unfold App.admission, App.isUserBanned. rewrite Hban.
  unfold App.rateLimitUser. fold old. fold new. simpl.
  destruct (Z.leb_spec (App.count new) App.MAX_MESSAGES_PER_DAY); simpl;
    rewrite lookup_insert_eq; split_and!; try done; try lia.
  - intros _. unfold App.banUser. by rewrite lookup_insert_eq.
Qed.

(** A message of [u] while the ban lasts. *)
Lemma app_admission_banned s t e :
  App.userBanList s !! u = Some e → e ≠ 0 → t ≤ e →
  (App.admission s u t).2 = Bot.Ignore ∧
  App.userMessageCount (App.admission s u t).1 = App.userMessageCount s ∧
  App.userBanList (App.admission s u t).1 = App.userBanList s.
Proof.
  intros Hban He Hle. unfold App.admission.
  rewrite (proj2 (app_isUserBanned_cases _ _ t e Hban He) Hle). done.
Qed.

(** The first message of [u] after the ban. *)
Lemma app_admission_after_ban s t e st :
  App.userBanList s !! u = Some e → e ≠ 0 → e < t →
  App.userMessageCount s !! u = Some st →
  24 * 60 * 60 * 1000 < t - App.firstMessageTime st →
  (App.admission s u t).2 = Bot.Accept ∧
  App.userBanList (App.admission s u t).1 !! u = None ∧
  App.userMessageCount (App.admission s u t).1 !! u
    = Some {| App.count := 1; App.firstMessageTime := t |}.
Proof.
  intros Hban He Hlt Hst Hwin. unfold App.admission.
  rewrite (proj1 (app_isUserBanned_cases _ _ t e Hban He) Hlt).
  unfold App.rateLimitUser. rewrite Hst. simpl.
  destruct (Z.gtb_spec (t - App.firstMessageTime st) (24 * 60 * 60 * 1000));
    [|lia].
  simpl. rewrite lookup_insert_eq, lookup_delete_eq. done.
Qed.

Lemma app_after_cons s v t ms :
  App.after s ((v, t) :: ms) = App.after (App.admission s v t).1 ms.
Proof. reflexivity. Qed.

Lemma app_after_app s ms1 ms2 :
  App.after s (ms1 ++ ms2) = App.after (App.after s ms1) ms2.
Proof. unfold App.after. by rewrite foldl_app. Qed.

Lemma app_verdicts_of_app s ms1 ms2 :
  App.verdicts_of u s (ms1 ++ ms2) =
  App.verdicts_of u s ms1 ++ App.verdicts_of u (App.after s ms1) ms2.
Proof.
  revert s. induction ms1 as [|[v t] ms1 IH]; intros s; simpl; [done|].
  destruct (App.admission s v t) as [s' d] eqn:E. simpl.
  destruct (decide (v = u)); simpl; by rewrite IH.
Qed.

Lemma app_times_of_cons_same t ms :
  App.times_of u ((u, t) :: ms) = t :: App.times_of u ms.
Proof. unfold App.times_of. by rewrite filter_cons_True. Qed.

Lemma app_times_of_cons_other v t ms :
  v ≠ u → App.times_of u ((v, t) :: ms) = App.times_of u ms.
Proof. intros. unfold App.times_of. by rewrite filter_cons_False. Qed.

(** While the window opened at [t1] lasts and the count stays within the
    limit, every message of [u] passes. *)
Lemma app_counting_phase ms s c t1 :
  App.userBanList s !! u = None →
  App.userMessageCount s !! u
    = Some {| App.count := c; App.firstMessageTime := t1 |} →
  Forall (fun t => t - t1 ≤ 24 * 60 * 60 * 1000) (App.times_of u ms) →
  c + Z.of_nat (length (App.times_of u ms)) ≤ App.MAX_MESSAGES_PER_DAY →
  App.verdicts_of u s ms
    = replicate (length (App.times_of u ms)) Bot.Accept ∧
  App.userBanList (App.after s ms) !! u = None ∧
  App.userMessageCount (App.after s ms) !! u
    = Some {| App.count := c + Z.of_nat (length (App.times_of u ms));
              App.firstMessageTime := t1 |}.
Proof.
  revert s c. induction ms as [|[v t] ms IH]; intros s c Hban Hcnt Hwin Hle.
  - simpl. rewrite Z.add_0_r. done.
  - simpl App.verdicts_of. rewrite app_after_cons.
    destruct (decide (v = u)) as [->|Hne].
    + rewrite app_times_of_cons_same in *. simpl length in *.
      apply Forall_cons in Hwin as [Ht Hwin].
      destruct (app_admission_unbanned s t Hban) as (Hnew & Hacc & _).
      rewrite Hcnt in Hnew, Hacc. simpl in Hnew, Hacc.
      destruct (Z.gtb_spec (t - t1) (24 * 60 * 60 * 1000)); [lia|].
      simpl in Hnew, Hacc. destruct Hacc as [Hv Hban']; [lia|].
      destruct (App.admission s u t) as [s' d] eqn:E. simpl in *. subst d.
      destruct (IH s' (c + 1) Hban' Hnew Hwin) as (IH1 & IH2 & IH3); [lia|].
      rewrite IH1, IH2, IH3. split_and!; try done.
      do 2 f_equal. lia.
    + rewrite app_times_of_cons_other in * by done.
      destruct (app_admission_other s v t Hne) as [Hc' Hb'].
      destruct (App.admission s v t) as [s' d] eqn:E. simpl in *.
      apply IH; congruence.
Qed.

(** While the ban lasts, every message of [u] is dropped and changes
    nothing for [u]. *)
Lemma app_banned_phase ms s e :
  App.userBanList s !! u = Some e → e ≠ 0 →
  Forall (fun t => t ≤ e) (App.times_of u ms) →
  App.verdicts_of u s ms
    = replicate (length (App.times_of u ms)) Bot.Ignore ∧
  App.userBanList (App.after s ms) !! u = Some e ∧
  App.userMessageCount (App.after s ms) !! u = App.userMessageCount s !! u.
Proof.
  revert s. induction ms as [|[v t] ms IH]; intros s Hban He Hall.
  - done.
  - simpl App.verdicts_of. rewrite app_after_cons.
    destruct (decide (v = u)) as [->|Hne].
    + rewrite app_times_of_cons_same in *. simpl length.
      apply Forall_cons in Hall as [Ht Hall].
      destruct (app_admission_banned s t e Hban He Ht) as (Hv & Hc & Hb).
      destruct (App.admission s u t) as [s' d] eqn:E. simpl in *. subst d.
      destruct (IH s') as (IH1 & IH2 & IH3); [congruence|done|done|].
      rewrite IH1, IH2, IH3, Hc. done.
    + rewrite app_times_of_cons_other in * by done.
      destruct (app_admission_other s v t Hne) as [Hc' Hb'].
      destruct (App.admission s v t) as [s' d] eqn:E. simpl in *.
      destruct (IH s') as (IH1 & IH2 & IH3); [congruence|done|done|].
      rewrite IH1, IH2, IH3. done.
Qed.

Lemma app_verdicts_of_cons_same s t ms :
  App.verdicts_of u s ((u, t) :: ms) =
  (App.admission s u t).2 :: App.verdicts_of u (App.admission s u t).1 ms.
Proof.
  simpl. destruct (App.admission s u t) as [s' d]. by rewrite decide_True.
Qed.

End AppAdmission.

(** C4.  In app.ts, for a user with no entry in the two maps: the first
    20 messages that arrive within 24 hours of the first one pass the
    checks; the 21st within these 24 hours is answered with the ban notice
    and [banUser] stores an expiry [BAN_DURATION] (24 hours) after it;
    messages that arrive up to that expiry are dropped; and the first
    message that arrives after it passes the checks again.  Messages of
    other users may arrive in between. *)
Theorem app_limit_ban_and_readmission (s : App.Stores) (u : string)
    (m1 m3 : list (string * Z)) (t1 t21 t' : Z) :
  App.userMessageCount s !! u = None →
  App.userBanList s !! u = None →
  0 ≤ t1 ≤ t21 →
  length (App.times_of u m1) = 19%nat →
  Forall (fun t => t - t1 ≤ 24 * 60 * 60 * 1000) (App.times_of u m1) →
  t21 - t1 ≤ 24 * 60 * 60 * 1000 →
  Forall (fun t => t ≤ t21 + App.BAN_DURATION) (App.times_of u m3) →
  t21 + App.BAN_DURATION < t' →
  let first21 := (u, t1) :: m1 ++ [(u, t21)] in
  App.verdicts_of u s (first21 ++ m3 ++ [(u, t')]) =
    replicate 20 Bot.Accept ++ [Bot.Deny App.ban_notice] ++
    replicate (length (App.times_of u m3)) Bot.Ignore ++ [Bot.Accept] ∧
  App.userBanList (App.after s first21) !! u = Some (t21 + App.BAN_DURATION).
Proof.
  intros Hc0 Hb0 Ht Hlen Hwin H21 Hban Hafter first21.
  assert (Hday : App.BAN_DURATION = 24 * 60 * 60 * 1000) by reflexivity.
  (* message 1 *)
  destruct (app_admission_unbanned u s t1 Hb0) as (Hc1 & Ha1 & _).
  rewrite Hc0 in Hc1, Ha1. simpl in Hc1, Ha1.
  rewrite Z.sub_diag in Hc1, Ha1. simpl in Hc1, Ha1.
  destruct Ha1 as [Hv1 Hb1]; [unfold App.MAX_MESSAGES_PER_DAY; lia|].
  set (s1 := (App.admission s u t1).1) in *.
  (* messages 2 to 20 *)
  destruct (app_counting_phase u m1 s1 1 t1 Hb1 Hc1 Hwin) as (Hv2 & Hb2 & Hc2).
  { rewrite Hlen. unfold App.MAX_MESSAGES_PER_DAY. lia. }
  rewrite Hlen in Hv2, Hc2. simpl in Hc2.
  set (s2 := App.after s1 m1) in *.
  (* message 21 *)
  destruct (app_admission_unbanned u s2 t21 Hb2) as (Hc3 & _ & Hd3).
  rewrite Hc2 in Hc3, Hd3. simpl in Hc3, Hd3.
  destruct (Z.gtb_spec (t21 - t1) (24 * 60 * 60 * 1000)); [lia|].
  simpl in Hc3, Hd3.
  destruct Hd3 as [Hv3 Hb3]; [unfold App.MAX_MESSAGES_PER_DAY; lia|].
  set (s3 := (App.admission s2 u t21).1) in *.
  (* while banned *)
  destruct (app_banned_phase u m3 s3 (t21 + App.BAN_DURATION) Hb3)
    as (Hv4 & Hb4 & Hc4); [lia|done|].
  rewrite Hc3 in Hc4.
  set (s4 := App.after s3 m3) in *.
  (* after the ban *)
  destruct (app_admission_after_ban u s4 t' (t21 + App.BAN_DURATION) _
              Hb4 ltac:(lia) Hafter Hc4) as (Hv5 & _ & _).
  { simpl. lia. }
  assert (Hs3 : App.after s first21 = s3).
  { unfold first21. rewrite app_after_cons. fold s1.
    rewrite app_after_app. fold s2. done. }
  split; [|by rewrite Hs3].
  rewrite app_verdicts_of_app, Hs3.
  unfold first21. rewrite app_verdicts_of_cons_same. fold s1.
  rewrite Hv1, app_verdicts_of_app. fold s2.
  rewrite Hv2, app_verdicts_of_cons_same. fold s3. rewrite Hv3.
  rewrite app_verdicts_of_app. fold s4.
  rewrite Hv4, app_verdicts_of_cons_same, Hv5. simpl.
  reflexivity.
Qed.

(** Twenty-one messages in ten milliseconds, one more during the ban,
    and one a millisecond after it. *)
Lemma app_limit_ban_witness :
  App.verdicts_of "u" (Bot.adm_init App.variant)
    ((("u"%string, 0) :: replicate 19 ("u"%string, 5) ++ [("u"%string, 10)])
     ++ [("u"%string, 50)] ++ [("u"%string, 86400011)]) =
    replicate 20 Bot.Accept ++ [Bot.Deny App.ban_notice] ++
    replicate 1 Bot.Ignore ++ [Bot.Accept] ∧
  App.userBanList
    (App.after (Bot.adm_init App.variant)
       (("u"%string, 0) :: replicate 19 ("u"%string, 5) ++ [("u"%string, 10)]))
    !! "u"%string = Some (10 + App.BAN_DURATION).
Proof.
  apply (app_limit_ban_and_readmission (Bot.adm_init App.variant) "u"
           (replicate 19 ("u"%string, 5)) [("u"%string, 50)] 0 10 86400011).
  - vm_compute. reflexivity.
  - vm_compute. reflexivity.
  - lia.
  - vm_compute. reflexivity.
  - apply (bool_decide_unpack _). vm_compute. reflexivity.
  - vm_compute. discriminate.
  - apply (bool_decide_unpack _). vm_compute. reflexivity.
  - vm_compute. reflexivity.
Defined.

(** ** Text: splitting on blank lines *)

Section SplitFacts.
Import JsText.
Implicit Types (s p rest : jsstring) (ps : list jsstring).

Lemma split_blank_aux_cons2 (insep : bool) (c d : N) s :
  split_blank_aux insep (c :: d :: s) =
  if insep && (c =? LF)%N then split_blank_aux true (d :: s)
  else if ((c =? LF) && (d =? LF))%N then [] :: split_blank_aux true s
       else cons_head c (split_blank_aux false (d :: s)).
Proof. reflexivity. Qed.

Lemma split_blank_aux_true_skip s :
  head s ≠ Some LF → split_blank_aux true s = split_blank_aux false s.
Proof.
  destruct s as [|c r]; [done|]. simpl. intros Hc.
  destruct (N.eqb_spec c LF) as [->|Hne]; [done|]. done.
Qed.

Lemma split_blank_aux_true_run (n : nat) s :
  split_blank_aux true (replicate n LF ++ s) = split_blank_aux true s.
Proof. induction n as [|n IH]; [done|]. simpl. by rewrite IH. Qed.

Lemma has_blank_line_cons (a b : N) s :
  has_blank_line (a :: b :: s) = false →
  ((a =? LF) && (b =? LF))%N = false ∧ has_blank_line (b :: s) = false.
Proof. simpl. intros H. by apply orb_false_elim in H. Qed.

Lemma split_blank_no_blank p :
  has_blank_line p = false → split_blank_aux false p = [p].
Proof.
  induction p as [|c r IH]; [done|]. intros Hnb.
  destruct r as [|d r']; [done|].
  apply has_blank_line_cons in Hnb as [Hcd Hnb].
  rewrite split_blank_aux_cons2. cbn [andb]. rewrite Hcd, (IH Hnb). done.
Qed.

Lemma last_cons_cons {A} (a b : A) (l : list A) :
  last (a :: b :: l) = last (b :: l).
Proof. done. Qed.

Lemma split_blank_at_run p (n : nat) rest :
  has_blank_line p = false → last p ≠ Some LF → (2 ≤ n)%nat →
  head rest ≠ Some LF →
  split_blank_aux false (p ++ replicate n LF ++ rest)
  = p :: split_blank_aux false rest.
Proof.
  intros Hnb Hlast Hn Hrest.
  destruct n as [|[|n]]; [lia|lia|]. clear Hn.
  induction p as [|c p' IH].
  - cbn [app replicate]. rewrite split_blank_aux_cons2.
    cbn [andb]. rewrite N.eqb_refl. cbn [andb].
    by rewrite split_blank_aux_true_run, split_blank_aux_true_skip.
  - destruct p' as [|d p''].
    + cbn [app replicate]. rewrite split_blank_aux_cons2. cbn [andb].
      destruct (N.eqb_spec c LF) as [->|Hc]; [done|]. cbn [andb].
      cbn [app replicate] in IH. rewrite IH by done. done.
    + apply has_blank_line_cons in Hnb as [Hcd Hnb].
      rewrite last_cons_cons in Hlast.
      cbn [app]. rewrite split_blank_aux_cons2. cbn [andb]. rewrite Hcd.
      cbn [app] in IH. rewrite IH by done. done.
Qed.

(** The pieces that [split] returns are determined by the text. *)
Lemma split_blank_unique s ps : Paragraphs s ps → split_blank s = ps.
Proof.
  unfold split_blank. induction 1 as [p Hnb|p n rest ps Hnb Hl Hn Hr _ IH].
  - by apply split_blank_no_blank.
  - rewrite split_blank_at_run by done. by rewrite IH.
Qed.

Lemma first_blank_line s :
  has_blank_line s = true →
  ∃ p t, s = p ++ LF :: LF :: t ∧ has_blank_line p = false ∧
         last p ≠ Some LF.
Proof.
  induction s as [|a t0 IH]; [done|]. destruct t0 as [|b t1]; [done|].
  cbn [has_blank_line]. intros H. apply orb_true_iff in H as [H|H].
  - apply andb_true_iff in H as [Ha Hb].
    apply N.eqb_eq in Ha as ->. apply N.eqb_eq in Hb as ->.
    exists [], t1. done.
  - destruct (IH H) as (p' & t & Heq & Hnb & Hl).
    destruct (((a =? LF) && (b =? LF))%N) eqn:Hab.
    { apply andb_true_iff in Hab as [Ha Hb].
      apply N.eqb_eq in Ha as ->. apply N.eqb_eq in Hb as ->.
      exists [], t1. done. }
    exists (a :: p'), t. rewrite Heq. split; [done|].
    destruct p' as [|b' p''].
    + simpl in Heq. injection Heq as -> _. split; [done|].
      simpl. intros [= ->]. by rewrite !N.eqb_refl in Hab.
    + simpl in Heq. injection Heq as <- _. split; [|done].
      cbn [has_blank_line]. rewrite Hab. done.
Qed.

Lemma leading_line_feeds s :
  ∃ (k : nat) rest, s = replicate k LF ++ rest ∧ head rest ≠ Some LF ∧
                    (length rest ≤ length s)%nat.
Proof.
  induction s as [|c r (k & rest & Heq & Hh & Hlen)].
  - exists 0%nat, []. done.
  - destruct (N.eqb_spec c LF) as [->|Hc].
    + exists (S k), rest. rewrite Heq at 1. simpl. split_and!; [done|done|lia].
    + exists 0%nat, (c :: r). simpl. split_and!; [done| |lia]. by intros [= ->].
Qed.

Lemma paragraphs_exist s : ∃ ps, Paragraphs s ps.
Proof.
  remember (length s) as n eqn:Hn. revert s Hn.
  induction n as [n IH] using lt_wf_ind. intros s ->.
  destruct (has_blank_line s) eqn:Hb.
  - destruct (first_blank_line s Hb) as (p & t & -> & Hnb & Hl).
    destruct (leading_line_feeds t) as (k & rest & -> & Hh & Hlen).
    destruct (IH (length rest)) with (s := rest) as [ps Hps].
    { rewrite !length_app. simpl. rewrite !length_app. lia. }
    { done. }
    exists (p :: ps).
    change (p ++ LF :: LF :: replicate k LF ++ rest)
      with (p ++ replicate (S (S k)) LF ++ rest).
    apply Paragraphs_more; (done || lia).
  - exists [s]. by constructor.
Qed.

(** [split] returns the paragraphs of the text. *)
Lemma split_blank_paragraphs s : Paragraphs s (split_blank s).
Proof.
  destruct (paragraphs_exist s) as [ps Hps].
  by rewrite (split_blank_unique s ps Hps).
Qed.

Lemma split_blank_two p1 p2 :
  has_blank_line p1 = false → has_blank_line p2 = false →
  last p1 ≠ Some LF → head p2 ≠ Some LF →
  split_blank (p1 ++ [LF; LF] ++ p2) = [p1; p2].
Proof.
  intros H1 H2 Hl Hh. apply split_blank_unique.
  change [LF; LF] with (replicate 2 LF).
  apply Paragraphs_more; try done. by constructor.
Qed.

End SplitFacts.

(** ** Text: the replacements *)

Section ReplaceFacts.
Import JsText.
Implicit Types (s g rest opn suf a m b : jsstring).

Lemma starts_with_app suf s :
  starts_with suf s = true → s = suf ++ drop (length suf) s.
Proof.
  revert s. induction suf as [|c suf IH]; intros s; [done|].
  destruct s as [|d s]; [done|]. simpl.
  intros H. apply andb_true_iff in H as [Hc H].
  apply N.eqb_eq in Hc as ->. f_equal. by apply IH.
Qed.

Lemma starts_with_self suf s : starts_with suf (suf ++ s) = true.
Proof.
  induction suf as [|c suf IH]; [done|]. simpl. by rewrite N.eqb_refl.
Qed.

Lemma starts_with_head_ne (c d : N) suf s :
  c ≠ d → starts_with (c :: suf) (d :: s) = false.
Proof. intros Hne. simpl. by destruct (N.eqb_spec c d). Qed.

Lemma lazy_until_app suf s g rest :
  lazy_until suf s = Some (g, rest) → s = g ++ suf ++ rest.
Proof.
  revert g. induction s as [|c r IH]; intros g.
  - simpl. destruct (starts_with suf []) eqn:E; [|done].
    intros [= <- <-]. by apply starts_with_app in E.
  - cbn [lazy_until]. destruct (starts_with suf (c :: r)) eqn:E.
    + intros [= <- <-]. by apply starts_with_app in E.
    + destruct (is_line_terminator c); [done|].
      destruct (lazy_until suf r) as [[g' rest']|]; [|done].
      intros [= <- <-]. simpl. f_equal. by apply IH.
Qed.

Lemma match_delim_app opn suf s g rest :
  match_delim opn suf s = Some (g, rest) → s = opn ++ g ++ suf ++ rest.
Proof.
  unfold match_delim. destruct (starts_with opn s) eqn:E; [|done].
  intros H. apply lazy_until_app in H. apply starts_with_app in E.
  rewrite E at 1. by rewrite H.
Qed.

Lemma match_delim_shorter opn suf s g rest :
  opn ≠ [] → match_delim opn suf s = Some (g, rest) →
  (length rest < length s)%nat.
Proof.
  intros Hne H. apply match_delim_app in H as ->.
  rewrite !length_app. destruct opn; [done|]. simpl. lia.
Qed.

(** The result does not depend on the fuel, once there is enough. *)
Lemma replace_delim_fuel_enough opn suf repl (f1 f2 : nat) s :
  opn ≠ [] → (length s ≤ f1)%nat → (length s ≤ f2)%nat →
  replace_delim_fuel f1 opn suf repl s = replace_delim_fuel f2 opn suf repl s.
Proof.
  intros Hne. revert f2 s. induction f1 as [|f1 IH]; intros f2 s H1 H2.
  - destruct s; [|simpl in H1; lia]. by destruct f2.
  - destruct f2 as [|f2].
    + destruct s; [done|simpl in H2; lia].
    + destruct s as [|c r]; [done|]. simpl in H1, H2. cbn [replace_delim_fuel].
      destruct (match_delim opn suf (c :: r)) as [[g rest]|] eqn:E.
      * apply match_delim_shorter in E; [|done]. simpl in E.
        f_equal. apply IH; lia.
      * f_equal. apply IH; lia.
Qed.

Lemma replace_delim_nil opn suf repl : replace_delim opn suf repl [] = [].
Proof. done. Qed.

Lemma replace_delim_cons opn suf repl (c : N) s :
  opn ≠ [] →
  replace_delim opn suf repl (c :: s) =
  match match_delim opn suf (c :: s) with
  | Some (g, rest) => repl g ++ replace_delim opn suf repl rest
  | None => c :: replace_delim opn suf repl s
  end.
Proof.
  intros Hne. unfold replace_delim. cbn [length replace_delim_fuel].
  destruct (match_delim opn suf (c :: s)) as [[g rest]|] eqn:E.
  - apply match_delim_shorter in E; [|done]. simpl in E.
    f_equal. apply replace_delim_fuel_enough; (done || lia).
  - done.
Qed.

(** A text without the first character of the opening delimiter is left
    as it is. *)
Lemma replace_delim_no_open (o : N) opn suf repl s :
  o ∉ s → replace_delim (o :: opn) suf repl s = s.
Proof.
  induction s as [|c s IH]; [done|]. rewrite not_elem_of_cons.
  intros [Hc Hs]. rewrite replace_delim_cons by done.
  unfold match_delim. rewrite starts_with_head_ne by done.
  by rewrite IH.
Qed.

Lemma lazy_until_found (c : N) suf m b :
  c ∉ m → Forall (fun x => is_line_terminator x = false) m →
  lazy_until (c :: suf) (m ++ c :: suf ++ b) = Some (m, b).
Proof.
  induction m as [|x m IH]; intros Hc Hlt.
  - cbn [app lazy_until].
    change (c :: suf ++ b) with ((c :: suf) ++ b).
    rewrite starts_with_self. by rewrite drop_app_length.
  - apply not_elem_of_cons in Hc as [Hx Hc].
    apply Forall_cons in Hlt as [Hlx Hlt].
    cbn [app lazy_until]. rewrite starts_with_head_ne by done.
    rewrite Hlx, IH by done. done.
Qed.

(** One marker: text before it without the opening character, and a body
    on one line without the first closing character. *)
Lemma replace_delim_marker (o c : N) suf repl a m b :
  o ∉ a → c ∉ m → Forall (fun x => is_line_terminator x = false) m →
  replace_delim [o] (c :: suf) repl (a ++ o :: m ++ c :: suf ++ b)
  = a ++ repl m ++ replace_delim [o] (c :: suf) repl b.
Proof.
  intros Ha Hm Hlt. induction a as [|x a IH].
  - cbn [app]. rewrite replace_delim_cons by done.
    unfold match_delim. cbn [starts_with length drop].
    rewrite N.eqb_refl. cbn [andb]. rewrite drop_0.
    by rewrite lazy_until_found.
  - apply not_elem_of_cons in Ha as [Hx Ha].
    cbn [app]. rewrite replace_delim_cons by done.
    unfold match_delim. rewrite starts_with_head_ne by done.
    by rewrite IH.
Qed.

Lemma collapse_stars_cons2 (a b : N) s :
  collapse_stars (a :: b :: s) =
  if ((a =? STAR) && (b =? STAR))%N then STAR :: collapse_stars s
  else a :: collapse_stars (b :: s).
Proof. reflexivity. Qed.

Lemma collapse_stars_closing s :
  STAR ∉ s → collapse_stars (s ++ [STAR; STAR]) = s ++ [STAR].
Proof.
  induction s as [|a s IH]; [done|]. rewrite not_elem_of_cons.
  intros [Ha Hs]. specialize (IH Hs).
  destruct s as [|b s']; cbn [app] in *; rewrite collapse_stars_cons2;
    (destruct (N.eqb_spec a STAR); [done|]); cbn [andb]; by rewrite IH.
Qed.

(** [**text**] becomes [*text*]. *)
Lemma collapse_stars_emphasis s :
  STAR ∉ s →
  collapse_stars ([STAR; STAR] ++ s ++ [STAR; STAR]) = [STAR] ++ s ++ [STAR].
Proof.
  intros Hs. cbn [app]. rewrite collapse_stars_cons2, N.eqb_refl. cbn [andb].
  by rewrite collapse_stars_closing.
Qed.

Lemma single_emphasis_emphasis s :
  STAR ∉ s → Forall (fun x => is_line_terminator x = false) s →
  single_emphasis ([STAR; STAR] ++ s ++ [STAR; STAR]) = [STAR] ++ s ++ [STAR].
Proof.
  intros Hs Hlt. unfold single_emphasis. cbn [app].
  rewrite replace_delim_cons by done.
  unfold match_delim. cbn [app starts_with length drop].
  rewrite N.eqb_refl. cbn [andb]. rewrite drop_0.
  pose proof (lazy_until_found STAR [STAR] s [] Hs Hlt) as Hl.
  cbn [app] in Hl. rewrite Hl. by rewrite replace_delim_nil, app_nil_r.
Qed.

(** The replacements work line by line: no match crosses a line feed. *)

Lemma starts_with_length p s :
  starts_with p s = true → (length p ≤ length s)%nat.
Proof.
  revert s. induction p as [|c p IH]; intros s; simpl; [lia|].
  destruct s as [|d s]; [done|]. intros H.
  apply andb_true_iff in H as [_ H]. apply IH in H. simpl. lia.
Qed.

Lemma starts_with_line p s b :
  LF ∉ p → starts_with p (s ++ LF :: b) = starts_with p s.
Proof.
  revert s. induction p as [|c p IH]; intros s; [done|].
  rewrite not_elem_of_cons. intros [Hc Hp].
  destruct s as [|d s]; simpl.
  - by destruct (N.eqb_spec c LF); [congruence|].
  - by rewrite IH.
Qed.

Lemma lazy_until_line suf s b :
  suf ≠ [] → LF ∉ suf →
  lazy_until suf (s ++ LF :: b) =
  (fun gr => (gr.1, gr.2 ++ LF :: b)) <$> lazy_until suf s.
Proof.
  intros Hne Hlf. induction s as [|d s IH].
  - cbn [app lazy_until].
    change (LF :: b) with ([] ++ LF :: b) at 1.
    rewrite starts_with_line by done.
    destruct suf as [|c suf]; [done|]. done.
  - cbn [app lazy_until].
    change (d :: s ++ LF :: b) with ((d :: s) ++ LF :: b).
    rewrite starts_with_line by done.
    destruct (starts_with suf (d :: s)) eqn:E.
    + apply starts_with_length in E.
      by rewrite drop_app_le.
    + destruct (is_line_terminator d); [done|].
      rewrite IH. by destruct (lazy_until suf s) as [[g rest]|].
Qed.

Lemma match_delim_line opn suf s b :
  suf ≠ [] → LF ∉ opn → LF ∉ suf →
  match_delim opn suf (s ++ LF :: b) =
  (fun gr => (gr.1, gr.2 ++ LF :: b)) <$> match_delim opn suf s.
Proof.
  intros Hne Ho Hs. unfold match_delim.
  rewrite starts_with_line by done.
  destruct (starts_with opn s) eqn:E; [|done].
  apply starts_with_length in E.
  rewrite drop_app_le by done. by apply lazy_until_line.
Qed.

Lemma replace_delim_line opn suf repl a b :
  opn ≠ [] → suf ≠ [] → LF ∉ opn → LF ∉ suf →
  replace_delim opn suf repl (a ++ LF :: b) =
  replace_delim opn suf repl a ++ LF :: replace_delim opn suf repl b.
Proof.
  intros Hon Hsn Ho Hs.
  remember (length a) as n eqn:Hn. revert a Hn.
  induction n as [n IH] using lt_wf_ind. intros a ->.
  destruct a as [|c a].
  - cbn [app]. rewrite replace_delim_cons by done.
    change (LF :: b) with ([] ++ LF :: b) at 1.
    rewrite match_delim_line by done.
    unfold match_delim. destruct opn as [|o opn]; [done|]. done.
  - cbn [app]. rewrite !replace_delim_cons by done.
    change (c :: a ++ LF :: b) with ((c :: a) ++ LF :: b).
    rewrite match_delim_line by done.
    destruct (match_delim opn suf (c :: a)) as [[g rest]|] eqn:E; simpl.
    + apply match_delim_shorter in E; [|done].
      rewrite (IH (length rest)); [|done|done]. by rewrite app_assoc.
    + f_equal. apply (IH (length a)); [simpl; lia|done].
Qed.

Lemma lf_not_a_delimiter :
  (LF ∉ [LBRACKET]) ∧ (LF ∉ [RBRACKET]) ∧ (LF ∉ [STAR; STAR]).
Proof.
  rewrite !not_elem_of_cons.
  repeat split; try apply not_elem_of_nil; discriminate.
Qed.

Lemma app_cleanedResponse_line a b :
  App.cleanedResponse (a ++ LF :: b) =
  App.cleanedResponse a ++ LF :: App.cleanedResponse b.
Proof.
  unfold App.cleanedResponse, strip_square, single_emphasis.
  destruct lf_not_a_delimiter as (H1 & H2 & H3).
  rewrite (replace_delim_line [LBRACKET] [RBRACKET]) by done.
  rewrite (replace_delim_line [STAR; STAR] [STAR; STAR]) by done.
  done.
Qed.

Lemma app_cleanedResponse_blank_line a b :
  App.cleanedResponse (a ++ [LF; LF] ++ b) =
  App.cleanedResponse a ++ [LF; LF] ++ App.cleanedResponse b.
Proof.
  cbn [app]. rewrite app_cleanedResponse_line.
  change (LF :: b) with ([] ++ LF :: b).
  by rewrite app_cleanedResponse_line.
Qed.

Lemma app_cleanedResponse_plain s :
  LBRACKET ∉ s → STAR ∉ s → App.cleanedResponse s = s.
Proof.
  intros Hb Hs. unfold App.cleanedResponse, strip_square, single_emphasis.
  rewrite (replace_delim_no_open LBRACKET) by done.
  by rewrite (replace_delim_no_open STAR).
Qed.

End ReplaceFacts.

(** ** The event loop: projections of the log *)

Section LogFacts.
Import Bot.
Implicit Types (l : list Action) (u : string).

Lemma sent_ids_app u l1 l2 :
  sent_ids u (l1 ++ l2) = sent_ids u l1 ++ sent_ids u l2.
Proof. unfold sent_ids. by rewrite omap_app. Qed.

Lemma beats_app u l1 l2 : beats u (l1 ++ l2) = beats u l1 ++ beats u l2.
Proof. unfold beats. by rewrite omap_app. Qed.


Lemma sent_ids_quiet u l a : quiet a → sent_ids u (l ++ [a]) = sent_ids u l.
Proof.
  intros Hq. rewrite sent_ids_app. destruct a; try done; simpl;
    by rewrite app_nil_r.
Qed.

Lemma beats_quiet u l a : quiet a → beats u (l ++ [a]) = beats u l.
Proof.
  intros Hq. rewrite beats_app. destruct a; try done; simpl;
    by rewrite app_nil_r.
Qed.

Lemma beats_send u l id v c : beats u (l ++ [Send id v c]) = beats u l.
Proof. rewrite beats_app. simpl. by rewrite app_nil_r. Qed.

Lemma sent_ids_send_same u l id c :
  sent_ids u (l ++ [Send id u c]) = sent_ids u l ++ [id].
Proof. rewrite sent_ids_app. simpl. by rewrite decide_True. Qed.

Lemma sent_ids_send_other u v l id c :
  v ≠ u → sent_ids u (l ++ [Send id v c]) = sent_ids u l.
Proof.
  intros. rewrite sent_ids_app. simpl. rewrite decide_False by done.
  by rewrite app_nil_r.
Qed.

Lemma sent_ids_interval u l t v b :
  sent_ids u (l ++ [if b : bool then SetInterval t v else ClearInterval t v])
  = sent_ids u l.
Proof. rewrite sent_ids_app. destruct b; simpl; by rewrite app_nil_r. Qed.

End LogFacts.

(** ** The event loop: the invariant *)

Section BotInvariant.
Import Bot.
Variable V : Variant.
Implicit Types (s : St V) (u : string) (wk : Worker).

Lemma bot_inv_init : bot_inv V (init V).
Proof.
  split; unfold draining; cbn [init workers userQueues userLocks intervals
    heap next_id next_timer log sent_ids beats omap];
    intros; rewrite ?lookup_empty in *; try discriminate; try constructor.
Qed.

(** A call that the invariant does not watch. *)
Lemma bot_inv_emit_quiet a s : quiet a → bot_inv V s → bot_inv V (emit V a s).
Proof.
  intros Hq [H1 H2 H3 H4 H5 H6 H7 H8 H9 H10 H11 H12 H13 H14 H15 H16].
  split; unfold draining in *; simpl; intros;
    rewrite ?sent_ids_quiet, ?beats_quiet by done; eauto.
  by apply (H9 w).
Qed.

(** The arrival counter moves on and the admission stores change. *)
Lemma bot_inv_arrival a s :
  bot_inv V s → bot_inv V (set_adm V a (set_next_id V (S (next_id V s)) s)).
Proof.
  intros [H1 H2 H3 H4 H5 H6 H7 H8 H9 H10 H11 H12 H13 H14 H15 H16].
  split; unfold draining in *; simpl; intros; eauto.
  - apply Nat.lt_lt_succ_r. eauto.
  - by apply (H9 w).
  - destruct (H11 w wk tasks) as [Hs Hf]; [done..|]. split; [done|].
    eapply Forall_impl; [exact Hf|]. simpl. intros t [? ?]. split; [lia|done].
  - eapply Forall_impl; [apply H12|]. simpl. lia.
Qed.

(** What the invariant reads of an activation does not include the point
    it is suspended at. *)
Lemma lookup_insert_at (ws : gmap nat Worker) w a wk w' wk' :
  ws !! w = Some wk → <[w := at_ a wk]> ws !! w' = Some wk' →
  ∃ wk0, ws !! w' = Some wk0 ∧ w_user wk' = w_user wk0 ∧
         w_queue wk' = w_queue wk0 ∧ w_timer wk' = w_timer wk0 ∧
         w_task wk' = w_task wk0.
Proof.
  intros Hw. rewrite lookup_insert_Some. intros [[<- <-]|[Hne Hw']].
  - by exists wk.
  - by exists wk'.
Qed.

Lemma draining_insert_at s u w a wk :
  workers V s !! w = Some wk →
  (draining V u (set_workers V (<[w := at_ a wk]> (workers V s)) s)
   ↔ draining V u s).
Proof.
  intros Hw. unfold draining. simpl. split.
  - intros (w' & wk' & Hw' & Hu).
    destruct (lookup_insert_at _ _ _ _ _ _ Hw Hw') as (wk0 & ? & Hu' & _).
    exists w', wk0. split; [done|congruence].
  - intros (w' & wk' & Hw' & Hu). destruct (decide (w' = w)) as [->|Hne].
    + exists w, (at_ a wk). rewrite lookup_insert_eq. split; [done|].
      simpl. congruence.
    + exists w', wk'. by rewrite lookup_insert_ne.
Qed.

Lemma bot_inv_at s w a wk :
  workers V s !! w = Some wk → bot_inv V s →
  bot_inv V (set_workers V (<[w := at_ a wk]> (workers V s)) s).
Proof.
  intros Hw Hinv.
  assert (Hold := lookup_insert_at (workers V s) w a wk).
  split; simpl.
  - intros w1 w2 wk1 wk2 Hw1 Hw2 Hu.
    destruct (Hold _ _ Hw Hw1) as (wk1' & Hw1' & Hu1 & _).
    destruct (Hold _ _ Hw Hw2) as (wk2' & Hw2' & Hu2 & _).
    apply (inv_one V s Hinv w1 w2 wk1' wk2'); congruence.
  - intros w1 wk1 Hw1.
    destruct (Hold _ _ Hw Hw1) as (wk1' & Hw1' & _).
    by apply (inv_key V s Hinv w1 wk1').
  - intros w1 wk1 Hw1.
    destruct (Hold _ _ Hw Hw1) as (wk1' & Hw1' & Hu & Hq & _).
    rewrite Hu, Hq. by apply (inv_worker_queue V s Hinv w1).
  - intros w1 wk1 Hw1.
    destruct (Hold _ _ Hw Hw1) as (wk1' & Hw1' & Hu & _).
    rewrite Hu. by apply (inv_worker_lock V s Hinv w1).
  - apply (inv_queue_valid V s Hinv).
  - apply (inv_queue_inj V s Hinv).
  - intros u q Hq. apply draining_insert_at; [done|].
    by apply (inv_queue_owner V s Hinv u q).
  - intros u b Hb. apply draining_insert_at; [done|].
    by apply (inv_lock_owner V s Hinv u b).
  - intros w1 wk1 Hw1.
    destruct (Hold _ _ Hw Hw1) as (wk1' & Hw1' & Hu & _ & Ht & _).
    rewrite Hu, Ht. by apply (inv_timer_worker V s Hinv w1).
  - intros t u Ht.
    destruct (inv_timer_owner V s Hinv t u Ht)
      as (Hlt & w' & wk' & Hw' & Hu & Htm).
    split; [done|]. destruct (decide (w' = w)) as [->|Hne].
    + exists w, (at_ a wk). rewrite lookup_insert_eq.
      simplify_eq. done.
    + exists w', wk'. by rewrite lookup_insert_ne.
  - intros w1 wk1 tasks Hw1.
    destruct (Hold _ _ Hw Hw1) as (wk1' & Hw1' & Hu & Hq & _ & Hk).
    rewrite Hu, Hq, Hk. by apply (inv_order V s Hinv w1).
  - apply (inv_sent_fresh V s Hinv).
  - apply (inv_sent_sorted V s Hinv).
  - intros w1 wk1 Hw1.
    destruct (Hold _ _ Hw Hw1) as (wk1' & Hw1' & Hu & _ & _ & Hk).
    rewrite Hu, Hk. by apply (inv_sent_worker V s Hinv w1).
  - intros u Hu. apply (inv_sessions_idle V s Hinv).
    intros Hd. apply Hu. by apply draining_insert_at.
  - intros w1 wk1 Hw1.
    destruct (Hold _ _ Hw Hw1) as (wk1' & Hw1' & Hu & _ & Ht & _).
    rewrite Hu, Ht. by apply (inv_sessions_open V s Hinv w1).
Qed.

(** Consequences of the invariant for one activation. *)
Lemma bot_worker_queue s w wk :
  bot_inv V s → workers V s !! w = Some wk →
  ∃ tasks, heap V s !! w_queue wk = Some tasks.
Proof.
  intros Hinv Hw. apply lookup_lt_is_Some.
  eapply (inv_queue_valid V s Hinv). by eapply (inv_worker_queue V s Hinv).
Qed.

Lemma bot_worker_task s w wk :
  bot_inv V s → workers V s !! w = Some wk →
  t_from (w_task wk) = w_user wk ∧ (t_id (w_task wk) < next_id V s)%nat.
Proof.
  intros Hinv Hw. destruct (bot_worker_queue s w wk Hinv Hw) as [tasks Hq].
  destruct (inv_order V s Hinv w wk tasks Hw Hq) as [_ Hall].
  apply Forall_cons in Hall as [[? ?] _]. done.
Qed.

Lemma bot_worker_queue_inj s w1 w2 wk1 wk2 :
  bot_inv V s → workers V s !! w1 = Some wk1 → workers V s !! w2 = Some wk2 →
  w_queue wk1 = w_queue wk2 → w1 = w2.
Proof.
  intros Hinv Hw1 Hw2 Hq.
  apply (inv_one V s Hinv w1 w2 wk1 wk2 Hw1 Hw2).
  apply (inv_queue_inj V s Hinv _ _ (w_queue wk1)).
  - by eapply (inv_worker_queue V s Hinv).
  - rewrite Hq. by eapply (inv_worker_queue V s Hinv).
Qed.

(** Activation [w] sends a fragment of the answer to its task. *)
Lemma bot_inv_send s w wk c :
  workers V s !! w = Some wk → bot_inv V s →
  bot_inv V (emit V (Send (t_id (w_task wk)) (t_from (w_task wk)) c) s).
Proof.
  intros Hw Hinv.
  destruct (bot_worker_task s w wk Hinv Hw) as [Hfrom Hid]. rewrite Hfrom.
  assert (Hsent : ∀ u,
    sent_ids u (log V s ++ [Send (t_id (w_task wk)) (w_user wk) c]) =
    sent_ids u (log V s) ++
      (if decide (w_user wk = u) then [t_id (w_task wk)] else [])).
  { intros u. rewrite sent_ids_app. simpl. by destruct (decide _). }
  split; simpl; try (by destruct Hinv).
  - intros u. rewrite Hsent, Forall_app. split.
    + apply (inv_sent_fresh V s Hinv).
    + destruct (decide _); [by apply Forall_singleton|constructor].
  - intros u. rewrite Hsent. destruct (decide _) as [<-|Hne].
    + apply StronglySorted_snoc; [apply (inv_sent_sorted V s Hinv)|].
      by apply (inv_sent_worker V s Hinv w).
    + rewrite app_nil_r. apply (inv_sent_sorted V s Hinv).
  - intros w1 wk1 Hw1. rewrite Hsent, Forall_app. split.
    + by apply (inv_sent_worker V s Hinv w1).
    + destruct (decide _) as [Hu|Hne]; [|constructor].
      assert (w = w1) as <- by (by eapply (inv_one V s Hinv)).
      simplify_eq. by apply Forall_singleton.
  - intros u Hu. rewrite beats_send. by apply (inv_sessions_idle V s Hinv).
  - intros w1 wk1 Hw1. rewrite beats_send.
    by apply (inv_sessions_open V s Hinv w1).
Qed.

(** *** What [finish] does *)

Lemma finish_next s w wk t rest :
  userLocks V s !! w_user wk = Some true →
  heap V s !! w_queue wk = Some (t :: rest) →
  finish V w wk s =
  emit V (Typing (t_from t) (ByTask (t_id t)))
    (set_workers V (<[w := with_task t wk]> (workers V s))
       (set_heap V (<[w_queue wk := rest]> (heap V s)) s)).
Proof.
  intros Hlock Hq. unfold finish, loop. simpl. rewrite Hq. simpl.
  rewrite insert_insert_eq, (insert_id (userLocks V s)) by done.
  by destruct s.
Qed.

Lemma finish_exit s w wk :
  heap V s !! w_queue wk = Some [] → finish V w wk s = ended V w wk s.
Proof.
  intros Hq. unfold finish, loop, ended. simpl. rewrite Hq.
  destruct (w_timer wk); simpl; rewrite delete_insert_eq; by destruct s.
Qed.

Lemma lookup_insert_with_task (ws : gmap nat Worker) w t wk w' wk' :
  ws !! w = Some wk → <[w := with_task t wk]> ws !! w' = Some wk' →
  ∃ wk0, ws !! w' = Some wk0 ∧ w_user wk' = w_user wk0 ∧
         w_queue wk' = w_queue wk0 ∧ w_timer wk' = w_timer wk0 ∧
         ((w' = w ∧ wk0 = wk ∧ w_task wk' = t) ∨ (w' ≠ w ∧ wk' = wk0)).
Proof.
  intros Hw. rewrite lookup_insert_Some. intros [[<- <-]|[Hne Hw']].
  - exists wk. split_and!; try done. by left.
  - exists wk'. split_and!; try done. by right.
Qed.

Lemma draining_insert_with_task s u w t wk h :
  workers V s !! w = Some wk →
  (draining V u (set_workers V (<[w := with_task t wk]> (workers V s))
                   (set_heap V h s))
   ↔ draining V u s).
Proof.
  intros Hw. unfold draining. simpl. split.
  - intros (w' & wk' & Hw' & Hu).
    destruct (lookup_insert_with_task _ _ _ _ _ _ Hw Hw')
      as (wk0 & ? & Hu' & _).
    exists w', wk0. split; [done|congruence].
  - intros (w' & wk' & Hw' & Hu). destruct (decide (w' = w)) as [->|Hne].
    + exists w, (with_task t wk). rewrite lookup_insert_eq. split; [done|].
      simpl. congruence.
    + exists w', wk'. by rewrite lookup_insert_ne.
Qed.

(** Activation [w] takes the next task of its queue. *)
Lemma bot_inv_next s w wk t rest :
  workers V s !! w = Some wk →
  heap V s !! w_queue wk = Some (t :: rest) →
  bot_inv V s →
  bot_inv V (set_workers V (<[w := with_task t wk]> (workers V s))
               (set_heap V (<[w_queue wk := rest]> (heap V s)) s)).
Proof.
  intros Hw Hq Hinv.
  assert (Hold := lookup_insert_with_task (workers V s) w t wk).
  destruct (inv_order V s Hinv w wk _ Hw Hq) as [Hsort Hall].
  rewrite fmap_cons in Hsort.
  apply StronglySorted_cons in Hsort as [Hlt Hsort].
  apply Forall_cons in Hall as [_ Hall].
  split; simpl.
  - intros w1 w2 wk1 wk2 Hw1 Hw2 Hu.
    destruct (Hold _ _ Hw Hw1) as (wk1' & Hw1' & Hu1 & _).
    destruct (Hold _ _ Hw Hw2) as (wk2' & Hw2' & Hu2 & _).
    apply (inv_one V s Hinv w1 w2 wk1' wk2'); congruence.
  - intros w1 wk1 Hw1.
    destruct (Hold _ _ Hw Hw1) as (wk1' & Hw1' & _).
    by apply (inv_key V s Hinv w1 wk1').
  - intros w1 wk1 Hw1.
    destruct (Hold _ _ Hw Hw1) as (wk1' & Hw1' & Hu & Hq' & _).
    rewrite Hu, Hq'. by apply (inv_worker_queue V s Hinv w1).
  - intros w1 wk1 Hw1.
    destruct (Hold _ _ Hw Hw1) as (wk1' & Hw1' & Hu & _).
    rewrite Hu. by apply (inv_worker_lock V s Hinv w1).
  - intros u q Hu. rewrite length_insert.
    by apply (inv_queue_valid V s Hinv u).
  - apply (inv_queue_inj V s Hinv).
  - intros u q Hu. apply draining_insert_with_task; [done|].
    by apply (inv_queue_owner V s Hinv u q).
  - intros u b Hb. apply draining_insert_with_task; [done|].
    by apply (inv_lock_owner V s Hinv u b).
  - intros w1 wk1 Hw1.
    destruct (Hold _ _ Hw Hw1) as (wk1' & Hw1' & Hu & _ & Ht & _).
    rewrite Hu, Ht. by apply (inv_timer_worker V s Hinv w1).
  - intros t' u Ht.
    destruct (inv_timer_owner V s Hinv t' u Ht)
      as (Hlt' & w' & wk' & Hw' & Hu & Htm).
    split; [done|]. destruct (decide (w' = w)) as [->|Hne].
    + exists w, (with_task t wk). rewrite lookup_insert_eq.
      simplify_eq. done.
    + exists w', wk'. by rewrite lookup_insert_ne.
  - intros w1 wk1 tasks Hw1 Htasks.
    destruct (Hold _ _ Hw Hw1)
      as (wk1' & Hw1' & Hu & Hq' & _ & [(-> & -> & Hk)|(Hne & ->)]).
    + rewrite Hq', list_lookup_insert_eq in Htasks
        by (by eapply lookup_lt_Some).
      injection Htasks as <-. rewrite Hk, Hu. done.
    + rewrite list_lookup_insert_ne in Htasks.
      * by apply (inv_order V s Hinv w1).
      * intros Heq. apply Hne. symmetry.
        by apply (bot_worker_queue_inj s w w1 wk wk1' Hinv).
  - apply (inv_sent_fresh V s Hinv).
  - apply (inv_sent_sorted V s Hinv).
  - intros w1 wk1 Hw1.
    destruct (Hold _ _ Hw Hw1)
      as (wk1' & Hw1' & Hu & _ & _ & [(-> & -> & Hk)|(Hne & ->)]).
    + rewrite Hk, Hu.
      eapply Forall_impl; [by apply (inv_sent_worker V s Hinv w)|].
      simpl. intros i Hi. apply Forall_cons in Hlt as [Hlt _]. lia.
    + by apply (inv_sent_worker V s Hinv w1).
  - intros u Hu. apply (inv_sessions_idle V s Hinv).
    intros Hd. apply Hu. by apply draining_insert_with_task.
  - intros w1 wk1 Hw1.
    destruct (Hold _ _ Hw Hw1) as (wk1' & Hw1' & Hu & _ & Ht & _).
    rewrite Hu, Ht. by apply (inv_sessions_open V s Hinv w1).
Qed.

(** The projections of the log of [ended]. *)
Lemma ended_sent_ids s w wk u :
  sent_ids u (log V (ended V w wk s)) = sent_ids u (log V s).
Proof.
  unfold ended. destruct (w_timer wk); simpl; [|done].
  rewrite sent_ids_app. simpl. by rewrite app_nil_r.
Qed.

Lemma ended_beats_other s w wk u :
  u ≠ w_user wk → beats u (log V (ended V w wk s)) = beats u (log V s).
Proof.
  intros Hne. unfold ended. destruct (w_timer wk); simpl; [|done].
  rewrite beats_app. simpl. rewrite decide_False by done.
  by rewrite app_nil_r.
Qed.

Lemma ended_beats_own s w wk :
  beats (w_user wk) (log V (ended V w wk s)) =
  beats (w_user wk) (log V s) ++
    match w_timer wk with Some t => [(false, t)] | None => [] end.
Proof.
  unfold ended. destruct (w_timer wk); simpl; [|by rewrite app_nil_r].
  rewrite beats_app. simpl. by rewrite decide_True.
Qed.

Lemma ended_fields s w wk :
  workers V (ended V w wk s) = delete w (workers V s) ∧
  userQueues V (ended V w wk s) = delete (w_user wk) (userQueues V s) ∧
  userLocks V (ended V w wk s) = delete (w_user wk) (userLocks V s) ∧
  heap V (ended V w wk s) = heap V s ∧
  next_id V (ended V w wk s) = next_id V s ∧
  next_timer V (ended V w wk s) = next_timer V s ∧
  intervals V (ended V w wk s) =
    match w_timer wk with
    | Some t => delete t (intervals V s)
    | None => intervals V s
    end.
Proof. unfold ended. by destruct (w_timer wk). Qed.

(** The loop of activation [w] ends. *)
Lemma bot_inv_ended s w wk :
  workers V s !! w = Some wk → bot_inv V s → bot_inv V (ended V w wk s).
Proof.
  intros Hw Hinv.
  destruct (ended_fields s w wk) as (Ew & Eq & El & Eh & Ei & Et & Ev).
  assert (Hother : ∀ w1 wk1,
    delete w (workers V s) !! w1 = Some wk1 →
    workers V s !! w1 = Some wk1 ∧ w1 ≠ w ∧ w_user wk1 ≠ w_user wk).
  { intros w1 wk1. rewrite lookup_delete_Some. intros [Hne Hw1].
    split_and!; [done|done|]. intros Hu. apply Hne.
    symmetry. by apply (inv_one V s Hinv w1 w wk1 wk). }
  assert (Hdr : ∀ u, u ≠ w_user wk → draining V u s →
                     draining V u (ended V w wk s)).
  { intros u Hne (w1 & wk1 & Hw1 & Hu). exists w1, wk1. rewrite Ew.
    split; [|done]. rewrite lookup_delete_ne; [done|].
    intros ->. by simplify_eq. }
  assert (Hgone : ¬ draining V (w_user wk) (ended V w wk s)).
  { intros (w1 & wk1 & Hw1 & Hu). rewrite Ew in Hw1.
    by destruct (Hother _ _ Hw1) as (_ & _ & ?). }
  split; rewrite ?Ew, ?Eq, ?El, ?Eh, ?Ei, ?Et, ?Ev.
  - intros w1 w2 wk1 wk2 Hw1 Hw2.
    destruct (Hother _ _ Hw1) as (? & _). destruct (Hother _ _ Hw2) as (? & _).
    by apply (inv_one V s Hinv).
  - intros w1 wk1 Hw1. destruct (Hother _ _ Hw1) as (? & _).
    by apply (inv_key V s Hinv w1 wk1).
  - intros w1 wk1 Hw1. destruct (Hother _ _ Hw1) as (? & _ & ?).
    rewrite lookup_delete_ne by done. by apply (inv_worker_queue V s Hinv w1).
  - intros w1 wk1 Hw1. destruct (Hother _ _ Hw1) as (? & _ & ?).
    rewrite lookup_delete_ne by done. by apply (inv_worker_lock V s Hinv w1).
  - intros u q. rewrite lookup_delete_Some. intros [_ Hu].
    by apply (inv_queue_valid V s Hinv u).
  - intros u1 u2 q. rewrite !lookup_delete_Some. intros [_ H1] [_ H2].
    by apply (inv_queue_inj V s Hinv u1 u2 q).
  - intros u q. rewrite lookup_delete_Some. intros [Hne Hu].
    apply Hdr; [done|]. by apply (inv_queue_owner V s Hinv u q).
  - intros u b. rewrite lookup_delete_Some. intros [Hne Hu].
    apply Hdr; [done|]. by apply (inv_lock_owner V s Hinv u b).
  - intros w1 wk1 Hw1. destruct (Hother _ _ Hw1) as (Hw1' & _ & Hu).
    pose proof (inv_timer_worker V s Hinv w1 wk1 Hw1') as H1.
    pose proof (inv_timer_worker V s Hinv w wk Hw) as H2.
    destruct (w_timer wk1) as [t1|]; [|done]. destruct H1 as [Hhb H1].
    split; [done|]. destruct (w_timer wk) as [t|]; [|done].
    destruct H2 as [_ H2]. rewrite lookup_delete_ne; [done|].
    intros ->. congruence.
  - intros t' u Ht'.
    assert (Hold : intervals V s !! t' = Some u ∧ w_timer wk ≠ Some t').
    { destruct (w_timer wk) as [t|]; [|done].
      apply lookup_delete_Some in Ht' as [Hne Ht']. split; [done|congruence]. }
    destruct Hold as [Hi Hne].
    destruct (inv_timer_owner V s Hinv t' u Hi)
      as (Hlt & w1 & wk1 & Hw1 & Hu & Htm).
    split; [done|]. exists w1, wk1. split_and!; [|done|done].
    rewrite lookup_delete_ne; [done|]. intros ->. by simplify_eq.
  - intros w1 wk1 tasks Hw1. destruct (Hother _ _ Hw1) as (? & _).
    by apply (inv_order V s Hinv w1).
  - intros u. rewrite ended_sent_ids. apply (inv_sent_fresh V s Hinv).
  - intros u. rewrite ended_sent_ids. apply (inv_sent_sorted V s Hinv).
  - intros w1 wk1 Hw1. destruct (Hother _ _ Hw1) as (? & _).
    rewrite ended_sent_ids. by apply (inv_sent_worker V s Hinv w1).
  - intros u Hu. destruct (decide (u = w_user wk)) as [->|Hne].
    + rewrite ended_beats_own.
      pose proof (inv_sessions_open V s Hinv w wk Hw) as Hs.
      destruct (w_timer wk) as [t|].
      * by apply Sessions_stop.
      * by rewrite app_nil_r.
    + rewrite ended_beats_other by done.
      apply (inv_sessions_idle V s Hinv). intros Hd. apply Hu. by apply Hdr.
  - intros w1 wk1 Hw1. destruct (Hother _ _ Hw1) as (? & _ & ?).
    rewrite ended_beats_other by done.
    by apply (inv_sessions_open V s Hinv w1).
Qed.

(** [finish] keeps the invariant. *)
Lemma bot_inv_finish s w wk :
  workers V s !! w = Some wk → bot_inv V s → bot_inv V (finish V w wk s).
Proof.
  intros Hw Hinv.
  destruct (bot_worker_queue s w wk Hinv Hw) as [[|t rest] Hq].
  - rewrite finish_exit by done. by apply bot_inv_ended.
  - rewrite (finish_next s w wk t rest); [|by eapply inv_worker_lock|done].
    apply bot_inv_emit_quiet; [done|]. by apply bot_inv_next.
Qed.

(** [settle] keeps the invariant. *)
Lemma bot_inv_send_next s w wk chunks :
  workers V s !! w = Some wk → bot_inv V s →
  bot_inv V (send_next V w wk chunks s).
Proof.
  intros Hw Hinv. destruct chunks as [|c rest]; simpl.
  - by apply bot_inv_finish.
  - apply (bot_inv_at (emit V _ s) w _ wk); [done|]. by apply (bot_inv_send s w wk).
Qed.

Lemma bot_inv_settle s w r : bot_inv V s → bot_inv V (settle V w r s).
Proof.
  intros Hinv. unfold settle.
  destruct (workers V s !! w) as [wk|] eqn:Hw; [|done].
  destruct r as [v|].
  - destruct (w_at wk).
    + apply (bot_inv_at (emit V _ s) w _ wk); [done|]. by apply bot_inv_emit_quiet.
    + by apply bot_inv_send_next.
    + by apply bot_inv_send_next.
  - apply bot_inv_finish; [done|]. by apply bot_inv_emit_quiet.
Qed.

Lemma bot_inv_tick s t : bot_inv V s → bot_inv V (tick V t s).
Proof.
  intros Hinv. unfold tick. destruct (intervals V s !! t); [|done].
  by apply bot_inv_emit_quiet.
Qed.

(** A message joins the queue that its sender has. *)
Lemma bot_inv_pushed a from body q s :
  bot_inv V s → userQueues V s !! from = Some q →
  bot_inv V (pushed V a from body q s).
Proof.
  intros Hinv Hq.
  destruct (lookup_lt_is_Some_2 (heap V s) q) as [old Hold];
    [by eapply inv_queue_valid|].
  unfold pushed. rewrite Hold. simpl.
  split; unfold draining; simpl.
  - apply (inv_one V s Hinv).
  - intros w wk Hw. pose proof (inv_key V s Hinv w wk Hw). lia.
  - apply (inv_worker_queue V s Hinv).
  - apply (inv_worker_lock V s Hinv).
  - intros u q' Hu. rewrite length_insert. by eapply inv_queue_valid.
  - apply (inv_queue_inj V s Hinv).
  - apply (inv_queue_owner V s Hinv).
  - apply (inv_lock_owner V s Hinv).
  - apply (inv_timer_worker V s Hinv).
  - apply (inv_timer_owner V s Hinv).
  - intros w wk tasks Hw Hh.
    destruct (decide (w_queue wk = q)) as [Heq|Hne].
    + subst q.
      rewrite list_lookup_insert_eq in Hh by (by eapply lookup_lt_Some).
      simplify_eq.
      destruct (inv_order V s Hinv w wk old Hw Hold) as [Hs Ha].
      assert (w_user wk = from) as Hu.
      { eapply (inv_queue_inj V s Hinv); [|done].
        by eapply inv_worker_queue. }
      split.
      * rewrite fmap_app, app_comm_cons.
        apply StronglySorted_snoc; [exact Hs|].
        apply (proj2 (Forall_fmap t_id _ (w_task wk :: old))).
        eapply Forall_impl; [exact Ha|]. simpl. intros t [? _]. done.
      * rewrite app_comm_cons, Forall_app, Forall_singleton. split.
        -- eapply Forall_impl; [exact Ha|]. simpl. intros t [? ?].
           split; [lia|done].
        -- simpl. split; [lia|done].
    + rewrite list_lookup_insert_ne in Hh by done.
      destruct (inv_order V s Hinv w wk tasks Hw Hh) as [Hs Ha].
      split; [done|]. eapply Forall_impl; [exact Ha|].
      simpl. intros t [? ?]. split; [lia|done].
  - intros u. eapply Forall_impl; [apply (inv_sent_fresh V s Hinv u)|].
    simpl. intros. lia.
  - apply (inv_sent_sorted V s Hinv).
  - apply (inv_sent_worker V s Hinv).
  - apply (inv_sessions_idle V s Hinv).
  - apply (inv_sessions_open V s Hinv).
Qed.

(** A message starts the queue of its sender and an activation of
    [handleQueue]. *)
Lemma bot_inv_spawned a from body s :
  bot_inv V s → userQueues V s !! from = None →
  bot_inv V (spawned V a from body s).
Proof.
  intros Hinv Hq.
  assert (Hquiet : ¬ draining V from s).
  { intros (w & wk & Hw & Hu).
    pose proof (inv_worker_queue V s Hinv w wk Hw) as H.
    rewrite Hu in H. congruence. }
  assert (Hfree : ∀ w wk, workers V s !! w = Some wk →
                          w ≠ next_id V s ∧ w_user wk ≠ from).
  { intros w wk Hw. split.
    - pose proof (inv_key V s Hinv w wk Hw). lia.
    - intros Hu. apply Hquiet. by exists w, wk. }
  assert (Hcases : ∀ w wk,
    workers V (spawned V a from body s) !! w = Some wk →
    (w = next_id V s ∧ wk = spawn_worker V from body s) ∨
    (w ≠ next_id V s ∧ workers V s !! w = Some wk ∧ w_user wk ≠ from)).
  { intros w wk. unfold spawned. simpl. rewrite lookup_insert_Some.
    intros [[<- <-]|[Hne Hw]]; [by left|right].
    split_and!; [done|done|]. by apply (Hfree w wk). }
  assert (Hdr : ∀ u, draining V u s →
                     draining V u (spawned V a from body s)).
  { intros u (w & wk & Hw & Hu). exists w, wk. split; [|done].
    unfold spawned. simpl. rewrite lookup_insert_ne; [done|].
    intros E. destruct (Hfree w wk Hw). congruence. }
  assert (Hdrn : draining V from (spawned V a from body s)).
  { exists (next_id V s), (spawn_worker V from body s). split; [|done].
    unfold spawned. simpl. apply lookup_insert_eq. }
  assert (Hsent : ∀ u, sent_ids u (log V (spawned V a from body s)) =
                       sent_ids u (log V s)).
  { intros u. unfold spawned. simpl. rewrite !sent_ids_app.
    destruct (heartbeat V); simpl; by rewrite ?app_nil_r. }
  assert (Hbo : ∀ u, u ≠ from →
    beats u (log V (spawned V a from body s)) = beats u (log V s)).
  { intros u Hne. unfold spawned. simpl. rewrite !beats_app.
    destruct (heartbeat V); simpl; rewrite ?decide_False by congruence;
      by rewrite ?app_nil_r. }
  assert (Hbown : beats from (log V (spawned V a from body s)) =
    beats from (log V s) ++
    if heartbeat V then [(true, next_timer V s)] else []).
  { unfold spawned. simpl. rewrite !beats_app.
    destruct (heartbeat V); simpl; rewrite ?decide_True by done;
      by rewrite ?app_nil_r. }
  split.
  - intros w1 w2 wk1 wk2 H1 H2 Hu.
    destruct (Hcases _ _ H1) as [[-> ->]|(? & ? & ?)],
             (Hcases _ _ H2) as [[-> ->]|(? & ? & ?)];
      simpl in *; try done; try congruence.
    by eapply (inv_one V s Hinv).
  - intros w wk H. unfold spawned. simpl.
    destruct (Hcases _ _ H) as [[-> ->]|(? & Hw & ?)]; [lia|].
    pose proof (inv_key V s Hinv w wk Hw). lia.
  - intros w wk H. unfold spawned. simpl.
    destruct (Hcases _ _ H) as [[-> ->]|(? & Hw & ?)].
    + apply lookup_insert_eq.
    + rewrite lookup_insert_ne by congruence. by eapply inv_worker_queue.
  - intros w wk H. unfold spawned. simpl.
    destruct (Hcases _ _ H) as [[-> ->]|(? & Hw & ?)].
    + apply lookup_insert_eq.
    + rewrite lookup_insert_ne by congruence. by eapply inv_worker_lock.
  - intros u q. unfold spawned. simpl.
    rewrite lookup_insert_Some, length_app. simpl.
    intros [[_ <-]|[_ Hu]]; [lia|].
    pose proof (inv_queue_valid V s Hinv u q Hu). lia.
  - intros u1 u2 q. unfold spawned. simpl. rewrite !lookup_insert_Some.
    intros [[E1 E1']|[N1 H1]] [[E2 E2']|[N2 H2]].
    + congruence.
    + subst. apply (inv_queue_valid V s Hinv) in H2. lia.
    + subst. apply (inv_queue_valid V s Hinv) in H1. lia.
    + by eapply (inv_queue_inj V s Hinv).
  - intros u q Hu. destruct (decide (u = from)) as [->|Hne]; [done|].
    apply Hdr. unfold spawned in Hu. simpl in Hu.
    rewrite lookup_insert_ne in Hu by done. by eapply inv_queue_owner.
  - intros u b Hu. destruct (decide (u = from)) as [->|Hne]; [done|].
    apply Hdr. unfold spawned in Hu. simpl in Hu.
    rewrite lookup_insert_ne in Hu by done. by eapply inv_lock_owner.
  - intros w wk H.
    destruct (Hcases _ _ H) as [[-> ->]|(? & Hw & ?)].
    + unfold spawned, spawn_worker. simpl.
      destruct (heartbeat V); [|done]. split; [done|]. apply lookup_insert_eq.
    + pose proof (inv_timer_worker V s Hinv w wk Hw) as Ht.
      destruct (w_timer wk) as [t1|]; [|done]. destruct Ht as [Hb Ht].
      split; [done|]. unfold spawned. simpl. rewrite Hb.
      rewrite lookup_insert_ne; [done|].
      destruct (inv_timer_owner V s Hinv t1 _ Ht) as [Hlt _]. lia.
  - intros t u. unfold spawned. simpl.
    destruct (heartbeat V) eqn:Hb.
    + rewrite lookup_insert_Some. intros [[<- <-]|[Hne Ht]].
      * split; [lia|].
        exists (next_id V s), (spawn_worker V from body s).
        split_and!; [apply lookup_insert_eq|done|].
        unfold spawn_worker. simpl. by rewrite Hb.
      * destruct (inv_timer_owner V s Hinv t u Ht)
          as (Hlt & w & wk & Hw & Hu & Htm).
        split; [lia|]. exists w, wk. split_and!; [|done|done].
        rewrite lookup_insert_ne; [done|].
        destruct (Hfree w wk Hw). congruence.
    + intros Ht. destruct (inv_timer_owner V s Hinv t u Ht)
        as (Hlt & w & wk & Hw & Hu & Htm).
      split; [done|]. exists w, wk. split_and!; [|done|done].
      rewrite lookup_insert_ne; [done|].
      destruct (Hfree w wk Hw). congruence.
  - intros w wk tasks H Hh.
    destruct (Hcases _ _ H) as [[-> ->]|(? & Hw & ?)].
    + unfold spawned, spawn_worker in Hh. simpl in Hh.
      rewrite list_lookup_middle in Hh by done. simplify_eq.
      unfold spawned, spawn_worker. simpl. split.
      * repeat constructor.
      * repeat constructor.
    + unfold spawned in Hh. simpl in Hh.
      rewrite lookup_app_l in Hh
        by (eapply (inv_queue_valid V s Hinv); by eapply inv_worker_queue).
      destruct (inv_order V s Hinv w wk tasks Hw Hh) as [Hs Ha].
      split; [done|]. eapply Forall_impl; [exact Ha|].
      unfold spawned. simpl. intros t [? ?]. split; [lia|done].
  - intros u. rewrite Hsent.
    eapply Forall_impl; [apply (inv_sent_fresh V s Hinv u)|].
    unfold spawned. simpl. intros. lia.
  - intros u. rewrite Hsent. apply (inv_sent_sorted V s Hinv).
  - intros w wk H. rewrite Hsent.
    destruct (Hcases _ _ H) as [[-> ->]|(? & Hw & ?)].
    + eapply Forall_impl; [apply (inv_sent_fresh V s Hinv from)|].
      simpl. intros. lia.
    + by eapply inv_sent_worker.
  - intros u Hu.
    assert (u ≠ from) by (intros ->; done).
    rewrite Hbo by done. apply (inv_sessions_idle V s Hinv).
    intros Hd. apply Hu. by apply Hdr.
  - intros w wk H.
    destruct (Hcases _ _ H) as [[-> ->]|(? & Hw & ?)].
    + change (w_user (spawn_worker V from body s)) with from.
      rewrite Hbown. unfold spawn_worker. simpl.
      pose proof (inv_sessions_idle V s Hinv from Hquiet).
      destruct (heartbeat V).
      * by apply Sessions_start.
      * by rewrite app_nil_r.
    + rewrite Hbo by done. by eapply inv_sessions_open.
Qed.

Lemma bot_no_queue s u :
  bot_inv V s → userQueues V s !! u = None →
  ¬ draining V u s ∧ userLocks V s !! u = None.
Proof.
  intros Hinv Hq.
  assert (Hquiet : ¬ draining V u s).
  { intros (w & wk & Hw & Hu).
    pose proof (inv_worker_queue V s Hinv w wk Hw) as H.
    rewrite Hu in H. congruence. }
  split; [done|].
  destruct (userLocks V s !! u) as [b|] eqn:E; [|done].
  destruct Hquiet. by eapply inv_lock_owner.
Qed.

Lemma bot_queue_locked s u q :
  bot_inv V s → userQueues V s !! u = Some q →
  userLocks V s !! u = Some true.
Proof.
  intros Hinv Hq.
  destruct (inv_queue_owner V s Hinv u q Hq) as (w & wk & Hw & <-).
  by eapply inv_worker_lock.
Qed.

Lemma list_insert_last {A} (l : list A) (x y : A) :
  <[length l := x]> (l ++ [y]) = l ++ [x].
Proof.
  rewrite insert_app_r_alt by lia. by rewrite Nat.sub_diag.
Qed.

(** What [welcomeFlow] does in a reachable state. *)
Lemma welcomeFlow_eq from body now s :
  bot_inv V s →
  welcomeFlow V from body now s =
  match admission V (adm V s) from now with
  | (a, Ignore) => set_adm V a (set_next_id V (S (next_id V s)) s)
  | (a, Deny notice) =>
      emit V (Notice (next_id V s) from notice)
        (set_adm V a (set_next_id V (S (next_id V s)) s))
  | (a, Accept) =>
      match userQueues V s !! from with
      | Some q => pushed V a from body q s
      | None => spawned V a from body s
      end
  end.
Proof.
  intros Hinv. unfold welcomeFlow. simpl.
  destruct (admission V (adm V s) from now) as [a [|n|]]; [done|done|].
  simpl. destruct (userQueues V s !! from) as [q|] eqn:Hq.
  - simpl. rewrite Hq. unfold locked. simpl.
    rewrite (bot_queue_locked s from q Hinv Hq). reflexivity.
  - destruct (bot_no_queue s from Hinv Hq) as [_ Hl].
    simpl. rewrite lookup_insert_eq. simpl.
    rewrite list_lookup_middle by done. simpl.
    unfold locked. simpl. rewrite Hl. simpl.
    unfold handleQueue. simpl. rewrite lookup_insert_eq.
    unfold locked. simpl. rewrite Hl. simpl.
    rewrite list_insert_last.
    unfold spawned, spawn_worker.
    destruct (heartbeat V); unfold loop; simpl;
      rewrite list_lookup_middle by done; simpl;
      rewrite list_insert_last; unfold set_workers, emit; simpl;
      rewrite <- ?app_assoc; reflexivity.
Qed.

Lemma bot_inv_welcomeFlow from body now s :
  bot_inv V s → bot_inv V (welcomeFlow V from body now s).
Proof.
  intros Hinv. rewrite welcomeFlow_eq by done.
  destruct (admission V (adm V s) from now) as [a [|n|]].
  - by apply bot_inv_arrival.
  - apply bot_inv_emit_quiet; [done|]. by apply bot_inv_arrival.
  - destruct (userQueues V s !! from) as [q|] eqn:Hq.
    + by apply bot_inv_pushed.
    + by apply bot_inv_spawned.
Qed.

Lemma bot_inv_step s e : bot_inv V s → bot_inv V (step V s e).
Proof.
  intros Hinv. destruct e as [from body now|w r|t]; simpl.
  - by apply bot_inv_welcomeFlow.
  - by apply bot_inv_settle.
  - by apply bot_inv_tick.
Qed.

Lemma run_snoc evs e : run V (evs ++ [e]) = step V (run V evs) e.
Proof. unfold run. by rewrite foldl_app. Qed.

(** Every state that the events reach satisfies the invariant. *)
Lemma bot_inv_run evs : bot_inv V (run V evs).
Proof.
  induction evs as [|e evs IH] using rev_ind.
  - apply bot_inv_init.
  - rewrite run_snoc. by apply bot_inv_step.
Qed.

End BotInvariant.

(** ** Answers in the order of arrival, one completion call at a time *)

Section BotOrder.
Import Bot.
Variable V : Variant.

Lemma sent_ids_ordered (l l1 l2 l3 : list Action) (u : string) (i j : nat)
    (ci cj : list N) :
  StronglySorted le (sent_ids u l) →
  l = l1 ++ Send i u ci :: l2 ++ Send j u cj :: l3 →
  (i ≤ j)%nat.
Proof.
  intros Hs ->. rewrite sent_ids_app in Hs. simpl in Hs.
  rewrite decide_True in Hs by done.
  apply StronglySorted_app in Hs as (_ & _ & Hs).
  apply StronglySorted_cons in Hs as [Hs _].
  rewrite sent_ids_app in Hs. simpl in Hs.
  rewrite decide_True in Hs by done.
  rewrite Forall_app, Forall_cons in Hs. by destruct Hs as (_ & ? & _).
Qed.

Lemma size_filter_unique {A} (P : nat * A → Prop) `{!∀ x, Decision (P x)}
    (m : gmap nat A) :
  (∀ k1 k2 v1 v2, m !! k1 = Some v1 → m !! k2 = Some v2 →
                  P (k1, v1) → P (k2, v2) → k1 = k2) →
  (size (filter P m) ≤ 1)%nat.
Proof.
  intros Hu. destruct (decide (size (filter P m) = 0%nat)) as [E|Hne]; [lia|].
  assert (filter P m ≠ ∅) as Hne'.
  { intros E. apply Hne. rewrite E. apply map_size_empty. }
  - apply map_choose in Hne' as (k & v & Hkv).
    assert (filter P m = {[k := v]}) as ->; [|by rewrite map_size_singleton].
    apply map_eq. intros k'. destruct (decide (k' = k)) as [->|Hk].
    + by rewrite lookup_singleton_eq.
    + rewrite lookup_singleton_ne by done.
      destruct (filter P m !! k') as [v'|] eqn:E; [|done].
      apply map_lookup_filter_Some in E as [? ?].
      apply map_lookup_filter_Some in Hkv as [? ?].
      destruct Hk. by eapply Hu.
Qed.

(** The lock of the generic loop: a user has at most one completion call
    in flight, in every variant that drains through [userLocks]. *)
Lemma bot_one_ask_in_flight (evs : list Event) (u : string) :
  (asks_in_flight V u (run V evs) ≤ 1)%nat.
Proof.
  unfold asks_in_flight. apply size_filter_unique.
  intros k1 k2 wk1 wk2 H1 H2 [Hu1 _] [Hu2 _]. simpl in *.
  eapply (inv_one V _ (bot_inv_run V evs)); [done|done|congruence].
Qed.

End BotOrder.

(** C1.  In app.ts, the answer fragments sent to one user appear in the
    order in which the user's messages arrived: whenever a fragment of the
    message numbered [i] is sent before a fragment of the message numbered
    [j] to the same user, [i] arrived no later than [j].  Arrival numbers
    are given by [welcomeFlow], which pushes on the tail of the queue;
    [handleQueue] shifts from its head.  Tasks whose completion call fails
    send no fragment. *)
Theorem responses_in_arrival_order (evs : list Bot.Event) (u : string)
    (l1 l2 l3 : list Bot.Action) (i j : nat) (ci cj : list N) :
  Bot.log App.variant (Bot.run App.variant evs) =
    l1 ++ Bot.Send i u ci :: l2 ++ Bot.Send j u cj :: l3 →
  (i ≤ j)%nat.
Proof.
  intros H. eapply sent_ids_ordered; [|exact H].
  apply inv_sent_sorted, bot_inv_run.
Qed.

(** Two messages of one user, the first answered in two fragments. *)
Lemma responses_in_arrival_order_witness :
  let evs :=
    [Bot.Message "u" [97%N] 0; Bot.Message "u" [98%N] 1;
     Bot.Settle 0 (Bot.Fulfilled []);
     Bot.Settle 0 (Bot.Fulfilled [120%N; 10%N; 10%N; 121%N]);
     Bot.Settle 0 (Bot.Fulfilled []); Bot.Settle 0 (Bot.Fulfilled []);
     Bot.Settle 0 (Bot.Fulfilled []); Bot.Settle 0 (Bot.Fulfilled [122%N])] in
  Bot.log App.variant (Bot.run App.variant evs) =
    [Bot.Typing "u" (Bot.ByTask 0); Bot.Ask 0 "u" [97%N];
     Bot.Send 0 "u" [120%N]] ++
    Bot.Send 0 "u" [121%N] ::
    [Bot.Typing "u" (Bot.ByTask 1); Bot.Ask 1 "u" [98%N]] ++
    Bot.Send 1 "u" [122%N] :: [] ∧
  (0 ≤ 1)%nat.
Proof.
  intros evs.
  assert (Bot.log App.variant (Bot.run App.variant evs) =
    [Bot.Typing "u" (Bot.ByTask 0); Bot.Ask 0 "u" [97%N];
     Bot.Send 0 "u" [120%N]] ++
    Bot.Send 0 "u" [121%N] ::
    [Bot.Typing "u" (Bot.ByTask 1); Bot.Ask 1 "u" [98%N]] ++
    Bot.Send 1 "u" [122%N] :: []) as H by (vm_compute; reflexivity).
  split; [exact H|].
  exact (responses_in_arrival_order evs "u" _ _ _ 0 1 _ _ H).
Defined.

(** ** The typing interval *)

Section BotSilence.
Import Bot.
Variable V : Variant.
Implicit Types (s : St V) (u : string) (wk : Worker).








Lemma run_app evs evs' : run V (evs ++ evs') = foldl (step V) (run V evs) evs'.
Proof. unfold run. by rewrite foldl_app. Qed.



End BotSilence.



(** ** Completion calls of one user at the same time (part_001) *)

(** C2.  part_001 does not keep the completion calls of one user apart.
    The user's first message opens a 24-hour window and is answered.  A
    second message arrives one millisecond before the window ends and its
    completion call is in flight when a third message arrives one
    millisecond later: [rateLimitUser] replaces the user's object by a new
    one with [processing: false] and an empty queue, so [welcomeFlow]
    starts a second [handleQueue], and the user has two completion calls
    in flight. *)
Theorem part001_two_completions_in_flight :
  let evs :=
    [Part001.Message "a" [104%N] 0;
     Part001.Settle 0 (Bot.Fulfilled []);
     Part001.Settle 0 (Bot.Fulfilled [111%N]);
     Part001.Settle 0 (Bot.Fulfilled []);
     Part001.Message "a" [49%N] (Part001.RESET_PERIOD - 1);
     Part001.Settle 1 (Bot.Fulfilled []);
     Part001.Message "a" [50%N] Part001.RESET_PERIOD;
     Part001.Settle 2 (Bot.Fulfilled [])] in
  Part001.asks_in_flight "a" (Part001.run evs) = 2%nat ∧
  Part001.log (Part001.run evs) =
    [Part001.SetInterval 0 "a"; Part001.Typing "a" (Bot.ByTask 0);
     Part001.Ask 0 "a" [104%N]; Part001.Send 0 "a" [111%N];
     Part001.ClearInterval 0 "a";
     Part001.SetInterval 1 "a"; Part001.Typing "a" (Bot.ByTask 1);
     Part001.Ask 1 "a" [49%N];
     Part001.SetInterval 2 "a"; Part001.Typing "a" (Bot.ByTask 2);
     Part001.Ask 2 "a" [50%N]].
Proof. intros evs. split; vm_compute; reflexivity. Qed.

(** ** A completion call that fails *)

Section BotFailure.
Import Bot.
Variable V : Variant.
Implicit Types (s : St V) (wk : Worker).

(** The loop of activation [w] back at its test, with a task queued. *)
Lemma finish_takes_next s w wk t rest :
  heap V s !! w_queue wk = Some (t :: rest) →
  log V (finish V w wk s) = log V s ++ [Typing (t_from t) (ByTask (t_id t))] ∧
  workers V (finish V w wk s) !! w = Some (with_task t wk) ∧
  heap V (finish V w wk s) !! w_queue wk = Some rest.
Proof.
  intros Hq. unfold finish, loop. simpl. rewrite Hq. simpl.
  split_and!; [done|apply lookup_insert_eq|].
  apply list_lookup_insert_eq. by eapply lookup_lt_Some.
Qed.

(** The same with the queue empty. *)
Lemma finish_leaves s w wk :
  heap V s !! w_queue wk = Some [] →
  log V (finish V w wk s) =
    log V s ++ match w_timer wk with
               | Some t => [ClearInterval t (w_user wk)]
               | None => []
               end ∧
  workers V (finish V w wk s) !! w = None ∧
  userQueues V (finish V w wk s) !! w_user wk = None ∧
  userLocks V (finish V w wk s) !! w_user wk = None.
Proof.
  intros Hq. unfold finish, loop. simpl. rewrite Hq.
  destruct (w_timer wk); simpl;
    rewrite ?app_nil_r, !lookup_delete_eq; done.
Qed.

End BotFailure.

Section Part001Failure.
Import Part001.
Implicit Types (s : St) (wk : Worker).








End Part001Failure.



(** ** The fragments of a response *)

Section Fragments.
Import JsText.

Lemma split_blank_nonempty s : split_blank s ≠ [].
Proof.
  destruct (split_blank_paragraphs s); done.
Qed.

Lemma replace_delim_prefix (o : N) opn suf repl a b :
  o ∉ a →
  replace_delim (o :: opn) suf repl (a ++ b) =
  a ++ replace_delim (o :: opn) suf repl b.
Proof.
  induction a as [|c a IH]; [done|]. rewrite not_elem_of_cons.
  intros [Hc Ha]. cbn [app]. rewrite replace_delim_cons by done.
  unfold match_delim. rewrite starts_with_head_ne by done.
  by rewrite IH.
Qed.

End Fragments.

Section SendLoop.
Import Bot.
Variable V : Variant.
Implicit Types (s : St V) (wk : Worker).

Lemma settle_after_send s w wk c rest v :
  settle V w (Fulfilled v) (send_next V w wk (c :: rest) s) =
  send_next V w (at_ (AwaitSend rest) wk) rest
    (send_next V w wk (c :: rest) s).
Proof. unfold settle. simpl. by rewrite lookup_insert_eq. Qed.

(** The [for] loop of [processUserMessage]: one fragment is sent, and each
    time the send settles the next one is. *)
Lemma send_all s w wk c chunks :
  let s' := foldl (step V) (send_next V w wk (c :: chunks) s)
              (replicate (length chunks) (Settle w (Fulfilled []))) in
  log V s' =
    log V s ++ (Send (t_id (w_task wk)) (t_from (w_task wk)) <$> c :: chunks) ∧
  workers V s' !! w = Some (at_ (AwaitSend []) wk).
Proof.
  revert s wk c. induction chunks as [|c' chunks IH]; intros s wk c.
  - simpl. split; [done|apply lookup_insert_eq].
  - cbn [length replicate foldl step]. rewrite settle_after_send.
    destruct (IH (send_next V w wk (c :: c' :: chunks) s)
                 (at_ (AwaitSend (c' :: chunks)) wk) c') as [E1 E2].
    split; [|exact E2]. rewrite E1. simpl. by rewrite <- app_assoc.
Qed.

End SendLoop.

Section Part001Send.
Import Part001.
Implicit Types (s : St) (wk : Worker).

Lemma part001_settle_after_send s w wk c rest v :
  settle w (Fulfilled v) (send_next w wk (c :: rest) s) =
  send_next w (at_ (AwaitSend rest) wk) rest (send_next w wk (c :: rest) s).
Proof. unfold settle. simpl. by rewrite lookup_insert_eq. Qed.

Lemma part001_send_all s w wk c chunks :
  let s' := foldl step (send_next w wk (c :: chunks) s)
              (replicate (length chunks) (Settle w (Fulfilled []))) in
  log s' =
    log s ++ (Send (t_id (w_task wk)) (t_from (w_task wk)) <$> c :: chunks) ∧
  workers s' !! w = Some (at_ (AwaitSend []) wk).
Proof.
  revert s wk c. induction chunks as [|c' chunks IH]; intros s wk c.
  - simpl. split; [done|apply lookup_insert_eq].
  - cbn [length replicate foldl step]. rewrite part001_settle_after_send.
    destruct (IH (send_next w wk (c :: c' :: chunks) s)
                 (at_ (AwaitSend (c' :: chunks)) wk) c') as [E1 E2].
    split; [|exact E2]. rewrite E1. simpl. by rewrite <- app_assoc.
Qed.

End Part001Send.

(** C6.  The fragments of a response.  Both files split at runs of two or
    more line feeds and send the pieces one by one, in order.  part_001
    splits the response as it came and cleans each piece: trim, removal
    of the lenticular citation markers, every doubled star made single,
    bullets removed.  app.ts first removes the square-bracket groups and
    turns each doubled-star emphasis into a single-star one in the whole
    response, then splits what is left and trims the pieces; so the
    pieces are the paragraphs of the cleaned text, not of the response.
    Two paragraphs around one blank line give two fragments in part_001;
    in app.ts they do when the two cleaned paragraphs are still
    paragraphs. *)
Theorem response_fragments :
  (∀ r, ∃ ps, JsText.Paragraphs r ps) ∧
  (∀ r ps, JsText.Paragraphs r ps →
     Part001.fragments r = Part001.clean_chunk <$> ps) ∧
  (∀ r ps, JsText.Paragraphs (App.cleanedResponse r) ps →
     App.fragments r = JsText.trim <$> ps) ∧
  (∀ p1 p2,
     JsText.has_blank_line p1 = false → JsText.has_blank_line p2 = false →
     last p1 ≠ Some JsText.LF → head p2 ≠ Some JsText.LF →
     Part001.fragments (p1 ++ [JsText.LF; JsText.LF] ++ p2) =
       [Part001.clean_chunk p1; Part001.clean_chunk p2]) ∧
  (∀ p1 p2,
     JsText.has_blank_line (App.cleanedResponse p1) = false →
     JsText.has_blank_line (App.cleanedResponse p2) = false →
     last (App.cleanedResponse p1) ≠ Some JsText.LF →
     head (App.cleanedResponse p2) ≠ Some JsText.LF →
     App.fragments (p1 ++ [JsText.LF; JsText.LF] ++ p2) =
       [JsText.trim (App.cleanedResponse p1);
        JsText.trim (App.cleanedResponse p2)]) ∧
  (∀ (s : Bot.St App.variant) w wk v,
     Bot.workers _ s !! w = Some wk → Bot.w_at wk = Bot.AwaitAsk →
     Bot.log _
       (foldl (Bot.step App.variant)
          (Bot.settle App.variant w (Bot.Fulfilled v) s)
          (replicate (length (App.fragments v) - 1)
             (Bot.Settle w (Bot.Fulfilled [])))) =
     Bot.log _ s ++
     (Bot.Send (Bot.t_id (Bot.w_task wk)) (Bot.t_from (Bot.w_task wk))
        <$> App.fragments v)) ∧
  (∀ (s : Part001.St) w wk v,
     Part001.workers s !! w = Some wk →
     Part001.w_at wk = Part001.AwaitAsk → v ≠ [] →
     Part001.log
       (foldl Part001.step (Part001.settle w (Bot.Fulfilled v) s)
          (replicate (length (Part001.fragments v) - 1)
             (Part001.Settle w (Bot.Fulfilled [])))) =
     Part001.log s ++
     (Part001.Send (Bot.t_id (Part001.w_task wk))
        (Bot.t_from (Part001.w_task wk)) <$> Part001.fragments v)) ∧
  (∀ a m b,
     JsText.LBRACKET ∉ a → JsText.STAR ∉ a → JsText.RBRACKET ∉ m →
     Forall (fun x => JsText.is_line_terminator x = false) m →
     App.cleanedResponse
       (a ++ [JsText.LBRACKET] ++ m ++ [JsText.RBRACKET] ++ b) =
     a ++ App.cleanedResponse b) ∧
  (∀ x,
     JsText.STAR ∉ x → JsText.LBRACKET ∉ x →
     Forall (fun c => JsText.is_line_terminator c = false) x →
     App.cleanedResponse
       ([JsText.STAR; JsText.STAR] ++ x ++ [JsText.STAR; JsText.STAR]) =
     [JsText.STAR] ++ x ++ [JsText.STAR]) ∧
  (∀ a m b,
     JsText.LLENT ∉ a → JsText.RLENT ∉ m →
     Forall (fun x => JsText.is_line_terminator x = false) m →
     JsText.strip_lenticular
       (a ++ [JsText.LLENT] ++ m ++ [JsText.RLENT] ++ b) =
     a ++ JsText.strip_lenticular b) ∧
  (∀ x,
     JsText.STAR ∉ x →
     JsText.collapse_stars
       ([JsText.STAR; JsText.STAR] ++ x ++ [JsText.STAR; JsText.STAR]) =
     [JsText.STAR] ++ x ++ [JsText.STAR]).
Proof.
  split_and!.
  - apply paragraphs_exist.
  - intros r ps H. unfold Part001.fragments.
    by rewrite (split_blank_unique r ps).
  - intros r ps H. unfold App.fragments.
    by rewrite (split_blank_unique _ ps).
  - intros p1 p2 H1 H2 H3 H4. unfold Part001.fragments.
    by rewrite split_blank_two.
  - intros p1 p2 H1 H2 H3 H4. unfold App.fragments.
    rewrite app_cleanedResponse_blank_line. by rewrite split_blank_two.
  - intros s w wk v Hw Hat. unfold Bot.settle. rewrite Hw, Hat.
    change (Bot.fragments App.variant v) with (App.fragments v).
    destruct (App.fragments v) as [|c chunks] eqn:E.
    { unfold App.fragments in E. apply fmap_nil_inv in E.
      by destruct (split_blank_nonempty (App.cleanedResponse v)). }
    replace (length (c :: chunks) - 1)%nat with (length chunks)
      by (simpl; lia).
    apply (proj1 (send_all App.variant s w wk c chunks)).
  - intros s w wk v Hw Hat Hv. unfold Part001.settle. rewrite Hw, Hat.
    destruct v as [|v0 v]; [done|].
    destruct (Part001.fragments (v0 :: v)) as [|c chunks] eqn:E.
    { unfold Part001.fragments in E. apply fmap_nil_inv in E.
      by destruct (split_blank_nonempty (v0 :: v)). }
    replace (length (c :: chunks) - 1)%nat with (length chunks)
      by (simpl; lia).
    apply (proj1 (part001_send_all s w wk c chunks)).
  - intros a m b Ha Hs Hm Hlt.
    unfold App.cleanedResponse, JsText.strip_square, JsText.single_emphasis.
    pose proof (replace_delim_marker JsText.LBRACKET JsText.RBRACKET []
                  (fun _ => []) a m b Ha Hm Hlt) as E.
    cbn [app] in *. rewrite E. by rewrite replace_delim_prefix.
  - intros x Hs Hb Hlt.
    unfold App.cleanedResponse, JsText.strip_square.
    rewrite (replace_delim_no_open JsText.LBRACKET).
    + by apply single_emphasis_emphasis.
    + rewrite !not_elem_of_app, !not_elem_of_cons.
      split_and!; try done; apply not_elem_of_nil.
  - intros a m b Ha Hm Hlt. unfold JsText.strip_lenticular.
    pose proof (replace_delim_marker JsText.LLENT JsText.RLENT []
                  (fun _ => []) a m b Ha Hm Hlt) as E.
    cbn [app] in *. by rewrite E.
  - intros x Hx. by apply collapse_stars_emphasis.
Qed.

(** The response ["**a**【1】

b"] in part_001 and ["**a**[1]

b"] in
    app.ts. *)
Lemma response_fragments_witness :
  Part001.fragments
    ([42; 42; 97; 42; 42; 12304; 49; 12305]%N ++
     [JsText.LF; JsText.LF] ++ [98%N]) = [[42; 97; 42]%N; [98%N]] ∧
  App.fragments
    ([42; 42; 97; 42; 42; 91; 49; 93]%N ++
     [JsText.LF; JsText.LF] ++ [98%N]) = [[42; 97; 42]%N; [98%N]].
Proof.
  destruct response_fragments as (_ & _ & _ & H1 & H2 & _).
  split.
  - rewrite H1; [reflexivity|reflexivity|reflexivity|discriminate|discriminate].
  - rewrite H2; [reflexivity|reflexivity|reflexivity|discriminate|discriminate].
Defined.

(** C6 as stated fails in app.ts: two paragraphs around one blank line,
    the first with a citation marker on a line of its own, are sent as
    three fragments. *)
Lemma app_marker_line_makes_three_fragments :
  JsText.Paragraphs [97; 10; 91; 49; 93; 10; 98; 10; 10; 99]%N
    [[97; 10; 91; 49; 93; 10; 98]%N; [99%N]] ∧
  App.fragments [97; 10; 91; 49; 93; 10; 98; 10; 10; 99]%N =
    [[97%N]; [98%N]; [99%N]].
Proof.
  split; [|reflexivity].
  apply (JsText.Paragraphs_more [97; 10; 91; 49; 93; 10; 98]%N 2 [99%N]
           [[99%N]]); [reflexivity|discriminate|lia|discriminate|].
  by apply JsText.Paragraphs_last.
Qed.

(** * Further properties of the code *)

(** ** The lock of [handleQueue] *)

(** In app.ts, part_000, part_002 and part_003, whatever messages arrive
    and however the awaited promises settle, a user never has two
    completion calls in flight. *)
Theorem one_completion_call_per_user (evs : list Bot.Event) (u : string) :
  (Bot.asks_in_flight App.variant u (Bot.run App.variant evs) ≤ 1)%nat ∧
  (Bot.asks_in_flight Part000.variant u (Bot.run Part000.variant evs) ≤ 1)%nat ∧
  (Bot.asks_in_flight Part002.variant u (Bot.run Part002.variant evs) ≤ 1)%nat ∧
  (Bot.asks_in_flight Part003.variant u (Bot.run Part003.variant evs) ≤ 1)%nat.
Proof. split_and!; apply bot_one_ask_in_flight. Qed.

(** Between two turns of the event loop, in each of these files: a user
    has at most one suspended [handleQueue]; the user has an entry in
    [userQueues] exactly when one is suspended, and then the entry in
    [userLocks] is [true]; otherwise [userLocks] has no entry.  The
    [false] that [finally] stores never outlives its turn, so no stale
    lock is left behind. *)
Theorem lock_and_queue_follow_the_drain (V : Bot.Variant)
    (evs : list Bot.Event) (u : string) :
  let s := Bot.run V evs in
  (size (Bot.workers_of V u s) ≤ 1)%nat ∧
  (is_Some (Bot.userQueues V s !! u) ↔ draining V u s) ∧
  (Bot.userLocks V s !! u = Some true ↔ draining V u s) ∧
  (¬ draining V u s → Bot.userLocks V s !! u = None).
Proof.
  intros s. pose proof (bot_inv_run V evs) as Hinv. fold s in Hinv.
  split_and!.
  - unfold Bot.workers_of. apply size_filter_unique.
    intros k1 k2 wk1 wk2 H1 H2 Hu1 Hu2. simpl in *.
    eapply (inv_one V s Hinv); [done|done|congruence].
  - split.
    + intros [q Hq]. by eapply inv_queue_owner.
    + intros (w & wk & Hw & <-). eexists. by eapply inv_worker_queue.
  - split.
    + intros Hl. by eapply inv_lock_owner.
    + intros (w & wk & Hw & <-). by eapply inv_worker_lock.
  - intros Hd. destruct (Bot.userLocks V s !! u) as [b|] eqn:E; [|done].
    destruct Hd. by eapply inv_lock_owner.
Qed.

(** ** A queue drained to its end *)

Section DrainScript.
Import Bot Scripts.
Variable V : Variant.
Implicit Types (s : St V) (wk : Worker).

Lemma send_all_heap s w wk c chunks :
  heap V (foldl (step V) (send_next V w wk (c :: chunks) s)
            (replicate (length chunks) (Settle w (Fulfilled [])))) = heap V s.
Proof.
  revert s wk c. induction chunks as [|c' chunks IH]; intros s wk c.
  - done.
  - cbn [length replicate foldl step]. rewrite settle_after_send.
    by rewrite IH.
Qed.

(** The promises of one task settle: the loop is back at its test. *)
Lemma task_run s w wk r :
  workers V s !! w = Some wk → w_at wk = AwaitTyping →
  ∃ s1 wk1,
    foldl (step V) s (task_events V w r) = finish V w wk1 s1 ∧
    w_user wk1 = w_user wk ∧ w_queue wk1 = w_queue wk ∧
    w_timer wk1 = w_timer wk ∧
    log V s1 = log V s ++ task_log V (w_user wk) (w_task wk) r ∧
    heap V s1 = heap V s.
Proof.
  intros Hw Hat. unfold task_events. cbn [foldl step].
  set (sA := settle V w (Fulfilled []) s).
  assert (sA = set_workers V (<[w := at_ AwaitAsk wk]> (workers V s))
                 (emit V (Ask (t_id (w_task wk)) (t_from (w_task wk))
                            (t_body (w_task wk))) s)) as EA.
  { unfold sA, settle. by rewrite Hw, Hat. }
  assert (workers V sA !! w = Some (at_ AwaitAsk wk)) as HwA.
  { rewrite EA. simpl. apply lookup_insert_eq. }
  assert (log V sA = log V s ++ [Ask (t_id (w_task wk)) (t_from (w_task wk))
                                   (t_body (w_task wk))]) as HlA
    by (by rewrite EA).
  assert (heap V sA = heap V s) as HhA by (by rewrite EA).
  destruct r as [v|].
  - cbn [foldl step]. unfold settle at 1. rewrite HwA. cbn [w_at at_].
    destruct (fragments V v) as [|c chunks] eqn:Ef.
    + simpl. exists sA, (at_ AwaitAsk wk). split_and!; try done.
      rewrite HlA. unfold task_log. by rewrite Ef.
    + cbn [length]. rewrite replicate_S_end, foldl_app. cbn [foldl step].
      destruct (send_all V sA w (at_ AwaitAsk wk) c chunks) as [El Ew].
      pose proof (send_all_heap sA w (at_ AwaitAsk wk) c chunks) as Eh.
      set (s2 := foldl (step V) (send_next V w (at_ AwaitAsk wk)
                                   (c :: chunks) sA)
                   (replicate (length chunks) (Settle w (Fulfilled []))))
        in *.
      unfold settle. rewrite Ew. cbn [w_at at_ send_next].
      exists s2, (at_ (AwaitSend []) (at_ AwaitAsk wk)).
      split_and!; try done.
      * rewrite El, HlA. unfold task_log. rewrite Ef.
        by rewrite <- app_assoc.
      * by rewrite Eh.
  - cbn [foldl step]. unfold settle at 1. rewrite HwA.
    eexists _, (at_ AwaitAsk wk). split_and!; [reflexivity|done|done|done| |].
    + simpl. rewrite HlA. by rewrite <- app_assoc.
    + done.
Qed.

Lemma drain_run ts : ∀ s w wk (rs : list (Reply)),
  workers V s !! w = Some wk → w_at wk = AwaitTyping →
  heap V s !! w_queue wk = Some ts →
  length rs = S (length ts) →
  let s' := foldl (step V) s (drain_events V w rs) in
  log V s' =
    log V s ++ drain_log V (w_user wk) (w_timer wk) (w_task wk) ts rs ∧
  workers V s' !! w = None ∧
  userQueues V s' !! w_user wk = None ∧
  userLocks V s' !! w_user wk = None.
Proof.
  induction ts as [|t' ts IH]; intros s w wk rs Hw Hat Hq Hlen s';
    destruct rs as [|r rs]; try discriminate; subst s';
    unfold drain_events; rewrite bind_cons, foldl_app;
    destruct (task_run s w wk r Hw Hat)
      as (s1 & wk1 & -> & Hu & Hqq & Ht & Hl & Hh).
  - destruct rs; [|discriminate]. simpl.
    destruct (finish_leaves V s1 w wk1) as (E1 & E2 & E3 & E4).
    { by rewrite Hqq, Hh. }
    rewrite Hu in *. rewrite Ht in *.
    split_and!; try done. rewrite E1, Hl. by rewrite <- app_assoc.
  - destruct (finish_takes_next V s1 w wk1 t' ts) as (E1 & E2 & E3).
    { by rewrite Hqq, Hh. }
    destruct (IH (finish V w wk1 s1) w (with_task t' wk1) rs E2 eq_refl)
      as (F1 & F2 & F3 & F4).
    { exact E3. }
    { simpl in Hlen. lia. }
    fold (drain_events V w rs).
    cbn [w_user w_timer w_task with_task] in *.
    rewrite Hu in *. rewrite Ht in *.
    split_and!; try done.
    rewrite F1, E1, Hl. simpl. by rewrite <- !app_assoc.
Qed.

End DrainScript.

(** The loop of [handleQueue] takes every queued task once, in the order
    of the queue, whatever the completion calls come to: for an
    activation that holds a task and has [ts] queued, when the promises of
    these tasks settle in turn (a rejected completion call is only
    logged) and no other message of the user arrives, the log grows by
    the calls of the task in hand, then of each queued task in order;
    then the activation, the lock and the queue of the user are gone. *)
Theorem drain_takes_every_task (V : Bot.Variant) (s : Bot.St V) (w : nat)
    (wk : Bot.Worker) (ts : list Bot.Task) (rs : list Scripts.Reply) :
  Bot.workers V s !! w = Some wk → Bot.w_at wk = Bot.AwaitTyping →
  Bot.heap V s !! Bot.w_queue wk = Some ts →
  length rs = S (length ts) →
  let s' := foldl (Bot.step V) s (Scripts.drain_events V w rs) in
  Bot.log V s' =
    Bot.log V s ++
    Scripts.drain_log V (Bot.w_user wk) (Bot.w_timer wk) (Bot.w_task wk)
      ts rs ∧
  Bot.workers V s' !! w = None ∧
  Bot.userQueues V s' !! Bot.w_user wk = None ∧
  Bot.userLocks V s' !! Bot.w_user wk = None.
Proof. apply drain_run. Qed.

(** Three messages of one user of app.ts; the completion call of the
    second one rejects. *)
Lemma drain_takes_every_task_witness :
  let s := Bot.run App.variant
             [Bot.Message "u" [97%N] 0; Bot.Message "u" [98%N] 1;
              Bot.Message "u" [99%N] 2] in
  let rs := [Scripts.Answer [120%N]; Scripts.Failure; Scripts.Answer [122%N]] in
  let s' := foldl (Bot.step App.variant) s
              (Scripts.drain_events App.variant 0 rs) in
  Bot.log App.variant s' =
    [Bot.Typing "u" (Bot.ByTask 0); Bot.Ask 0 "u" [97%N];
     Bot.Send 0 "u" [120%N];
     Bot.Typing "u" (Bot.ByTask 1); Bot.Ask 1 "u" [98%N];
     Bot.ConsoleError "u";
     Bot.Typing "u" (Bot.ByTask 2); Bot.Ask 2 "u" [99%N];
     Bot.Send 2 "u" [122%N]] ∧
  Bot.workers App.variant s' !! 0%nat = None.
Proof.
  intros s rs s'.
  pose (t0 := {| Bot.t_id := 0; Bot.t_from := "u"; Bot.t_body := [97%N] |}).
  pose (t1 := {| Bot.t_id := 1; Bot.t_from := "u"; Bot.t_body := [98%N] |}).
  pose (t2 := {| Bot.t_id := 2; Bot.t_from := "u"; Bot.t_body := [99%N] |}).
  pose (wk := {| Bot.w_user := "u"; Bot.w_queue := 0; Bot.w_timer := None;
                 Bot.w_task := t0; Bot.w_at := Bot.AwaitTyping |}).
  destruct (drain_takes_every_task App.variant s 0%nat wk [t1; t2] rs)
    as (E1 & E2 & _).
  - vm_compute. reflexivity.
  - reflexivity.
  - vm_compute. reflexivity.
  - reflexivity.
  - split; [|exact E2]. fold s' in E1. rewrite E1. vm_compute. reflexivity.
Defined.

(** ** The checks of [welcomeFlow], message after message *)

Section ScriptFacts.
Import Bot Scripts.
Variable V : Variant.
Variable u : string.
Implicit Types (s : adm_state V) (ms : list (string * Z)).

Lemma scripts_after_cons s v t ms :
  after V s ((v, t) :: ms) = after V (admission V s v t).1 ms.
Proof. reflexivity. Qed.

Lemma scripts_after_app s ms1 ms2 :
  after V s (ms1 ++ ms2) = after V (after V s ms1) ms2.
Proof. unfold after. by rewrite foldl_app. Qed.

Lemma scripts_verdicts_of_app s ms1 ms2 :
  verdicts_of V u s (ms1 ++ ms2) =
  verdicts_of V u s ms1 ++ verdicts_of V u (after V s ms1) ms2.
Proof.
  revert s. induction ms1 as [|[v t] ms1 IH]; intros s; simpl; [done|].
  destruct (decide (v = u)); simpl; by rewrite IH.
Qed.

Lemma scripts_verdicts_of_same s t ms :
  verdicts_of V u s ((u, t) :: ms) =
  (admission V s u t).2 :: verdicts_of V u (admission V s u t).1 ms.
Proof. simpl. by rewrite decide_True. Qed.

Lemma scripts_verdicts_of_other s v t ms :
  v ≠ u →
  verdicts_of V u s ((v, t) :: ms) = verdicts_of V u (admission V s v t).1 ms.
Proof. intros. simpl. by rewrite decide_False. Qed.

Lemma scripts_times_of_same t ms :
  times_of u ((u, t) :: ms) = t :: times_of u ms.
Proof. unfold times_of. by rewrite filter_cons_True. Qed.

Lemma scripts_times_of_other v t ms :
  v ≠ u → times_of u ((v, t) :: ms) = times_of u ms.
Proof. intros. unfold times_of. by rewrite filter_cons_False. Qed.

End ScriptFacts.

(** *** app.ts: the window starts at the first message *)

(** In app.ts the 24 hours of [rateLimitUser] run from the first counted
    message and the count starts again at 1 with the first message after
    them: a user with no entries whose first 20 messages fall within 24
    hours of the first one, and whose next 20 fall within 24 hours of the
    21st, which comes more than 24 hours after the first, has all 40
    accepted, however close the two groups are. *)
Theorem app_window_starts_at_first_message (s : App.Stores) (u : string)
    (m1 m2 : list (string * Z)) (t1 t2 : Z) :
  App.userMessageCount s !! u = None →
  App.userBanList s !! u = None →
  length (App.times_of u m1) = 19%nat →
  Forall (fun t => t - t1 ≤ 24 * 60 * 60 * 1000) (App.times_of u m1) →
  24 * 60 * 60 * 1000 < t2 - t1 →
  length (App.times_of u m2) = 19%nat →
  Forall (fun t => t - t2 ≤ 24 * 60 * 60 * 1000) (App.times_of u m2) →
  App.verdicts_of u s ((u, t1) :: m1 ++ (u, t2) :: m2) =
    replicate 40 Bot.Accept ∧
  App.userMessageCount (App.after s ((u, t1) :: m1 ++ (u, t2) :: m2)) !! u =
    Some {| App.count := 20; App.firstMessageTime := t2 |}.
Proof.
  intros Hc0 Hb0 Hlen1 Hwin1 Hlate Hlen2 Hwin2.
  destruct (app_admission_unbanned u s t1 Hb0) as (Hc1 & Ha1 & _).
  rewrite Hc0 in Hc1, Ha1. simpl in Hc1, Ha1.
  rewrite Z.sub_diag in Hc1, Ha1. simpl in Hc1, Ha1.
  destruct Ha1 as [Hv1 Hb1]; [unfold App.MAX_MESSAGES_PER_DAY; lia|].
  set (s1 := (App.admission s u t1).1) in *.
  destruct (app_counting_phase u m1 s1 1 t1 Hb1 Hc1 Hwin1) as (Hv2 & Hb2 & Hc2).
  { rewrite Hlen1. unfold App.MAX_MESSAGES_PER_DAY. lia. }
  rewrite Hlen1 in Hv2, Hc2. simpl in Hc2.
  set (s2 := App.after s1 m1) in *.
  destruct (app_admission_unbanned u s2 t2 Hb2) as (Hc3 & Ha3 & _).
  rewrite Hc2 in Hc3, Ha3. simpl in Hc3, Ha3.
  destruct (Z.gtb_spec (t2 - t1) (24 * 60 * 60 * 1000)); [|lia].
  simpl in Hc3, Ha3.
  destruct Ha3 as [Hv3 Hb3]; [unfold App.MAX_MESSAGES_PER_DAY; lia|].
  set (s3 := (App.admission s2 u t2).1) in *.
  destruct (app_counting_phase u m2 s3 1 t2 Hb3 Hc3 Hwin2) as (Hv4 & Hb4 & Hc4).
  { rewrite Hlen2. unfold App.MAX_MESSAGES_PER_DAY. lia. }
  rewrite Hlen2 in Hv4, Hc4. simpl in Hc4.
  split.
  - rewrite app_verdicts_of_cons_same. fold s1. rewrite Hv1.
    rewrite app_verdicts_of_app. fold s2. rewrite Hv2.
    rewrite app_verdicts_of_cons_same. fold s3. rewrite Hv3, Hv4.
    reflexivity.
  - rewrite app_after_cons. fold s1. rewrite app_after_app. fold s2.
    rewrite app_after_cons. fold s3. exact Hc4.
Qed.

(** Twenty messages in the last millisecond of the window and twenty in
    the millisecond after it. *)
Lemma app_window_witness :
  App.verdicts_of "u" (Bot.adm_init App.variant)
    (("u"%string, 0) :: replicate 19 ("u"%string, 86400000) ++
     ("u"%string, 86400001) :: replicate 19 ("u"%string, 86400001)) =
  replicate 40 Bot.Accept.
Proof.
  apply (app_window_starts_at_first_message (Bot.adm_init App.variant) "u"
           (replicate 19 ("u"%string, 86400000))
           (replicate 19 ("u"%string, 86400001)) 0 86400001).
  - reflexivity.
  - reflexivity.
  - vm_compute. reflexivity.
  - apply (bool_decide_unpack _). vm_compute. reflexivity.
  - lia.
  - vm_compute. reflexivity.
  - apply (bool_decide_unpack _). vm_compute. reflexivity.
Defined.

(** *** part_000: twenty messages, a ban, twenty more *)

Section Part000Admission.
Import Bot Scripts.
Variable u : string.
Implicit Types (s : Part000.Stores) (ms : list (string * Z)).

Lemma part000_isUserBanned_lookup (b1 b2 : gmap string Z) t :
  b1 !! u = b2 !! u →
  Part000.isUserBanned b1 u t = Part000.isUserBanned b2 u t.
Proof. intros E. unfold Part000.isUserBanned. by rewrite E. Qed.

Lemma part000_admission_other s v t :
  v ≠ u →
  Part000.userBans (Part000.admission s v t).1 !! u
    = Part000.userBans s !! u ∧
  Part000.messageLimits (Part000.admission s v t).1 !! u
    = Part000.messageLimits s !! u.
Proof.
  intros Hne. unfold Part000.admission, Part000.rateLimitUser, Part000.banUser.
  destruct (Part000.isUserBanned _ v t); [done|].
  destruct (_ >=? _); simpl;
    rewrite ?lookup_insert_ne, ?lookup_delete_ne by done; done.
Qed.

(** A message of [u], not banned, below the limit. *)
Lemma part000_admission_accept s t :
  Part000.isUserBanned (Part000.userBans s) u t = false →
  default 0 (Part000.messageLimits s !! u) < Part000.MAX_MESSAGES →
  (Part000.admission s u t).2 = Accept ∧
  Part000.userBans (Part000.admission s u t).1 = Part000.userBans s ∧
  Part000.messageLimits (Part000.admission s u t).1 !! u
    = Some (default 0 (Part000.messageLimits s !! u) + 1).
Proof.
  intros Hb Hc. unfold Part000.admission, Part000.rateLimitUser. rewrite Hb.
  destruct (Z.geb_spec (default 0 (Part000.messageLimits s !! u))
              Part000.MAX_MESSAGES); [lia|].
  simpl. by rewrite lookup_insert_eq.
Qed.

(** A message of [u], not banned, at the limit. *)
Lemma part000_admission_deny s t :
  Part000.isUserBanned (Part000.userBans s) u t = false →
  Part000.MAX_MESSAGES ≤ default 0 (Part000.messageLimits s !! u) →
  (Part000.admission s u t).2 = Deny Part000.ban_notice ∧
  Part000.userBans (Part000.admission s u t).1 !! u
    = Some (t + Part000.BAN_DURATION) ∧
  Part000.messageLimits (Part000.admission s u t).1 !! u = None.
Proof.
  intros Hb Hc. unfold Part000.admission, Part000.rateLimitUser. rewrite Hb.
  destruct (Z.geb_spec (default 0 (Part000.messageLimits s !! u))
              Part000.MAX_MESSAGES); [|lia].
  simpl. by rewrite lookup_insert_eq, lookup_delete_eq.
Qed.

(** A message of [u] during the ban. *)
Lemma part000_admission_ignore s t :
  Part000.isUserBanned (Part000.userBans s) u t = true →
  Part000.admission s u t = (s, Ignore).
Proof. intros Hb. unfold Part000.admission. by rewrite Hb. Qed.

Lemma part000_counting_phase ms s c :
  Forall (fun t => Part000.isUserBanned (Part000.userBans s) u t = false)
         (times_of u ms) →
  default 0 (Part000.messageLimits s !! u) = c →
  c + Z.of_nat (length (times_of u ms)) ≤ Part000.MAX_MESSAGES →
  verdicts_of Part000.variant u s ms
    = replicate (length (times_of u ms)) Accept ∧
  Part000.userBans (after Part000.variant s ms) !! u
    = Part000.userBans s !! u ∧
  default 0 (Part000.messageLimits (after Part000.variant s ms) !! u)
    = c + Z.of_nat (length (times_of u ms)).
Proof.
  revert s c. induction ms as [|[v t] ms IH]; intros s c Hban Hcnt Hle.
  - simpl. rewrite Z.add_0_r. done.
  - rewrite scripts_after_cons. cbn [admission adm_state Part000.variant].
    destruct (decide (v = u)) as [->|Hne].
    + rewrite scripts_verdicts_of_same. cbn [admission adm_state Part000.variant].
      rewrite scripts_times_of_same in *. simpl length in *.
      apply Forall_cons in Hban as [Ht Hban].
      destruct (part000_admission_accept s t Ht) as (Hv & Hb & Hc); [lia|].
      destruct (IH (Part000.admission s u t).1 (c + 1)) as (IH1 & IH2 & IH3).
      * eapply Forall_impl; [exact Hban|]. simpl. intros t' <-.
        apply part000_isUserBanned_lookup. by rewrite Hb.
      * rewrite Hc. simpl. lia.
      * lia.
      * rewrite Hv, IH1, IH2, IH3, Hb. split_and!; try done. lia.
    + rewrite scripts_verdicts_of_other by done.
      cbn [admission adm_state Part000.variant].
      rewrite scripts_times_of_other in * by done.
      destruct (part000_admission_other s v t Hne) as [Hb Hc].
      destruct (IH (Part000.admission s v t).1 c) as (IH1 & IH2 & IH3).
      * eapply Forall_impl; [exact Hban|]. simpl. intros t' <-.
        by apply part000_isUserBanned_lookup.
      * by rewrite Hc.
      * done.
      * rewrite IH1, IH2, IH3, Hb. done.
Qed.

Lemma part000_banned_phase ms s :
  Forall (fun t => Part000.isUserBanned (Part000.userBans s) u t = true)
         (times_of u ms) →
  verdicts_of Part000.variant u s ms
    = replicate (length (times_of u ms)) Ignore ∧
  Part000.userBans (after Part000.variant s ms) !! u
    = Part000.userBans s !! u ∧
  Part000.messageLimits (after Part000.variant s ms) !! u
    = Part000.messageLimits s !! u.
Proof.
  revert s. induction ms as [|[v t] ms IH]; intros s Hban.
  - done.
  - rewrite scripts_after_cons. cbn [admission adm_state Part000.variant].
    destruct (decide (v = u)) as [->|Hne].
    + rewrite scripts_verdicts_of_same. cbn [admission adm_state Part000.variant].
      rewrite scripts_times_of_same in *. simpl length.
      apply Forall_cons in Hban as [Ht Hban].
      rewrite (part000_admission_ignore s t Ht). simpl.
      destruct (IH s Hban) as (IH1 & IH2 & IH3).
      by rewrite IH1, IH2, IH3.
    + rewrite scripts_verdicts_of_other by done.
      cbn [admission adm_state Part000.variant].
      rewrite scripts_times_of_other in * by done.
      destruct (part000_admission_other s v t Hne) as [Hb Hc].
      destruct (IH (Part000.admission s v t).1) as (IH1 & IH2 & IH3).
      * eapply Forall_impl; [exact Hban|]. simpl. intros t' <-.
        by apply part000_isUserBanned_lookup.
      * rewrite IH1, IH2, IH3, Hb, Hc. done.
Qed.

Lemma part000_isUserBanned_entry (bans : gmap string Z) (e t : Z) :
  bans !! u = Some e → 0 < e →
  Part000.isUserBanned bans u t = bool_decide (t < e).
Proof.
  intros Hb He. unfold Part000.isUserBanned. rewrite Hb.
  destruct (Z.eqb_spec e 0); [lia|]. simpl.
  destruct (Z.gtb_spec e t); symmetry.
  - by apply bool_decide_eq_true.
  - apply bool_decide_eq_false. lia.
Qed.

End Part000Admission.

(** In part_000 the count of a user has no time window: for a user with
    no entries, the first 20 messages are accepted whenever they arrive;
    the 21st is answered with the ban notice, bans the user for 24 hours
    and deletes the count; messages that arrive before the end of the ban
    are dropped; from the very instant the ban ends the next 20 messages
    are accepted again.  Messages of other users may arrive in
    between. *)
Theorem part000_twenty_then_ban_then_twenty (s : Part000.Stores) (u : string)
    (m1 m3 m5 : list (string * Z)) (t21 : Z) :
  Part000.messageLimits s !! u = None →
  Part000.userBans s !! u = None →
  0 ≤ t21 →
  length (Scripts.times_of u m1) = 20%nat →
  Forall (fun t => t < t21 + Part000.BAN_DURATION) (Scripts.times_of u m3) →
  Forall (fun t => t21 + Part000.BAN_DURATION ≤ t) (Scripts.times_of u m5) →
  (length (Scripts.times_of u m5) ≤ 20)%nat →
  Scripts.verdicts_of Part000.variant u s (m1 ++ [(u, t21)] ++ m3 ++ m5) =
    replicate 20 Bot.Accept ++ [Bot.Deny Part000.ban_notice] ++
    replicate (length (Scripts.times_of u m3)) Bot.Ignore ++
    replicate (length (Scripts.times_of u m5)) Bot.Accept.
Proof.
  intros Hc0 Hb0 Ht Hlen1 Hin Hout Hlen5.
  assert (Hday : Part000.BAN_DURATION = 24 * 60 * 60 * 1000) by reflexivity.
  assert (Hnb : ∀ (b : gmap string Z) t, b !! u = None →
                  Part000.isUserBanned b u t = false).
  { intros b t E. unfold Part000.isUserBanned. by rewrite E. }
  (* messages 1 to 20 *)
  destruct (part000_counting_phase u m1 s 0) as (Hv1 & Hb1 & Hc1).
  { apply Forall_forall. intros t _. by apply Hnb. }
  { by rewrite Hc0. }
  { rewrite Hlen1. unfold Part000.MAX_MESSAGES. lia. }
  rewrite Hlen1 in Hv1, Hc1. rewrite Hb0 in Hb1.
  set (s1 := Scripts.after Part000.variant s m1) in *.
  (* message 21 *)
  destruct (part000_admission_deny u s1 t21) as (Hv2 & Hb2 & Hc2).
  { by apply Hnb. }
  { rewrite Hc1. unfold Part000.MAX_MESSAGES. lia. }
  set (s2 := (Part000.admission s1 u t21).1) in *.
  (* during the ban *)
  destruct (part000_banned_phase u m3 s2) as (Hv3 & Hb3 & Hc3).
  { eapply Forall_impl; [exact Hin|]. simpl. intros t Hlt.
    rewrite (part000_isUserBanned_entry u _ _ t Hb2) by lia.
    by apply bool_decide_eq_true. }
  rewrite Hb2 in Hb3. rewrite Hc2 in Hc3.
  set (s3 := Scripts.after Part000.variant s2 m3) in *.
  (* from the end of the ban *)
  destruct (part000_counting_phase u m5 s3 0) as (Hv4 & _ & _).
  { eapply Forall_impl; [exact Hout|]. simpl. intros t Hge.
    rewrite (part000_isUserBanned_entry u _ _ t Hb3) by lia.
    apply bool_decide_eq_false. lia. }
  { by rewrite Hc3. }
  { unfold Part000.MAX_MESSAGES. lia. }
  rewrite scripts_verdicts_of_app. fold s1. rewrite Hv1.
  change ([(u, t21)] ++ m3 ++ m5) with ((u, t21) :: m3 ++ m5).
  rewrite scripts_verdicts_of_same. cbn [Bot.admission Bot.adm_state Part000.variant].
  fold s2. rewrite Hv2.
  rewrite scripts_verdicts_of_app. fold s3. rewrite Hv3, Hv4.
  reflexivity.
Qed.

(** Twenty-one messages at once, one during the ban, and one at the
    instant the ban ends. *)
Lemma part000_twenty_witness :
  Scripts.verdicts_of Part000.variant "u" (Bot.adm_init Part000.variant)
    (replicate 20 ("u"%string, 5) ++ [("u"%string, 5)] ++
     [("u"%string, 86400004)] ++ [("u"%string, 86400005)]) =
  replicate 20 Bot.Accept ++ [Bot.Deny Part000.ban_notice] ++
  replicate 1 Bot.Ignore ++ replicate 1 Bot.Accept.
Proof.
  apply (part000_twenty_then_ban_then_twenty (Bot.adm_init Part000.variant)
           "u" (replicate 20 ("u"%string, 5)) [("u"%string, 86400004)]
           [("u"%string, 86400005)] 5).
  - reflexivity.
  - reflexivity.
  - lia.
  - vm_compute. reflexivity.
  - apply (bool_decide_unpack _). vm_compute. reflexivity.
  - apply (bool_decide_unpack _). vm_compute. reflexivity.
  - vm_compute. lia.
Defined.

(** *** part_002: thirty messages, ever *)

Section Part002Admission.
Import Bot Scripts.
Variable u : string.
Implicit Types (s : Part002.Stores) (ms : list (string * Z)).

Lemma part002_admission_other s v t :
  v ≠ u →
  Part002.userMessageCounts (Part002.admission s v t).1 !! u
    = Part002.userMessageCounts s !! u ∧
  Part002.userBanList (Part002.admission s v t).1 !! u
    = Part002.userBanList s !! u.
Proof.
  intros Hne. unfold Part002.admission, Part002.isUserBanned,
    Part002.rateLimitUser, Part002.banUser.
  destruct (Part002.userBanList s !! v) as [e|]; simpl.
  - destruct (e =? 0); simpl.
    + destruct (negb _); simpl; rewrite ?lookup_insert_ne by done; done.
    + destruct (t >? e); simpl; [|done].
      destruct (negb _); simpl;
        rewrite ?lookup_insert_ne, ?lookup_delete_ne by done; done.
  - destruct (negb _); simpl; rewrite ?lookup_insert_ne by done; done.
Qed.

(** A message of [u]: the verdict and the counter. *)
Lemma part002_admission_same s t :
  let c := Part002.counter s u in
  ((Part002.admission s u t).2 = Ignore ∧
   Part002.counter (Part002.admission s u t).1 u = c) ∨
  (Part002.counter (Part002.admission s u t).1 u = c + 1 ∧
   (Part002.admission s u t).2 =
     if decide (c + 1 ≤ Part002.LIMIT) then Accept
     else Deny Part002.ban_notice).
Proof.
  intros c. unfold Part002.admission.
  destruct (Part002.isUserBanned (Part002.userBanList s) u t)
    as [bans [|]]; [by left|right].
  unfold Part002.rateLimitUser, Part002.counter. fold (Part002.counter s u).
  fold c. destruct (Z.gtb_spec (c + 1) Part002.LIMIT); simpl;
    rewrite lookup_insert_eq; simpl.
  - by rewrite decide_False by lia.
  - by rewrite decide_True by lia.
Qed.

Lemma part002_admission_unbanned s t :
  Part002.userBanList s !! u = None →
  Part002.counter s u < Part002.LIMIT →
  (Part002.admission s u t).2 = Accept ∧
  Part002.userBanList (Part002.admission s u t).1 !! u = None ∧
  Part002.counter (Part002.admission s u t).1 u = Part002.counter s u + 1.
Proof.
  intros Hb Hc. unfold Part002.admission, Part002.isUserBanned. rewrite Hb.
  unfold Part002.rateLimitUser, Part002.counter in *.
  destruct (Z.gtb_spec (default 0 (Part002.userMessageCounts s !! u) + 1)
              Part002.LIMIT); [lia|].
  simpl. by rewrite lookup_insert_eq.
Qed.

Lemma part002_counting_phase ms s :
  Part002.userBanList s !! u = None →
  Part002.counter s u + Z.of_nat (length (times_of u ms)) ≤ Part002.LIMIT →
  verdicts_of Part002.variant u s ms
    = replicate (length (times_of u ms)) Accept ∧
  Part002.counter (after Part002.variant s ms) u
    = Part002.counter s u + Z.of_nat (length (times_of u ms)).
Proof.
  revert s. induction ms as [|[v t] ms IH]; intros s Hban Hle.
  - simpl. by rewrite Z.add_0_r.
  - rewrite scripts_after_cons.
    cbn [admission adm_state Part002.variant].
    destruct (decide (v = u)) as [->|Hne].
    + rewrite scripts_verdicts_of_same.
      cbn [admission adm_state Part002.variant].
      rewrite scripts_times_of_same in *. simpl length in *.
      destruct (part002_admission_unbanned s t Hban) as (Hv & Hb & Hc);
        [lia|].
      destruct (IH (Part002.admission s u t).1 Hb) as [IH1 IH2]; [lia|].
      rewrite Hv, IH1, IH2, Hc. split; [done|lia].
    + rewrite scripts_verdicts_of_other by done.
      cbn [admission adm_state Part002.variant].
      rewrite scripts_times_of_other in * by done.
      destruct (part002_admission_other s v t Hne) as [Hc Hb].
      assert (Part002.counter (Part002.admission s v t).1 u
              = Part002.counter s u) as Hc'
        by (unfold Part002.counter; by rewrite Hc).
      destruct (IH (Part002.admission s v t).1) as [IH1 IH2].
      * by rewrite Hb.
      * by rewrite Hc'.
      * by rewrite IH1, IH2, Hc'.
Qed.

Lemma part002_locked_out ms s :
  Part002.LIMIT ≤ Part002.counter s u →
  Forall (fun d => d ≠ Accept) (verdicts_of Part002.variant u s ms).
Proof.
  revert s. induction ms as [|[v t] ms IH]; intros s Hc.
  - constructor.
  - destruct (decide (v = u)) as [->|Hne].
    + rewrite scripts_verdicts_of_same.
      cbn [admission adm_state Part002.variant].
      destruct (part002_admission_same s t) as [[Hv Hc']|[Hc' Hv]].
      * constructor; [by rewrite Hv|]. apply IH. by rewrite Hc'.
      * constructor.
        -- rewrite Hv. by rewrite decide_False by lia.
        -- apply IH. rewrite Hc'. lia.
    + rewrite scripts_verdicts_of_other by done.
      cbn [admission adm_state Part002.variant].
      apply IH. destruct (part002_admission_other s v t Hne) as [Hc' _].
      unfold Part002.counter in *. by rewrite Hc'.
Qed.

End Part002Admission.

(** In part_002 the counter of a user is never reset, so a user gets 30
    accepted messages in all: for a user with no entries the first 30
    messages are accepted whenever they arrive, and none of the later
    ones ever is, however long the user waits: each one is dropped
    during a ban or answered with the ban notice and a new ban of one
    hour. *)
Theorem part002_thirty_messages_ever (s : Part002.Stores) (u : string)
    (m1 m2 : list (string * Z)) :
  Part002.userMessageCounts s !! u = None →
  Part002.userBanList s !! u = None →
  length (Scripts.times_of u m1) = 30%nat →
  ∃ rest,
    Scripts.verdicts_of Part002.variant u s (m1 ++ m2) =
      replicate 30 Bot.Accept ++ rest ∧
    length rest = length (Scripts.times_of u m2) ∧
    Forall (fun d => d ≠ Bot.Accept) rest.
Proof.
  intros Hc0 Hb0 Hlen.
  assert (Part002.counter s u = 0) as Hc by (unfold Part002.counter; by rewrite Hc0).
  destruct (part002_counting_phase u m1 s Hb0) as [Hv1 Hc1].
  { rewrite Hc, Hlen. unfold Part002.LIMIT. lia. }
  rewrite Hlen in Hv1, Hc1. rewrite Hc in Hc1.
  exists (Scripts.verdicts_of Part002.variant u
            (Scripts.after Part002.variant s m1) m2).
  split_and!.
  - by rewrite scripts_verdicts_of_app, Hv1.
  - generalize (Scripts.after Part002.variant s m1). clear.
    induction m2 as [|[v t] m2 IH]; intros s'; [done|].
    destruct (decide (v = u)) as [->|Hne].
    + rewrite scripts_verdicts_of_same, scripts_times_of_same. simpl.
      by rewrite IH.
    + rewrite scripts_verdicts_of_other, scripts_times_of_other by done.
      by rewrite IH.
  - apply part002_locked_out. rewrite Hc1. unfold Part002.LIMIT. lia.
Qed.

(** Thirty messages at once, and two a year later. *)
Lemma part002_thirty_witness :
  ∃ rest,
    Scripts.verdicts_of Part002.variant "u" (Bot.adm_init Part002.variant)
      (replicate 30 ("u"%string, 5) ++
       [("u"%string, 31536000000); ("u"%string, 31536000001)]) =
      replicate 30 Bot.Accept ++ rest ∧
    length rest = 2%nat ∧
    Forall (fun d => d ≠ Bot.Accept) rest.
Proof.
  apply (part002_thirty_messages_ever (Bot.adm_init Part002.variant) "u"
           (replicate 30 ("u"%string, 5))
           [("u"%string, 31536000000); ("u"%string, 31536000001)]).
  - reflexivity.
  - reflexivity.
  - vm_compute. reflexivity.
Defined.

(** ** [SimpleLRUCache]: what is stored *)

Section LruValues.
Context {K V : Type} `{EqDecision K}.
Implicit Types (m : list (K * V)) (k : K) (v : V).
Implicit Types (c : SimpleLRUCache.t K V).

Lemma jsmap_get_set_other k k' v m :
  k' ≠ k → JsMap.get k' (JsMap.set k v m) = JsMap.get k' m.
Proof.
  intros Hne. induction m as [|[k2 v2] m IH]; simpl.
  - by rewrite decide_False.
  - destruct (decide (k = k2)) as [->|]; simpl.
    + by rewrite !decide_False by done.
    + destruct (decide (k' = k2)); [done|]. apply IH.
Qed.

Lemma jsmap_get_delete_other k k' m :
  k' ≠ k → JsMap.get k' (JsMap.delete k m) = JsMap.get k' m.
Proof.
  intros Hne. induction m as [|[k2 v2] m IH]; simpl; [done|].
  destruct (decide (k = k2)) as [->|]; simpl.
  - by rewrite decide_False.
  - destruct (decide (k' = k2)); [done|]. apply IH.
Qed.

Lemma jsmap_get_delete_same k m :
  NoDup (JsMap.keys m) → JsMap.get k (JsMap.delete k m) = None.
Proof.
  intros Hnd. apply jsmap_get_None. by apply jsmap_delete_notin.
Qed.

Lemma lru_has_get k c :
  SimpleLRUCache.has k c = true ↔ is_Some (SimpleLRUCache.get k c).1.
Proof.
  rewrite lru_get_fst. unfold SimpleLRUCache.has, JsMap.has.
  destruct (JsMap.get k (SimpleLRUCache.cache c)); split; try done;
    (by eexists) || (by intros [? ?]).
Qed.

(** [get] moves its key and changes no value. *)
Lemma lru_get_other k k' c :
  (SimpleLRUCache.get k' (SimpleLRUCache.get k c).2).1 =
  (SimpleLRUCache.get k' c).1.
Proof.
  rewrite !lru_get_fst. destruct (decide (k' = k)) as [->|Hne].
  - apply lru_get_keeps.
  - unfold SimpleLRUCache.get, JsMap.has.
    destruct (JsMap.get k (SimpleLRUCache.cache c)) eqn:E; simpl; [|done].
    by rewrite jsmap_get_set_other, jsmap_get_delete_other.
Qed.

(** [set] changes the value of no other key; it drops at most the first
    key of the map, and only to make room for a new key. *)
Lemma lru_set_other k k' v c :
  NoDup (SimpleLRUCache.keys c) → k' ≠ k →
  (SimpleLRUCache.get k' (SimpleLRUCache.set k v c)).1 =
    (SimpleLRUCache.get k' c).1 ∨
  ((SimpleLRUCache.get k' (SimpleLRUCache.set k v c)).1 = None ∧
   JsMap.first_key (SimpleLRUCache.cache c) = Some k' ∧
   SimpleLRUCache.has k c = false ∧
   (SimpleLRUCache.capacity c ≤ SimpleLRUCache.size c)%nat).
Proof.
  intros Hnd Hne. rewrite !lru_get_fst.
  unfold SimpleLRUCache.set, SimpleLRUCache.has, SimpleLRUCache.size.
  cbn [SimpleLRUCache.cache]. rewrite jsmap_get_set_other by done.
  destruct (JsMap.has k (SimpleLRUCache.cache c)) eqn:Hhas.
  - left. by apply jsmap_get_delete_other.
  - destruct (Nat.leb_spec (SimpleLRUCache.capacity c)
                (JsMap.size (SimpleLRUCache.cache c))); [|by left].
    destruct (JsMap.first_key (SimpleLRUCache.cache c)) as [fk|] eqn:Hfk;
      [|by left].
    destruct (decide (k' = fk)) as [->|Hne'].
    + right. split_and!; try done. by apply jsmap_get_delete_same.
    + left. by apply jsmap_get_delete_other.
Qed.

(** With capacity 0 the map never holds more than the entry set last. *)
Lemma lru_zero_step (o : SimpleLRUCache.op K V) c :
  SimpleLRUCache.capacity c = 0%nat →
  (length (SimpleLRUCache.cache c) ≤ 1)%nat →
  SimpleLRUCache.capacity (SimpleLRUCache.apply_op o c) = 0%nat ∧
  (length (SimpleLRUCache.cache (SimpleLRUCache.apply_op o c)) ≤ 1)%nat.
Proof.
  destruct c as [m cap]. cbn [SimpleLRUCache.capacity SimpleLRUCache.cache].
  intros -> Hlen.
  destruct m as [|[a x] [|? ?]]; [| |simpl in Hlen; lia];
    destruct o as [k|k v|k];
    unfold SimpleLRUCache.apply_op, SimpleLRUCache.get, SimpleLRUCache.set,
      JsMap.has, JsMap.first_key, JsMap.keys;
    simpl; repeat (case_decide; simpl); try done; lia.
Qed.

Lemma lru_zero_run (ops : list (SimpleLRUCache.op K V)) :
  (SimpleLRUCache.size
     (SimpleLRUCache.run_ops ops (SimpleLRUCache.new 0)) ≤ 1)%nat.
Proof.
  assert (SimpleLRUCache.capacity
            (SimpleLRUCache.run_ops ops (SimpleLRUCache.new (K:=K) (V:=V) 0))
          = 0%nat ∧
          (length (SimpleLRUCache.cache
             (SimpleLRUCache.run_ops ops (SimpleLRUCache.new 0))) ≤ 1)%nat)
    as [_ ?]; [|done].
  induction ops as [|o ops IH] using rev_ind.
  - simpl. split; [done|lia].
  - rewrite run_ops_snoc. destruct IH. by apply lru_zero_step.
Qed.

End LruValues.

(** What [get] returns, for a cache of part_001 after any history of
    calls: the value set last for the key if the key is still there; [set]
    for another key changes it in one case only, when that key is new
    while the cache is full and this key is the first of the map, which
    is then dropped; [get] for another key never changes it; a key that
    is not there is answered [undefined] and the cache stays as it is. *)
Theorem lru_values_kept {K V : Type} `{EqDecision K}
    (cap : nat) (ops : list (SimpleLRUCache.op K V)) (k k' : K) (v : V) :
  (1 ≤ cap)%nat →
  let c := SimpleLRUCache.run_ops ops (SimpleLRUCache.new cap) in
  (SimpleLRUCache.get k (SimpleLRUCache.set k v c)).1 = Some v ∧
  SimpleLRUCache.has k (SimpleLRUCache.set k v c) = true ∧
  (k' ≠ k →
   (SimpleLRUCache.get k' (SimpleLRUCache.set k v c)).1 =
     (SimpleLRUCache.get k' c).1 ∨
   ((SimpleLRUCache.get k' (SimpleLRUCache.set k v c)).1 = None ∧
    JsMap.first_key (SimpleLRUCache.cache c) = Some k' ∧
    SimpleLRUCache.has k c = false ∧
    SimpleLRUCache.size c = cap)) ∧
  (SimpleLRUCache.get k' (SimpleLRUCache.get k c).2).1 =
    (SimpleLRUCache.get k' c).1 ∧
  (SimpleLRUCache.has k c = false → SimpleLRUCache.get k c = (None, c)).
Proof.
  intros Hcap c.
  destruct (lru_inv_run (K:=K) (V:=V) cap ops Hcap)
    as (Hc & Hnd & Hsz & _ & _). fold c in Hc, Hnd, Hsz.
  split_and!.
  - rewrite lru_get_fst. apply lru_set_get.
  - apply lru_has_get. rewrite lru_get_fst, lru_set_get. by eexists.
  - intros Hne.
    destruct (lru_set_other k k' v c Hnd Hne) as [?|(? & ? & ? & ?)];
      [by left|right].
    split_and!; try done. rewrite Hc in *. lia.
  - apply lru_get_other.
  - intros Hhas. unfold SimpleLRUCache.get, SimpleLRUCache.has in *.
    by rewrite Hhas.
Qed.

(** Keys 1 and 2 in a cache of capacity 2; then key 3 is set. *)
Lemma lru_values_witness :
  let c := SimpleLRUCache.run_ops
             [SimpleLRUCache.OpSet 1%nat 10; SimpleLRUCache.OpSet 2%nat 20]
             (SimpleLRUCache.new 2) in
  (SimpleLRUCache.get 3%nat (SimpleLRUCache.set 3%nat 30 c)).1 = Some 30 ∧
  (SimpleLRUCache.get 1%nat (SimpleLRUCache.set 3%nat 30 c)).1 = None ∧
  (SimpleLRUCache.get 2%nat (SimpleLRUCache.set 3%nat 30 c)).1 = Some 20.
Proof.
  intros c.
  destruct (lru_values_kept 2
              [SimpleLRUCache.OpSet 1%nat 10; SimpleLRUCache.OpSet 2%nat 20]
              3%nat 2%nat 30 ltac:(lia)) as (H1 & _ & H3 & _).
  split_and!; [exact H1|reflexivity|].
  destruct H3 as [E|[E _]]; [lia|exact E|].
  vm_compute in E. discriminate.
Defined.

(** The size of a [SimpleLRUCache] never exceeds its capacity, whatever
    the capacity given to the constructor, with one exception: a cache
    built with capacity 0 holds the entry set last, because [set] finds no
    first key to drop in an empty map. *)
Theorem lru_size_bounded {K V : Type} `{EqDecision K}
    (cap : nat) (ops : list (SimpleLRUCache.op K V)) :
  (SimpleLRUCache.size (SimpleLRUCache.run_ops ops (SimpleLRUCache.new cap))
   ≤ Nat.max cap 1)%nat ∧
  ∀ (k : K) (v : V),
    SimpleLRUCache.cache
      (SimpleLRUCache.set k v
         (SimpleLRUCache.run_ops ops (SimpleLRUCache.new 0))) = [(k, v)].
Proof.
  split.
  - destruct cap as [|cap].
    + apply lru_zero_run.
    + destruct (lru_inv_run (K:=K) (V:=V) (S cap) ops ltac:(lia))
        as (_ & _ & Hsz & _). lia.
  - intros k v.
    assert (SimpleLRUCache.capacity
              (SimpleLRUCache.run_ops ops (SimpleLRUCache.new (K:=K) (V:=V) 0))
            = 0%nat ∧
            (length (SimpleLRUCache.cache
               (SimpleLRUCache.run_ops ops (SimpleLRUCache.new 0))) ≤ 1)%nat)
      as [Hc Hl].
    { induction ops as [|o ops IH] using rev_ind.
      - simpl. split; [done|lia].
      - rewrite run_ops_snoc. destruct IH. by apply lru_zero_step. }
    destruct (SimpleLRUCache.run_ops ops (SimpleLRUCache.new 0)) as [m cap'].
    simpl in Hc, Hl. subst cap'.
    destruct m as [|[a x] [|? ?]]; [| |simpl in Hl; lia];
      unfold SimpleLRUCache.set, JsMap.has, JsMap.first_key, JsMap.keys;
      simpl; repeat (case_decide; simpl); try done; congruence.
Qed.

(** ** app.ts: a ban and its end *)

(** [banUser] followed by [isUserBanned]: the user counts as banned up to
    and including the stored instant [now + duration]; the first check
    after it answers false and removes the entry, leaving the other bans
    as they were; the ban of one user never shows in the check of
    another.  A ban whose stored instant is the number 0 does not ban. *)
Theorem app_ban_then_check (bans : gmap string Z) (u : string)
    (duration now now' : Z) :
  (now + duration ≠ 0 → now' ≤ now + duration →
   App.isUserBanned (App.banUser bans u duration now) u now' =
     (App.banUser bans u duration now, true)) ∧
  (now + duration ≠ 0 → now + duration < now' →
   App.isUserBanned (App.banUser bans u duration now) u now' =
     (delete u bans, false)) ∧
  (now + duration = 0 →
   App.isUserBanned (App.banUser bans u duration now) u now' =
     (App.banUser bans u duration now, false)) ∧
  (∀ v, v ≠ u →
   (App.isUserBanned (App.banUser bans u duration now) v now').2 =
     (App.isUserBanned bans v now').2).
Proof.
  unfold App.banUser. split_and!.
  - intros He Hle.
    apply (proj2 (app_isUserBanned_cases _ u now' _ (lookup_insert_eq _ _ _)
                    He) Hle).
  - intros He Hlt.
    rewrite (proj1 (app_isUserBanned_cases _ u now' _ (lookup_insert_eq _ _ _)
                      He) Hlt).
    by rewrite delete_insert_eq.
  - intros He. unfold App.isUserBanned. rewrite lookup_insert_eq, He. done.
  - intros v Hne. unfold App.isUserBanned.
    rewrite lookup_insert_ne by done.
    destruct (bans !! v) as [e|]; [|done].
    destruct (e =? 0); [done|]. by destruct (now' >? e).
Qed.

(** ** part_001: the time named in the limit notice *)

Section Part001Time.
Import Part001.

Lemma part001_current_info_time (u : string) (now : Z) (s : St) :
  ∃ info,
    objects (current_info u now s).2 !! (current_info u now s).1 = Some info ∧
    now - firstMessageTime info < RESET_PERIOD ∧
    (firstMessageTime info = now ∨
     ∃ ref, JsMap.get u (SimpleLRUCache.cache (userMessageInfo s)) = Some ref ∧
            objects s !! ref = Some info).
Proof.
  unfold current_info, cache_get.
  pose proof (lru_get_fst u (userMessageInfo s)) as Hf.
  destruct (SimpleLRUCache.get u (userMessageInfo s)) as [found c'].
  simpl in Hf. subst found. simpl.
  assert (∀ s0 : St,
    ∃ info,
      objects (let '(ref, s1) := new_info 0 now s0 in
               (ref, cache_set u ref s1)).2
        !! (let '(ref, s1) := new_info 0 now s0 in
            (ref, cache_set u ref s1)).1 = Some info ∧
      now - firstMessageTime info < RESET_PERIOD ∧
      firstMessageTime info = now) as Hnew.
  { intros s0. simpl. eexists. split_and!;
      [by apply list_lookup_middle| |done].
    simpl. rewrite Z.sub_diag. done. }
  destruct (JsMap.get u (SimpleLRUCache.cache (userMessageInfo s)))
    as [ref|] eqn:Eg.
  - cbn [objects set_cache].
    destruct (objects s !! ref) as [info|] eqn:Hinfo.
    + destruct (Z.geb_spec (now - firstMessageTime info) RESET_PERIOD).
      * destruct (Hnew (set_cache c' s)) as (i & ? & ? & ?). eauto.
      * exists info. split_and!; [exact Hinfo|done|]. right. eauto.
    + destruct (Hnew (set_cache c' s)) as (i & ? & ? & ?). eauto.
  - destruct (Hnew (set_cache c' s)) as (i & ? & ? & ?). eauto.
Qed.

Lemma part001_charge_time (u : string) (now : Z) (ref : nat) (s : St)
    (info : UserMessageInfo) :
  objects s !! ref = Some info →
  timeUntilReset (charge u now ref s).2 =
    RESET_PERIOD - (now - firstMessageTime info).
Proof.
  intros Hinfo. unfold charge. rewrite Hinfo.
  by destruct (count info >=? MAX_MESSAGES).
Qed.

End Part001Time.

(** In part_001, as long as the clock does not run behind the stored start
    of the user's window, the time until reset that [rateLimitUser]
    returns lies between one millisecond and 24 hours, so the limit
    notice names a whole number of hours from 0 to 24, rounded down: it
    reads "0 horas" throughout the last hour of the window. *)
Theorem part001_time_until_reset (u : string) (now : Z) (s : Part001.St) :
  (∀ ref info,
     JsMap.get u (SimpleLRUCache.cache (Part001.userMessageInfo s)) = Some ref →
     Part001.objects s !! ref = Some info →
     Part001.firstMessageTime info ≤ now) →
  let t := Part001.timeUntilReset (Part001.rateLimitUser u now s).2 in
  0 < t ≤ Part001.RESET_PERIOD ∧
  ∃ hours,
    0 ≤ hours ≤ 24 ∧
    hours * 3600000 ≤ t < (hours + 1) * 3600000 ∧
    Part001.formatTimeRemaining t =
      JsText.js (pretty hours) ++ JsText.js " hora" ++
      (if decide (hours = 1) then [] else JsText.js "s").
Proof.
  intros Hclock t.
  assert (0 < t ≤ Part001.RESET_PERIOD) as Ht.
  { unfold t, Part001.rateLimitUser.
    destruct (part001_current_info_time u now s) as (info & Hinfo & Hlt & Hor).
    destruct (Part001.current_info u now s) as [ref s1]. simpl in *.
    rewrite (part001_charge_time u now ref s1 info Hinfo).
    destruct Hor as [->|(ref0 & Hg & Ho)].
    - rewrite Z.sub_diag. unfold Part001.RESET_PERIOD. lia.
    - pose proof (Hclock ref0 info Hg Ho). lia. }
  split; [done|]. exists (t `div` 3600000).
  unfold Part001.RESET_PERIOD in Ht.
  split_and!.
  - apply Z.div_pos; lia.
  - apply Z.div_le_upper_bound; lia.
  - pose proof (Z.mul_div_le t 3600000). lia.
  - pose proof (Z.mul_succ_div_gt t 3600000). lia.
  - unfold Part001.formatTimeRemaining.
    change (1000 * 60 * 60) with 3600000.
    destruct (Z.eqb_spec (t `div` 3600000) 1) as [E|E].
    + by rewrite decide_True.
    + by rewrite decide_False.
Qed.

(** A user of part_001 at 20 messages, half an hour before the window
    ends. *)
Lemma part001_time_until_reset_witness :
  let s := Part001.mkSt
             (SimpleLRUCache.mk [("u"%string, 0%nat)] Part001.CAPACITY)
             [{| Part001.count := 20; Part001.firstMessageTime := 0;
                 Part001.queue := 0; Part001.processing := false;
                 Part001.bannedNotified := false |}]
             [[]] ∅ ∅ ∅ 0 20 [] in
  0 < Part001.timeUntilReset (Part001.rateLimitUser "u" 84600000 s).2
    ≤ Part001.RESET_PERIOD ∧
  Part001.formatTimeRemaining
    (Part001.timeUntilReset (Part001.rateLimitUser "u" 84600000 s).2) =
  JsText.js "0 horas".
Proof.
  intros s.
  destruct (part001_time_until_reset "u" 84600000 s) as [H1 _].
  - intros ref info Hg Ho. vm_compute in Hg. simplify_eq.
    vm_compute in Ho. simplify_eq. simpl. lia.
  - split; [exact H1|]. vm_compute. reflexivity.
Defined.

(** ** The fragments of app.ts and part_002 *)

Section TrimFacts.
Import JsText.
Implicit Types (s p : jsstring).

Lemma trim_start_suffix s : ∃ pre, s = pre ++ trim_start s.
Proof.
  induction s as [|c s [pre IH]]; [by exists []|]. simpl.
  destruct (is_white_space c).
  - exists (c :: pre). simpl. by rewrite <- IH.
  - by exists [].
Qed.

Lemma trim_start_head s c :
  head (trim_start s) = Some c → is_white_space c = false.
Proof.
  induction s as [|d s IH]; simpl; [done|].
  destruct (is_white_space d) eqn:E; [done|]. simpl. by intros [= <-].
Qed.

Lemma trim_head s c : head (trim s) = Some c → is_white_space c = false.
Proof.
  unfold trim. rewrite head_reverse.
  destruct (trim_start_suffix (reverse (trim_start s))) as [pre E].
  intros Hl.
  assert (last (reverse (trim_start s)) = Some c) as Hl'
    by (by rewrite E, last_app, Hl).
  rewrite last_reverse in Hl'. by eapply trim_start_head.
Qed.

Lemma trim_last s c : last (trim s) = Some c → is_white_space c = false.
Proof. unfold trim. rewrite last_reverse. apply trim_start_head. Qed.

Lemma trim_infix s : ∃ pre suf, s = pre ++ trim s ++ suf.
Proof.
  unfold trim. destruct (trim_start_suffix s) as [p1 E1].
  destruct (trim_start_suffix (reverse (trim_start s))) as [p2 E2].
  exists p1, (reverse p2). rewrite <- reverse_app, <- E2.
  by rewrite reverse_involutive.
Qed.

Lemma has_blank_line_app_r p s :
  has_blank_line (p ++ s) = false → has_blank_line s = false.
Proof.
  induction p as [|a p IH]; [done|]. intros H.
  change ((a :: p) ++ s) with (a :: (p ++ s)) in H. apply IH.
  destruct (p ++ s) as [|b r]; [done|].
  by apply has_blank_line_cons in H as [_ ?].
Qed.

Lemma has_blank_line_app_l p s :
  has_blank_line (p ++ s) = false → has_blank_line p = false.
Proof.
  induction p as [|a p IH]; [done|]. intros H.
  destruct p as [|b p]; [done|].
  change ((a :: b :: p) ++ s) with (a :: b :: (p ++ s)) in H.
  apply has_blank_line_cons in H as [H1 H2].
  cbn [has_blank_line]. rewrite H1. cbn [orb]. by apply IH.
Qed.

Lemma has_blank_line_trim p :
  has_blank_line p = false → has_blank_line (trim p) = false.
Proof.
  intros H. destruct (trim_infix p) as (pre & suf & E). rewrite E in H.
  apply has_blank_line_app_r in H. by apply has_blank_line_app_l in H.
Qed.

Lemma paragraphs_pieces s ps :
  Paragraphs s ps → Forall (fun p => has_blank_line p = false) ps.
Proof. induction 1; by repeat constructor. Qed.

Lemma trimmed_paragraphs s f :
  f ∈ trim <$> split_blank s →
  has_blank_line f = false ∧
  (∀ c, head f = Some c → is_white_space c = false) ∧
  (∀ c, last f = Some c → is_white_space c = false).
Proof.
  intros (p & -> & Hp)%list_elem_of_fmap.
  pose proof (paragraphs_pieces _ _ (split_blank_paragraphs s)) as Hall.
  rewrite Forall_forall in Hall. split_and!.
  - apply has_blank_line_trim. by apply Hall.
  - apply trim_head.
  - apply trim_last.
Qed.

Lemma no_blank_line_lookup f :
  has_blank_line f = false →
  ∀ i, f !! i = Some LF → f !! S i ≠ Some LF.
Proof.
  induction f as [|a t IH]; [done|].
  destruct t as [|b t']; [by intros _ [|i]|].
  intros H [|i].
  - cbn [has_blank_line] in H. cbn. intros [= ->] [= ->].
    by rewrite N.eqb_refl in H.
  - cbn [has_blank_line] in H. apply orb_false_elim in H as [_ H].
    intros Hi. apply (IH H i Hi).
Qed.

End TrimFacts.

(** In app.ts and part_002 every response is answered with at least one
    send.  A body that is sent never holds two line feeds in a row (the
    separator [/\n\n+/] does not occur inside a body) and neither starts
    nor ends with white space (it may be empty).  Only two adjacent line
    feeds separate: a line that holds nothing but white space, or an
    empty line that ends in carriage return and line feed, stays inside
    the body, so [a\n \nb] and [a\r\n\r\nb] are each sent as one
    body. *)
Theorem fragments_are_trimmed_paragraphs (response : list N) :
  App.fragments response ≠ [] ∧ Part002.fragments response ≠ [] ∧
  (∀ f, f ∈ App.fragments response ∨ f ∈ Part002.fragments response →
     JsText.has_blank_line f = false ∧
     (∀ i, f !! i = Some JsText.LF → f !! S i ≠ Some JsText.LF) ∧
     (∀ c, head f = Some c → JsText.is_white_space c = false) ∧
     (∀ c, last f = Some c → JsText.is_white_space c = false)) ∧
  App.fragments [97; 10; 32; 10; 98]%N = [[97; 10; 32; 10; 98]%N] ∧
  Part002.fragments [97; 10; 32; 10; 98]%N = [[97; 10; 32; 10; 98]%N] ∧
  App.fragments [97; 13; 10; 13; 10; 98]%N
    = [[97; 13; 10; 13; 10; 98]%N] ∧
  Part002.fragments [97; 13; 10; 13; 10; 98]%N
    = [[97; 13; 10; 13; 10; 98]%N].
Proof.
  split_and!.
  - unfold App.fragments. intros E%fmap_nil_inv.
    by destruct (split_blank_nonempty (App.cleanedResponse response)).
  - unfold Part002.fragments. intros E%fmap_nil_inv.
    by destruct (split_blank_nonempty (Part002.cleanedResponse response)).
  - intros f Hf.
    assert (JsText.has_blank_line f = false ∧
            (∀ c, head f = Some c → JsText.is_white_space c = false) ∧
            (∀ c, last f = Some c → JsText.is_white_space c = false))
      as (H1 & H2 & H3) by (destruct Hf; by eapply trimmed_paragraphs).
    split_and!; [done| |done|done].
    by apply no_blank_line_lookup.
  - vm_compute. reflexivity.
  - vm_compute. reflexivity.
  - vm_compute. reflexivity.
  - vm_compute. reflexivity.
Qed.

(** ** Each message is passed to the completion service once *)

Section AskOrderFacts.
Import Bot AskOrder.
Variable V : Variant.
Implicit Types (s : St V) (u : string) (wk : Worker).

Lemma ask_ids_app u (l1 l2 : list Action) :
  ask_ids u (l1 ++ l2) = ask_ids u l1 ++ ask_ids u l2.
Proof. unfold ask_ids. by rewrite omap_app. Qed.

Lemma ask_ids_other u (l : list Action) (a : Action) :
  not_ask a → ask_ids u (l ++ [a]) = ask_ids u l.
Proof.
  intros Ha. rewrite ask_ids_app. destruct a; simpl; try done;
    by rewrite app_nil_r.
Qed.

Lemma ask_inv_init : ask_inv V (init V).
Proof.
  split; simpl; intros; constructor.
Qed.

Lemma ask_inv_emit a s : not_ask a → ask_inv V s → ask_inv V (emit V a s).
Proof.
  intros Ha [H1 H2 H3]. split; simpl.
  - intros u. rewrite ask_ids_other by done. apply H1.
  - intros u. rewrite ask_ids_other by done. apply H2.
  - intros w wk Hw. rewrite ask_ids_other by done. by eapply H3.
Qed.

(** A change of what [ask_inv] does not look at. *)
Lemma ask_inv_frame s s' :
  log V s' = log V s → workers V s' = workers V s →
  (next_id V s ≤ next_id V s')%nat →
  ask_inv V s → ask_inv V s'.
Proof.
  intros El Ew Hn [H1 H2 H3]. split; rewrite ?El, ?Ew.
  - apply H1.
  - intros u. eapply Forall_impl; [apply H2|]. simpl. intros. lia.
  - apply H3.
Qed.

Lemma ask_inv_at s w wk a :
  workers V s !! w = Some wk → w_at wk ≠ AwaitTyping → a ≠ AwaitTyping →
  ask_inv V s →
  ask_inv V (set_workers V (<[w := at_ a wk]> (workers V s)) s).
Proof.
  intros Hw Hat Ha [H1 H2 H3]. split; simpl; [apply H1|apply H2|].
  intros w' wk'. rewrite lookup_insert_Some.
  intros [[<- <-]|[Hne Hw']]; [|by eapply H3].
  eapply Forall_impl; [exact (H3 w wk Hw)|]. simpl. intros i Hi.
  destruct (decide (w_at wk = AwaitTyping)); [done|].
  by destruct (decide (a = AwaitTyping)).
Qed.

Lemma ask_inv_ended s w wk :
  ask_inv V s → ask_inv V (ended V w wk s).
Proof.
  intros [H1 H2 H3].
  assert (∀ u, ask_ids u (log V (ended V w wk s)) = ask_ids u (log V s))
    as El.
  { intros u. unfold ended. destruct (w_timer wk); simpl; [|done].
    by apply ask_ids_other. }
  destruct (ended_fields V s w wk) as (Ew & _ & _ & _ & Ei & _).
  split.
  - intros u. rewrite El. apply H1.
  - intros u. rewrite El, Ei. apply H2.
  - intros w' wk' Hw'. rewrite El. rewrite Ew in Hw'.
    apply lookup_delete_Some in Hw' as [_ ?]. by eapply H3.
Qed.

Lemma ask_inv_finish s w wk :
  bot_inv V s → workers V s !! w = Some wk →
  ask_inv V s → ask_inv V (finish V w wk s).
Proof.
  intros Hinv Hw Hask.
  destruct (bot_worker_queue V s w wk Hinv Hw) as [[|t rest] Hq].
  - rewrite finish_exit by done. by apply ask_inv_ended.
  - rewrite (finish_next V s w wk t rest); [|by eapply inv_worker_lock|done].
    apply ask_inv_emit; [done|].
    destruct Hask as [H1 H2 H3]. split; simpl; [apply H1|apply H2|].
    intros w' wk'. rewrite lookup_insert_Some.
    intros [[<- <-]|[Hne Hw']]; [|by eapply H3].
    destruct (inv_order V s Hinv w wk _ Hw Hq) as [Hs _].
    apply StronglySorted_cons in Hs as [Hs _]. simpl in Hs.
    apply Forall_cons in Hs as [Hlt _].
    eapply Forall_impl; [apply (H3 w wk Hw)|]. simpl. intros i Hi.
    destruct (decide (AwaitTyping = AwaitTyping)); [|done].
    destruct (decide (w_at wk = AwaitTyping)); lia.
Qed.

Lemma ask_inv_send_next s w wk chunks :
  bot_inv V s → workers V s !! w = Some wk → w_at wk ≠ AwaitTyping →
  ask_inv V s → ask_inv V (send_next V w wk chunks s).
Proof.
  intros Hinv Hw Hat Hask. destruct chunks as [|c rest]; simpl.
  - by apply ask_inv_finish.
  - apply (ask_inv_at (emit V _ s) w wk); [done|done|done|].
    by apply ask_inv_emit.
Qed.

Lemma ask_inv_ask s w wk :
  bot_inv V s → workers V s !! w = Some wk → w_at wk = AwaitTyping →
  ask_inv V s →
  ask_inv V (set_workers V (<[w := at_ AwaitAsk wk]> (workers V s))
               (emit V (Ask (t_id (w_task wk)) (t_from (w_task wk))
                          (t_body (w_task wk))) s)).
Proof.
  intros Hinv Hw Hat [H1 H2 H3].
  destruct (bot_worker_task V s w wk Hinv Hw) as [Hfrom Hid].
  assert (Forall (fun i => (i < t_id (w_task wk))%nat)
            (ask_ids (w_user wk) (log V s))) as Hlt.
  { eapply Forall_impl; [exact (H3 w wk Hw)|]. simpl. intros i Hi.
    by destruct (decide (w_at wk = AwaitTyping)). }
  assert (∀ u, ask_ids u (log V s ++ [Ask (t_id (w_task wk))
                 (t_from (w_task wk)) (t_body (w_task wk))]) =
               if decide (w_user wk = u)
               then ask_ids u (log V s) ++ [t_id (w_task wk)]
               else ask_ids u (log V s)) as El.
  { intros u. rewrite ask_ids_app. simpl. rewrite Hfrom.
    destruct (decide (w_user wk = u)); [done|by rewrite app_nil_r]. }
  split; simpl.
  - intros u. rewrite El. destruct (decide (w_user wk = u)) as [<-|]; [|done].
    by apply StronglySorted_snoc.
  - intros u. rewrite El. destruct (decide (w_user wk = u)) as [<-|]; [|done].
    rewrite Forall_app, Forall_singleton. done.
  - intros w' wk'. rewrite lookup_insert_Some, El.
    intros [[<- <-]|[Hne Hw']].
    + simpl. rewrite decide_True by done.
      rewrite Forall_app, Forall_singleton. split.
      * eapply Forall_impl; [exact Hlt|]. simpl. intros i Hi.
        destruct (decide (AwaitAsk = AwaitTyping)); [done|lia].
      * by destruct (decide (AwaitAsk = AwaitTyping)).
    + rewrite decide_False; [by eapply H3|].
      intros E. apply Hne. by apply (inv_one V s Hinv w w' wk wk').
Qed.

Lemma ask_inv_settle s w r :
  bot_inv V s → ask_inv V s → ask_inv V (settle V w r s).
Proof.
  intros Hinv Hask. unfold settle.
  destruct (workers V s !! w) as [wk|] eqn:Hw; [|done].
  destruct r as [v|].
  - destruct (w_at wk) eqn:Hat.
    + by apply ask_inv_ask.
    + apply ask_inv_send_next; [done|done|by rewrite Hat|done].
    + apply ask_inv_send_next; [done|done|by rewrite Hat|done].
  - apply ask_inv_finish; [by apply bot_inv_emit_quiet|done|].
    by apply ask_inv_emit.
Qed.

Lemma ask_inv_spawned a from body s :
  ask_inv V s → ask_inv V (spawned V a from body s).
Proof.
  intros [H1 H2 H3].
  assert (∀ u, ask_ids u (log V (spawned V a from body s)) =
               ask_ids u (log V s)) as El.
  { intros u. unfold spawned. simpl. rewrite !ask_ids_app.
    destruct (heartbeat V); simpl; by rewrite ?app_nil_r. }
  split.
  - intros u. rewrite El. apply H1.
  - intros u. rewrite El.
    eapply Forall_impl; [apply H2|]. unfold spawned. simpl. intros. lia.
  - intros w wk Hw. rewrite El. unfold spawned in Hw. simpl in Hw.
    apply lookup_insert_Some in Hw as [[_ <-]|[_ Hw]]; [|by eapply H3].
    simpl. apply H2.
Qed.

Lemma ask_inv_welcomeFlow from body now s :
  bot_inv V s → ask_inv V s → ask_inv V (welcomeFlow V from body now s).
Proof.
  intros Hinv Hask. rewrite welcomeFlow_eq by done.
  destruct (admission V (adm V s) from now) as [a [|n|]].
  - eapply ask_inv_frame; [..|exact Hask]; simpl; try done; lia.
  - apply ask_inv_emit; [done|].
    eapply ask_inv_frame; [..|exact Hask]; simpl; try done; lia.
  - destruct (userQueues V s !! from) as [q|] eqn:Hq.
    + eapply ask_inv_frame; [..|exact Hask]; simpl; try done; lia.
    + by apply ask_inv_spawned.
Qed.

Lemma ask_inv_run evs : ask_inv V (run V evs).
Proof.
  induction evs as [|e evs IH] using rev_ind.
  - apply ask_inv_init.
  - rewrite run_snoc. pose proof (bot_inv_run V evs) as Hinv.
    destruct e as [from body now|w r|t]; simpl.
    + by apply ask_inv_welcomeFlow.
    + by apply ask_inv_settle.
    + unfold tick. destruct (intervals V _ !! t); [|done].
      by apply ask_inv_emit.
Qed.

End AskOrderFacts.

(** In app.ts and the files that share its loop, a message is never
    passed to the completion service twice, and the messages of one user
    are passed to it in the order of their arrival: the arrival numbers of
    the completion calls made for a user are strictly increasing. *)
Theorem each_message_asked_once (V : Bot.Variant) (evs : list Bot.Event)
    (u : string) (l1 l2 l3 : list Bot.Action) (i j : nat) (bi bj : list N) :
  Bot.log V (Bot.run V evs) =
    l1 ++ Bot.Ask i u bi :: l2 ++ Bot.Ask j u bj :: l3 →
  (i < j)%nat.
Proof.
  intros E. pose proof (AskOrder.ask_sorted V _ (ask_inv_run V evs) u) as Hs.
  rewrite E, ask_ids_app in Hs. simpl in Hs.
  rewrite decide_True in Hs by done.
  apply StronglySorted_app in Hs as (_ & _ & Hs).
  apply StronglySorted_cons in Hs as [Hs _].
  rewrite ask_ids_app in Hs. simpl in Hs. rewrite decide_True in Hs by done.
  rewrite Forall_app, Forall_cons in Hs. by destruct Hs as (_ & ? & _).
Qed.

(** Two messages of one user of part_000, both answered. *)
Lemma each_message_asked_once_witness :
  let evs :=
    [Bot.Message "u" [97%N] 0; Bot.Message "u" [98%N] 1;
     Bot.Settle 0 (Bot.Fulfilled []); Bot.Settle 0 (Bot.Fulfilled [120%N]);
     Bot.Settle 0 (Bot.Fulfilled []); Bot.Settle 0 (Bot.Fulfilled [])] in
  Bot.log Part000.variant (Bot.run Part000.variant evs) =
    [Bot.SetInterval 0 "u"; Bot.Typing "u" (Bot.ByTask 0)] ++
    Bot.Ask 0 "u" [97%N] ::
    [Bot.Send 0 "u" [120%N]; Bot.Typing "u" (Bot.ByTask 1)] ++
    Bot.Ask 1 "u" [98%N] :: [] ∧
  (0 < 1)%nat.
Proof.
  intros evs.
  assert (Bot.log Part000.variant (Bot.run Part000.variant evs) =
    [Bot.SetInterval 0 "u"; Bot.Typing "u" (Bot.ByTask 0)] ++
    Bot.Ask 0 "u" [97%N] ::
    [Bot.Send 0 "u" [120%N]; Bot.Typing "u" (Bot.ByTask 1)] ++
    Bot.Ask 1 "u" [98%N] :: []) as H by (vm_compute; reflexivity).
  split; [exact H|].
  exact (each_message_asked_once Part000.variant evs "u" _ _ _ 0 1 _ _ H).
Defined.

(** ** part_001: the notice at the fifteenth message *)

Section Part001NearLimit.
Import Part001.

Lemma part001_current_info_frame (u : string) (now : Z) (s : St) :
  let s' := (current_info u now s).2 in
  log s' = log s ∧ workers s' = workers s ∧ pending s' = pending s ∧
  next_id s' = next_id s ∧
  (window_count u now s ≠ 0 → arrays s' = arrays s).
Proof.
  unfold current_info, cache_get, window_count.
  pose proof (lru_get_fst u (userMessageInfo s)) as Hf.
  destruct (SimpleLRUCache.get u (userMessageInfo s)) as [found c'].
  simpl in Hf. subst found.
  destruct (JsMap.get u (SimpleLRUCache.cache (userMessageInfo s)))
    as [ref|]; simpl; [|done].
  destruct (objects s !! ref) as [info|]; simpl; [|done].
  by destruct (now - firstMessageTime info >=? RESET_PERIOD).
Qed.

Lemma part001_charge_frame (u : string) (now : Z) (ref : nat) (s : St) :
  let s' := (charge u now ref s).1 in
  log s' = log s ∧ workers s' = workers s ∧ pending s' = pending s ∧
  next_id s' = next_id s ∧ arrays s' = arrays s.
Proof.
  unfold charge. destruct (objects s !! ref) as [info|]; [|done].
  destruct (count info >=? MAX_MESSAGES); [|done].
  by destruct (bannedNotified info).
Qed.

Lemma part001_rateLimitUser_frame (u : string) (now : Z) (s : St) :
  let s' := (rateLimitUser u now s).1 in
  log s' = log s ∧ workers s' = workers s ∧ pending s' = pending s ∧
  next_id s' = next_id s ∧
  (window_count u now s ≠ 0 → arrays s' = arrays s).
Proof.
  unfold rateLimitUser.
  destruct (part001_current_info_frame u now s) as (E1 & E2 & E3 & E4 & E5).
  destruct (current_info u now s) as [ref s1]. simpl in *.
  destruct (part001_charge_frame u now ref s1) as (F1 & F2 & F3 & F4 & F5).
  split_and!; try congruence. intros Hc. rewrite F5. by apply E5.
Qed.

End Part001NearLimit.

(** In part_001 the message that brings the count of the window to 15 is
    not queued at once: [welcomeFlow] sends the notice of the five
    messages left and waits for that send.  If the send fails, the error
    is logged, the failure notice is sent, and the message is dropped: it
    is put in no queue and no completion call is made for it. *)
Theorem part001_fifteenth_message (from : string) (body : list N)
    (now now' : Z) (s : Part001.St) :
  Part001.window_count from now s = Part001.NOTIFICATION_THRESHOLD - 1 →
  let id := Part001.next_id s in
  let task := {| Bot.t_id := id; Bot.t_from := from; Bot.t_body := body |} in
  let s1 := Part001.welcomeFlow from body now s in
  Part001.log s1 =
    Part001.log s ++ [Part001.Notice id from Part001.getNotificationMessage] ∧
  Part001.pending s1 !! id =
    Some {| Part001.p_task := task; Part001.p_count := 15 |} ∧
  Part001.workers s1 = Part001.workers s ∧
  Part001.arrays s1 = Part001.arrays s ∧
  let s2 := Part001.settle_welcome id Bot.Rejected now' s1 in
  Part001.log s2 =
    Part001.log s1 ++
    [Part001.ConsoleError from;
     Part001.Notice id from Part001.error_notice] ∧
  Part001.pending s2 !! id = None ∧
  Part001.workers s2 = Part001.workers s ∧
  Part001.arrays s2 = Part001.arrays s.
Proof.
  intros Hc id task s1.
  set (s0 := Part001.set_next_id (S id) s).
  assert (Part001.window_count from now s0 = 14) as Hc0 by exact Hc.
  destruct (part001_rateLimitUser_spec from now s0) as (Ha & Hr & _).
  destruct (part001_rateLimitUser_frame from now s0)
    as (El & Ew & Ep & _ & Ea).
  rewrite Hc0 in Ha, Hr. simpl in Ha, Hr.
  assert (s1 =
    Part001.set_pending
      (<[id := {| Part001.p_task := task; Part001.p_count := 15 |}]>
         (Part001.pending (Part001.rateLimitUser from now s0).1))
      (Part001.emit (Part001.Notice id from Part001.getNotificationMessage)
         (Part001.rateLimitUser from now s0).1)) as E1.
  { unfold s1, Part001.welcomeFlow. fold id. fold s0.
    destruct (Part001.rateLimitUser from now s0) as [sr r]. simpl in *.
    rewrite Ha, Hr. reflexivity. }
  assert (Part001.pending s1 !! id =
          Some {| Part001.p_task := task; Part001.p_count := 15 |}) as Hp.
  { rewrite E1. simpl. apply lookup_insert_eq. }
  assert (Part001.log s1 = Part001.log s ++
            [Part001.Notice id from Part001.getNotificationMessage]) as Hl.
  { rewrite E1. simpl. by rewrite El. }
  assert (Part001.workers s1 = Part001.workers s) as Hw.
  { rewrite E1. simpl. by rewrite Ew. }
  assert (Part001.arrays s1 = Part001.arrays s) as Harr.
  { rewrite E1. simpl. rewrite Ea; [done|]. rewrite Hc0. done. }
  split_and!; try done.
  intros s2. unfold s2, Part001.settle_welcome. rewrite Hp. simpl.
  rewrite lookup_delete_eq.
  split_and!; try done. by rewrite <- app_assoc.
Qed.

(** A user of part_001 at 14 messages in the running window. *)
Lemma part001_fifteenth_witness :
  let s := Part001.mkSt
             (SimpleLRUCache.mk [("u"%string, 0%nat)] Part001.CAPACITY)
             [{| Part001.count := 14; Part001.firstMessageTime := 0;
                 Part001.queue := 0; Part001.processing := false;
                 Part001.bannedNotified := false |}]
             [[]] ∅ ∅ ∅ 0 14 [] in
  let s1 := Part001.welcomeFlow "u" [97%N] 5 s in
  Part001.log s1 = [Part001.Notice 14 "u" Part001.getNotificationMessage] ∧
  Part001.log (Part001.settle_welcome 14 Bot.Rejected 6 s1) =
    [Part001.Notice 14 "u" Part001.getNotificationMessage;
     Part001.ConsoleError "u"; Part001.Notice 14 "u" Part001.error_notice] ∧
  Part001.arrays (Part001.settle_welcome 14 Bot.Rejected 6 s1) = [[]].
Proof.
  intros s s1.
  destruct (part001_fifteenth_message "u" [97%N] 5 6 s)
    as (H1 & _ & _ & _ & H2 & _ & _ & H3); [reflexivity|].
  fold s1 in H1, H2, H3. split_and!; [exact H1| |exact H3].
  etransitivity; [exact H2|]. rewrite H1. reflexivity.
Defined.

(** ** part_002: what is removed from a response *)

Section Part002Cleaning.
Import JsText.
Implicit Types (s a b m x : jsstring).

Lemma sos_fuel_enough (f1 f2 : nat) s :
  (length s ≤ f1)%nat → (length s ≤ f2)%nat →
  strip_square_or_stars_fuel f1 s = strip_square_or_stars_fuel f2 s.
Proof.
  revert f2 s. induction f1 as [|f1 IH]; intros f2 s H1 H2.
  - destruct s; [|simpl in H1; lia]. by destruct f2.
  - destruct f2 as [|f2].
    + destruct s; [done|simpl in H2; lia].
    + destruct s as [|c r]; [done|]. simpl in H1, H2.
      cbn [strip_square_or_stars_fuel].
      destruct (match_delim [LBRACKET] [RBRACKET] (c :: r))
        as [[g rest]|] eqn:E.
      * apply match_delim_shorter in E; [|done]. simpl in E.
        apply IH; lia.
      * destruct (starts_with [STAR; STAR] (c :: r)).
        -- apply IH; rewrite length_drop; simpl; lia.
        -- f_equal. apply IH; lia.
Qed.

Lemma sos_cons (c : N) s :
  strip_square_or_stars (c :: s) =
  match match_delim [LBRACKET] [RBRACKET] (c :: s) with
  | Some (_, rest) => strip_square_or_stars rest
  | None =>
      if starts_with [STAR; STAR] (c :: s)
      then strip_square_or_stars (drop 2 (c :: s))
      else c :: strip_square_or_stars s
  end.
Proof.
  unfold strip_square_or_stars. cbn [length strip_square_or_stars_fuel].
  destruct (match_delim [LBRACKET] [RBRACKET] (c :: s)) as [[g rest]|] eqn:E.
  - apply match_delim_shorter in E; [|done]. simpl in E.
    apply sos_fuel_enough; lia.
  - destruct (starts_with [STAR; STAR] (c :: s)); [|done].
    apply sos_fuel_enough; rewrite ?length_drop; simpl; lia.
Qed.

Lemma sos_plain (c : N) s :
  c ≠ LBRACKET → c ≠ STAR →
  strip_square_or_stars (c :: s) = c :: strip_square_or_stars s.
Proof.
  intros Hb Hs. rewrite sos_cons. unfold match_delim.
  rewrite !starts_with_head_ne by done. done.
Qed.

Lemma sos_prefix a b :
  LBRACKET ∉ a → STAR ∉ a →
  strip_square_or_stars (a ++ b) = a ++ strip_square_or_stars b.
Proof.
  induction a as [|c a IH]; [done|]. rewrite !not_elem_of_cons.
  intros [Hb Ha] [Hs Ha']. cbn [app]. rewrite sos_plain by done.
  by rewrite IH.
Qed.

Lemma sos_stars b :
  strip_square_or_stars (STAR :: STAR :: b) = strip_square_or_stars b.
Proof. by rewrite sos_cons. Qed.

Lemma sos_group m b :
  RBRACKET ∉ m → Forall (fun c => is_line_terminator c = false) m →
  strip_square_or_stars (LBRACKET :: m ++ RBRACKET :: b) =
  strip_square_or_stars b.
Proof.
  intros Hm Hlt. rewrite sos_cons. unfold match_delim.
  cbn [starts_with length drop]. rewrite N.eqb_refl. cbn [andb].
  rewrite drop_0.
  pose proof (lazy_until_found RBRACKET [] m b Hm Hlt) as E.
  cbn [app] in E. by rewrite E.
Qed.

Lemma sos_single_star (c : N) s :
  c ≠ STAR →
  strip_square_or_stars (STAR :: c :: s) =
  STAR :: strip_square_or_stars (c :: s).
Proof.
  intros Hc. rewrite sos_cons. unfold match_delim.
  rewrite starts_with_head_ne by done.
  cbn [starts_with]. rewrite N.eqb_refl.
  destruct (N.eqb_spec STAR c); [congruence|done].
Qed.

Lemma collapse_stars_prefix a b :
  STAR ∉ a → collapse_stars (a ++ b) = a ++ collapse_stars b.
Proof.
  induction a as [|c a IH]; [done|]. rewrite not_elem_of_cons.
  intros [Hc Ha]. cbn [app]. specialize (IH Ha).
  destruct (a ++ b) as [|d r] eqn:E.
  - destruct a; [|done]. simpl in E. by subst b.
  - rewrite collapse_stars_cons2.
    destruct (N.eqb_spec c STAR); [done|]. cbn [andb]. by rewrite IH.
Qed.

End Part002Cleaning.

(** part_002 removes the emphasis markers altogether, where app.ts keeps
    one star on each side: a text between two doubled stars is sent
    bare; a square-bracket group on one line is removed; and two single
    stars that a removed group stood between are joined by the removal
    and then made one by the second [replace]. *)
Theorem part002_cleaning :
  (∀ x, JsText.STAR ∉ x → JsText.LBRACKET ∉ x →
     Part002.cleanedResponse
       ([JsText.STAR; JsText.STAR] ++ x ++ [JsText.STAR; JsText.STAR]) = x) ∧
  (∀ a m b,
     JsText.LBRACKET ∉ a → JsText.STAR ∉ a → JsText.RBRACKET ∉ m →
     Forall (fun c => JsText.is_line_terminator c = false) m →
     Part002.cleanedResponse
       (a ++ [JsText.LBRACKET] ++ m ++ [JsText.RBRACKET] ++ b) =
     a ++ Part002.cleanedResponse b) ∧
  (∀ m,
     JsText.RBRACKET ∉ m →
     Forall (fun c => JsText.is_line_terminator c = false) m →
     Part002.cleanedResponse
       ([JsText.STAR] ++ [JsText.LBRACKET] ++ m ++ [JsText.RBRACKET] ++
        [JsText.STAR]) = [JsText.STAR]).
Proof.
  unfold Part002.cleanedResponse. split_and!.
  - intros x Hs Hb. cbn [app]. rewrite sos_stars, sos_prefix by done.
    rewrite sos_stars.
    change (JsText.strip_square_or_stars []) with (@nil N).
    rewrite app_nil_r.
    rewrite <- (app_nil_r x) at 1. rewrite collapse_stars_prefix by done.
    simpl. by rewrite app_nil_r.
  - intros a m b Ha Hs Hm Hlt. cbn [app].
    rewrite sos_prefix, sos_group by done.
    by rewrite collapse_stars_prefix.
  - intros m Hm Hlt. cbn [app]. rewrite sos_single_star by done.
    rewrite sos_group by done. reflexivity.
Qed.

(** The text ["**hola**[1] mundo"]. *)
Lemma part002_cleaning_witness :
  Part002.cleanedResponse
    ([42; 42; 104; 111; 108; 97; 42; 42]%N) = [104; 111; 108; 97]%N ∧
  Part002.cleanedResponse
    ([104; 111; 108; 97]%N ++ [JsText.LBRACKET] ++ [49%N] ++
     [JsText.RBRACKET] ++ [32; 109]%N) = [104; 111; 108; 97; 32; 109]%N.
Proof.
  destruct part002_cleaning as (H1 & H2 & _). split.
  - apply (H1 [104; 111; 108; 97]%N).
    + apply (bool_decide_unpack _). vm_compute. reflexivity.
    + apply (bool_decide_unpack _). vm_compute. reflexivity.
  - rewrite H2; [reflexivity| | | |].
    + apply (bool_decide_unpack _). vm_compute. reflexivity.
    + apply (bool_decide_unpack _). vm_compute. reflexivity.
    + apply (bool_decide_unpack _). vm_compute. reflexivity.
    + repeat constructor.
Defined.

(** ** part_000 and part_003: a citation marker at the end of a paragraph *)

Section TrailingMarker.
Import JsText.
Implicit Types (s a m : jsstring).

Lemma trim_start_id s :
  (∀ c, head s = Some c → is_white_space c = false) → trim_start s = s.
Proof. destruct s as [|c s]; [done|]. intros H. simpl. by rewrite (H c). Qed.

Lemma trim_id s :
  (∀ c, head s = Some c → is_white_space c = false) →
  (∀ c, last s = Some c → is_white_space c = false) →
  trim s = s.
Proof.
  intros Hh Hl. unfold trim. rewrite (trim_start_id s Hh).
  rewrite trim_start_id; [apply reverse_involutive|].
  intros c. rewrite head_reverse. apply Hl.
Qed.

Lemma lazy_until_unclosed suf m :
  suf ≠ [] → RLENT ∉ m → lazy_until (RLENT :: suf) (m ++ [RLENT]) = None.
Proof.
  intros Hsuf. induction m as [|x m IH]; intros Hm.
  - destruct suf as [|d suf]; [done|]. reflexivity.
  - apply not_elem_of_cons in Hm as [Hx Hm]. cbn [app lazy_until].
    rewrite starts_with_head_ne by done.
    destruct (is_line_terminator x); [done|]. by rewrite IH.
Qed.

Lemma replace_delim_unclosed suf repl a m :
  suf ≠ [] → LLENT ∉ a → LLENT ∉ m → RLENT ∉ m →
  replace_delim [LLENT] (RLENT :: suf) repl (a ++ LLENT :: m ++ [RLENT]) =
  a ++ LLENT :: m ++ [RLENT].
Proof.
  intros Hsuf Ha Hm Hr. rewrite replace_delim_prefix by done. f_equal.
  rewrite replace_delim_cons by done. unfold match_delim.
  cbn [starts_with length drop]. rewrite N.eqb_refl. cbn [andb].
  rewrite drop_0, lazy_until_unclosed by done. f_equal.
  apply replace_delim_no_open. rewrite not_elem_of_app, not_elem_of_cons.
  split_and!; [done|done|apply not_elem_of_nil].
Qed.

Lemma collapse_stars_plain s : STAR ∉ s → collapse_stars s = s.
Proof.
  intros Hs. rewrite <- (app_nil_r s) at 1.
  rewrite collapse_stars_prefix by done. simpl. by rewrite app_nil_r.
Qed.

End TrailingMarker.

(** In part_000 and part_003 the pattern that removes a citation marker
    asks for a space (two in part_003) after the marker, and it is
    applied to the trimmed chunk: so a marker at the very end of a
    paragraph is not removed and is sent to the user. *)
Theorem marker_at_end_is_kept (a m : list N) :
  let r := a ++ [JsText.LLENT] ++ m ++ [JsText.RLENT] in
  JsText.has_blank_line r = false →
  (∀ c, head r = Some c → JsText.is_white_space c = false) →
  JsText.LLENT ∉ a → JsText.LLENT ∉ m → JsText.RLENT ∉ m →
  JsText.STAR ∉ r → JsText.LBRACKET ∉ r →
  Part000.fragments r = [r] ∧ Part003.fragments r = [r].
Proof.
  intros r Hnb Hhead Ha Hm Hr Hstar Hbr.
  assert (JsText.trim r = r) as Htrim.
  { apply trim_id; [done|]. intros c. unfold r.
    rewrite !app_assoc, last_snoc. by intros [= <-]. }
  assert (JsText.split_blank r = [r]) as Hsplit
    by (by apply split_blank_no_blank).
  split.
  - unfold Part000.fragments. rewrite Hsplit. simpl. rewrite Htrim.
    unfold JsText.strip_lenticular_sp, r. cbn [app].
    rewrite replace_delim_unclosed by done.
    rewrite collapse_stars_plain; [done|exact Hstar].
  - unfold Part003.fragments, JsText.strip_square.
    rewrite (replace_delim_no_open JsText.LBRACKET) by done.
    rewrite Htrim, Hsplit. simpl. rewrite Htrim.
    unfold JsText.strip_lenticular_sp2, r. cbn [app].
    by rewrite replace_delim_unclosed.
Qed.

(** The paragraph ["dato【1】"]. *)
Lemma marker_at_end_witness :
  Part000.fragments ([100; 97; 116; 111]%N ++ [JsText.LLENT] ++ [49%N] ++
                     [JsText.RLENT]) =
    [[100; 97; 116; 111; 12304; 49; 12305]%N] ∧
  Part003.fragments ([100; 97; 116; 111]%N ++ [JsText.LLENT] ++ [49%N] ++
                     [JsText.RLENT]) =
    [[100; 97; 116; 111; 12304; 49; 12305]%N].
Proof.
  apply (marker_at_end_is_kept [100; 97; 116; 111]%N [49%N]).
  - reflexivity.
  - intros c [= <-]. reflexivity.
  - apply (bool_decide_unpack _). vm_compute. reflexivity.
  - apply (bool_decide_unpack _). vm_compute. reflexivity.
  - apply (bool_decide_unpack _). vm_compute. reflexivity.
  - apply (bool_decide_unpack _). vm_compute. reflexivity.
  - apply (bool_decide_unpack _). vm_compute. reflexivity.
Defined.

(** A ban of one day set at instant 5. *)
Lemma app_ban_then_check_witness :
  App.isUserBanned (App.banUser ∅ "u" 86400000 5) "u" 86400005 =
    (App.banUser ∅ "u" 86400000 5, true) ∧
  App.isUserBanned (App.banUser ∅ "u" 86400000 5) "u" 86400006 =
    (delete "u" ∅, false).
Proof.
  destruct (app_ban_then_check ∅ "u" 86400000 5 86400005) as (H1 & _).
  destruct (app_ban_then_check ∅ "u" 86400000 5 86400006) as (_ & H2 & _).
  split; [apply H1; lia|apply H2; lia].
Defined.

(** ** part_001: a message over the limit *)

(** In part_001 every message of a user whose count in the running window
    has reached 20 is answered with the limit notice, not only the first
    one; the message is dropped: no queue, activation or pending notice
    changes, and the stored count stays as it is. *)
Theorem part001_over_limit_message (from : string) (body : list N) (now : Z)
    (s : Part001.St) :
  Part001.MAX_MESSAGES ≤ Part001.window_count from now s →
  let s1 := Part001.welcomeFlow from body now s in
  (∃ t, Part001.log s1 =
          Part001.log s ++
          [Part001.Notice (Part001.next_id s) from
             (Part001.getLimitReachedMessage t)]) ∧
  Part001.workers s1 = Part001.workers s ∧
  Part001.pending s1 = Part001.pending s ∧
  Part001.arrays s1 = Part001.arrays s ∧
  Part001.stored_count from s1 = Some (Part001.window_count from now s).
Proof.
  intros Hc s1.
  set (s0 := Part001.set_next_id (S (Part001.next_id s)) s).
  assert (Part001.window_count from now s0 = Part001.window_count from now s)
    as Hc0 by reflexivity.
  destruct (part001_rateLimitUser_spec from now s0) as (Ha & _ & Hs).
  destruct (part001_rateLimitUser_frame from now s0)
    as (El & Ew & Ep & _ & Ea).
  rewrite Hc0 in Ha, Hs.
  destruct (Z.ltb_spec (Part001.window_count from now s) Part001.MAX_MESSAGES);
    [lia|].
  assert (s1 =
    Part001.emit
      (Part001.Notice (Part001.next_id s) from
         (Part001.getLimitReachedMessage
            (Part001.timeUntilReset (Part001.rateLimitUser from now s0).2)))
      (Part001.rateLimitUser from now s0).1) as E1.
  { unfold s1, Part001.welcomeFlow. fold s0.
    destruct (Part001.rateLimitUser from now s0) as [sr r]. simpl in *.
    by rewrite Ha. }
  split_and!.
  - eexists. rewrite E1. simpl. by rewrite El.
  - rewrite E1. simpl. by rewrite Ew.
  - rewrite E1. simpl. by rewrite Ep.
  - rewrite E1. simpl. apply Ea. rewrite Hc0. unfold Part001.MAX_MESSAGES in *.
    lia.
  - rewrite E1. exact Hs.
Qed.

(** A user of part_001 at 20 messages in the running window writes
    twice. *)
Lemma part001_over_limit_witness :
  let s := Part001.mkSt
             (SimpleLRUCache.mk [("u"%string, 0%nat)] Part001.CAPACITY)
             [{| Part001.count := 20; Part001.firstMessageTime := 0;
                 Part001.queue := 0; Part001.processing := false;
                 Part001.bannedNotified := false |}]
             [[]] ∅ ∅ ∅ 0 20 [] in
  let s1 := Part001.welcomeFlow "u" [97%N] 5 s in
  let s2 := Part001.welcomeFlow "u" [98%N] 6 s1 in
  Part001.arrays s1 = [[]] ∧ Part001.arrays s2 = [[]] ∧
  Part001.stored_count "u" s2 = Some 20 ∧
  length (Part001.log s2) = 2%nat.
Proof.
  intros s s1 s2.
  destruct (part001_over_limit_message "u" [97%N] 5 s)
    as (_ & _ & _ & H1 & _); [vm_compute; discriminate|].
  destruct (part001_over_limit_message "u" [98%N] 6 s1)
    as (_ & _ & _ & H2 & H3); [vm_compute; discriminate|].
  fold s1 in H1. fold s2 in H2, H3.
  split_and!; [exact H1|by rewrite H2, H1|exact H3|].
  vm_compute. reflexivity.
Defined.
